(** * iceberk.classifier: losses, regularizers and the distributed solvers

    A shallow embedding of [yq_things/iceberk/classifier.py].

    Numbers.  The program computes on numpy [float64] arrays.  The embedding
    idealises [float64] as the real numbers [R]: rounding, overflow, infinities
    and not-a-number values are outside the model, and every statement below
    is a statement about the real-number reading of the code.

    Arrays.  In the losses and regularizers a one-dimensional array is a
    [list R] and a two-dimensional array is the list of its rows.  Elementwise
    numpy operators are modelled on operands of equal shape, which is the
    contract the docstrings of [Loss] and [Loss2] give ("pred: prediction, has
    the same shape as Y"); numpy's broadcasting of operands of different
    shapes is not modelled there, and the theorems carry the shape contract
    as hypotheses.  The empty list of rows stands for an array of shape
    [0, K].  Where the solver looks at [shape] ([presolve], [obj]) an array
    is a record of its shape and its cells, and what numpy raises on a shape
    that does not fit is a result of the model.

    Effects.  A function that may raise returns a [result]; a function that
    takes part in the collectives of [iceberk.mpi] runs in the monad [M],
    which also threads the messages of the other workers.  The solver object
    that the Python code mutates is passed in and returned.

    Contents: the embedding (modules [Np] to [SolverStochastic], in the order
    of the source), the reading of the spec ([World], [Spec]), then the
    theorems. *)

From Stdlib Require Import String.
From Stdlib Require Import Reals Lra Lia List Arith Bool ZArith.
Import ListNotations.

Open Scope R_scope.

(** ** numpy array primitives *)

Module Np.

Abbreviation vec := (list R).
Abbreviation mat := (list (list R)).

Fixpoint zip_with {A B C : Type} (f : A -> B -> C) (xs : list A) (ys : list B)
  : list C :=
  match xs, ys with
  | x :: xs', y :: ys' => f x y :: zip_with f xs' ys'
  | _, _ => []
  end.

(** [A] has shape [n, K]. *)
Definition has_shape (n K : nat) (A : mat) : Prop :=
  length A = n /\ Forall (fun r => length r = K) A.

(** [A.shape[1]] read off the first row. *)
Definition ncols (A : mat) : nat :=
  match A with
  | [] => 0%nat
  | r :: _ => length r
  end.

(** [A[i, j]] *)
Definition entry (A : mat) (i j : nat) : R := nth j (nth i A []) 0.

(** unary ufunc applied to a 2-d array *)
Definition emap (f : R -> R) (A : mat) : mat := map (map f) A.

(** binary ufunc applied to two 2-d arrays of one shape *)
Definition ewise (f : R -> R -> R) (A B : mat) : mat :=
  zip_with (zip_with f) A B.

(** [v.sum()] *)
Definition vsum (v : vec) : R := fold_right Rplus 0 v.

(** [A.sum()] *)
Definition msum (A : mat) : R := vsum (map vsum A).

(** [A.sum(axis=1)], also [A.sum(1)] *)
Definition rowsum (A : mat) : vec := map vsum A.

(** [A.flat], [A.flatten()], [A.ravel()]: row-major order *)
Definition flat (A : mat) : vec := concat A.

(** [np.dot(u, v)] on two vectors *)
Definition vdot (u v : vec) : R := vsum (zip_with Rmult u v).

(** [u + v] on two vectors of one length *)
Definition vadd (u v : vec) : vec := zip_with Rplus u v.

(** [c * v] *)
Definition vscale (c : R) (v : vec) : vec := map (Rmult c) v.

(** [np.dot(w, A)] for a vector [w] of length [n] and [A] of shape [n, K]:
    the vector of length [K] whose entry [k] is [sum_i w[i] * A[i, k]]. *)
Definition vecmat (K : nat) (w : vec) (A : mat) : vec :=
  fold_right vadd (repeat 0 K) (zip_with vscale w A).

(** [A.sum(axis=0)] for [A] of shape [n, K] *)
Definition colsum (K : nat) (A : mat) : vec :=
  fold_right vadd (repeat 0 K) A.

(** [w[:, np.newaxis]] broadcast against the 2-d array [like]: row [i] is
    filled with [w[i]]. *)
Definition col (w : vec) (like : mat) : mat :=
  zip_with (fun wi row => map (fun _ => wi) row) w like.

(** the boolean array [m > 0], read as 1.0 / 0.0 when it meets a float *)
Definition gt0 (m : R) : R := if Rlt_dec 0 m then 1 else 0.

(** [buf[:] = src]: the storage (and so the shape) of [buf] is kept, its
    contents are overwritten by those of [src]. *)
Definition assign (buf src : mat) : mat :=
  zip_with (zip_with (fun _ s => s)) buf src.

(** [np.clip(x, 0, np.inf)]: the upper bound is infinite, only the lower
    bound acts. *)
Definition clip_0_inf (x : R) : R := Rmax x 0.

(** [inner1d(A, A)]: the inner product of every row with itself *)
Definition inner1d (A B : mat) : vec := zip_with vdot A B.

(** all results of a list of fallible computations, or the first failure *)
Fixpoint all_some {A : Type} (l : list (option A)) : option (list A) :=
  match l with
  | [] => Some []
  | None :: _ => None
  | Some x :: l' =>
      match all_some l' with
      | None => None
      | Some xs => Some (x :: xs)
      end
  end.

(** [v.max()]; numpy raises ValueError on an empty array ([None]). *)
Fixpoint vmax (v : vec) : option R :=
  match v with
  | [] => None
  | x :: v' =>
      match vmax v' with
      | None => Some x
      | Some m => Some (Rmax x m)
      end
  end.

(** [A.max(axis=1)]; fails when the rows are empty. *)
Definition rowmax (A : mat) : option vec := all_some (map vmax A).

(** A Python index [y] into an axis of length [K]: a negative index counts
    from the end, anything outside [-K, K) is an IndexError ([None]). *)
Definition py_index (K : nat) (y : Z) : option nat :=
  if ((0 <=? y) && (y <? Z.of_nat K))%Z then Some (Z.to_nat y)
  else if ((- Z.of_nat K <=? y) && (y <? 0))%Z
       then Some (Z.to_nat (y + Z.of_nat K))
       else None.

(** [row[j] = f(row[j])] *)
Fixpoint update_at (j : nat) (f : R -> R) (row : vec) : vec :=
  match row, j with
  | [], _ => []
  | x :: row', O => f x :: row'
  | x :: row', S j' => x :: update_at j' f row'
  end.

(** [A[np.arange(len(Y)), Y] -= 1.]: in row [i] the cell [Y[i]] loses 1;
    IndexError when [Y] is longer than [A] or an index is out of range. *)
Fixpoint sub1_at (A : mat) (Y : list Z) : option mat :=
  match Y, A with
  | [], _ => Some A
  | _ :: _, [] => None
  | y :: Y', row :: A' =>
      match py_index (length row) y, sub1_at A' Y' with
      | Some j, Some A'' => Some (update_at j (fun x => x - 1) row :: A'')
      | _, _ => None
      end
  end.

(** [A[np.arange(len(Y)), Y]]: the vector of the cells [A[i, Y[i]]] *)
Fixpoint take_at (A : mat) (Y : list Z) : option vec :=
  match Y, A with
  | [], _ => Some []
  | _ :: _, [] => None
  | y :: Y', row :: A' =>
      match py_index (length row) y, take_at A' Y' with
      | Some j, Some v => Some (nth j row 0 :: v)
      | _, _ => None
      end
  end.

(** One row of [np.empty_like] / [ndarray.resize]: [k] cells taken from the
    old flat contents, zero where they run out. *)
Fixpoint refill_row (k : nat) (data : vec) : vec * vec :=
  match k with
  | O => ([], data)
  | S k' =>
      let (x, rest) := match data with [] => (0, []) | x :: d => (x, d) end in
      let (row, rest') := refill_row k' rest in
      (x :: row, rest')
  end.

Fixpoint refill (widths : list nat) (data : vec) : mat :=
  match widths with
  | [] => []
  | k :: ws => let (row, rest) := refill_row k data in row :: refill ws rest
  end.

(** [np.empty_like(A)]: an array of the shape of [A]; its contents are
    unspecified in numpy and read as 0 here. *)
Definition empty_like (A : mat) : mat := map (map (fun _ => 0)) A.

(** [buf.resize(like.shape)]: [buf] takes the shape of [like]; the old
    contents stay in flat order, new cells are zero. *)
Definition resize (buf like : mat) : mat :=
  refill (map (@length R) like) (flat buf).

End Np.

Import Np.

(** ** iceberk.mathutil *)

Module Mathutil.

(** Modelled from the spec: [mathutil.exp] is not among the sources; the spec
    reads [mathutil.exp(prob, out=prob)] as the exponentiation step of
    "prob=softmax(pred)" and of "exp(-Y·pred)", so it is the elementwise
    exponential. *)
Definition exp (x : R) : R := Rtrigo_def.exp x.

(** Modelled from the spec: [mathutil.log] is not among the sources; the spec
    reads [mathutil.log(prob, out=prob)] as the logarithm of
    "f=-Σ log(prob)·Y", so it is the elementwise natural logarithm. *)
Definition log (x : R) : R := ln x.

(** Modelled from the spec: [mathutil.dot] is not among the sources; the spec
    reads [mathutil.dot(X, w, out=pred)] as "pred = X·W" and
    [mathutil.dot(X.T, gpred, out=...)] as "g_W_local = X' · g_pred", so it is
    the matrix product, here of [A] with a matrix [B] of [K] columns. *)
Definition dot (K : nat) (A B : mat) : mat :=
  map (fun a => vecmat K a B) A.

(** [mathutil.dot(A, B, out=buf)] for [A] of shape [n, d], [B] of shape
    [d, K] and a buffer of shape [n, K]; [None] is the error on operands of
    any other shapes. *)
Definition dot_out (n d K : nat) (A B buf : mat) : option mat :=
  if ((length A =? n)%nat && forallb (fun r => (length r =? d)%nat) A
      && (length B =? d)%nat && forallb (fun r => (length r =? K)%nat) B
      && (length buf =? n)%nat && forallb (fun r => (length r =? K)%nat) buf)
  then Some (dot K A B)
  else None.

End Mathutil.

(** ** class Loss: the allocating loss functions *)

Module Loss.

(** [Loss.loss_l2(Y, pred, weight)] *)
Definition loss_l2 (Y pred : mat) (weight : option vec) : R * mat :=
  let diff := ewise Rminus pred Y in
  match weight with
  | None => (vdot (flat diff) (flat diff), emap (Rmult 2) diff)
  | Some w =>
      (vdot (rowsum (emap (fun d => d ^ 2) diff)) w,
       ewise Rmult (emap (Rmult 2) diff) (col w diff))
  end.

(** [Loss.loss_hinge(Y, pred, weight)] *)
Definition loss_hinge (Y pred : mat) (weight : option vec) : R * mat :=
  let margin := emap (Rmax 0) (emap (Rminus 1) (ewise Rmult Y pred)) in
  match weight with
  | None =>
      let f := msum margin in
      let g := ewise Rmult (emap Ropp Y) (emap gt0 margin) in
      (f, g)
  | Some w =>
      let f := vsum (vecmat (ncols margin) w margin) in
      let g := ewise Rmult (ewise Rmult (emap Ropp Y) (col w Y))
                     (emap gt0 margin) in
      (f, g)
  end.

(** [Loss.loss_squared_hinge(Y, pred, weight)] *)
Definition loss_squared_hinge (Y pred : mat) (weight : option vec) : R * mat :=
  let margin := emap (Rmax 0) (emap (Rminus 1) (ewise Rmult Y pred)) in
  match weight with
  | None =>
      (vdot (flat margin) (flat margin),
       ewise Rmult (emap (Rmult (-2)) Y) margin)
  | Some w =>
      let wm := ewise Rmult (col w margin) margin in
      (vdot (flat wm) (flat margin), ewise Rmult (emap (Rmult (-2)) Y) wm)
  end.

(** [Loss.loss_multiclass_logistic(Y, pred, weight)].  [None] is the
    ValueError of [pred.max(axis=1)] on rows of length 0. *)
Definition loss_multiclass_logistic (Y pred : mat) (weight : option vec)
  : option (R * mat) :=
  match rowmax pred with
  | None => None
  | Some mx =>
      let prob := ewise Rminus pred (col mx pred) in
      let prob := emap Mathutil.exp prob in
      let prob := ewise Rdiv prob (col (rowsum prob) prob) in
      let g := ewise Rminus prob Y in
      let prob := emap Mathutil.log prob in
      Some (- vdot (flat prob) (flat Y), g)
  end.

(** [a op b] on two 1-d arrays as numpy broadcasts them: entry by entry
    when the lengths agree, an array of length 1 against every entry of the
    other; [None] is the ValueError for any other two lengths. *)
Definition broadcast (f : R -> R -> R) (a b : vec) : option vec :=
  if (length a =? length b)%nat then Some (zip_with f a b)
  else
    match a, b with
    | _, [y] => Some (map (fun x => f x y) a)
    | [x], _ => Some (map (fun y => f x y) b)
    | _, _ => None
    end.

(** [A op w] for a 2-d array [A] and a 1-d array [w]: numpy aligns [w]
    with the last axis of [A], that is with every row. *)
Definition with_vector (f : R -> R -> R) (A : mat) (w : vec) : option mat :=
  all_some (map (fun row => broadcast f row w) A).

(** [A op B] for two 2-d arrays with the same number of rows *)
Definition with_matrix (f : R -> R -> R) (A B : mat) : option mat :=
  all_some (zip_with (broadcast f) A B).

(** [Loss.loss_bnll(Y, pred, weight)].  [None] is the ValueError of
    [np.dot] on a weight vector that has not one entry per row, or of an
    operation on shapes that do not broadcast. *)
Definition loss_bnll (Y pred : mat) (weight : option vec)
  : option (R * mat) :=
  (* expnyp is exp(-y * pred) *)
  let expnyp := emap Mathutil.exp (ewise Rmult (emap Ropp Y) pred) in
  let expnyp_plus := emap (Rplus 1) expnyp in
  match weight with
  | None =>
      Some (msum (emap Mathutil.log expnyp_plus),
            ewise Rdiv (ewise Rmult (emap Ropp Y) expnyp) expnyp_plus)
  | Some w =>
      let logs := emap Mathutil.log expnyp_plus in
      if (length w =? length logs)%nat then
        let f := vsum (vecmat (ncols logs) w logs) in
        match with_vector Rmult (emap Ropp Y) w with
        | None => None
        | Some g =>
            match with_matrix Rmult g expnyp with
            | None => None
            | Some g =>
                match with_matrix Rdiv g expnyp_plus with
                | None => None
                | Some g => Some (f, g)
                end
            end
        end
      else None
  end.

End Loss.

(** ** class Loss2: the loss functions that write into a caller's buffer

    Every function receives the gradient buffer [gpred] and the scratch list
    [cache], updates them in place and returns [(f, gpred)].  The embedding
    passes the state: the result is [(f, gpred, cache)] with the final
    contents of both. *)

Module Loss2.

(** [Loss2.loss_l2(Y, pred, weight, gpred, cache)] *)
Definition loss_l2 (Y pred : mat) (weight : option vec) (gpred : mat)
  (cache : list mat) : R * mat * list mat :=
  match weight with
  | None =>
      let gpred := assign gpred pred in
      let gpred := ewise Rminus gpred Y in
      let f := vdot (flat gpred) (flat gpred) in
      let gpred := emap (fun x => x * 2) gpred in
      (f, gpred, cache)
  | Some w =>
      let gpred := assign gpred pred in
      let gpred := ewise Rminus gpred Y in
      let gpred := emap (fun x => x ^ 2) gpred in
      let f := vdot (rowsum gpred) w in
      let gpred := assign gpred pred in
      let gpred := ewise Rminus gpred Y in
      let gpred := ewise Rmult gpred (col (vscale 2 w) gpred) in
      (f, gpred, cache)
  end.

(** the common prefix of both hinge losses: [gpred] receives the margin *)
Definition margin_into (Y pred gpred : mat) : mat :=
  let gpred := assign gpred pred in
  let gpred := ewise Rmult gpred Y in
  let gpred := emap (fun x => x * -1) gpred in
  let gpred := emap (fun x => x + 1) gpred in
  emap clip_0_inf gpred.

(** [Loss2.loss_hinge(Y, pred, weight, gpred, cache)] *)
Definition loss_hinge (Y pred : mat) (weight : option vec) (gpred : mat)
  (cache : list mat) : R * mat * list mat :=
  let gpred := margin_into Y pred gpred in
  match weight with
  | None =>
      let f := msum gpred in
      let gpred := assign gpred (emap gt0 gpred) in
      let gpred := ewise Rmult gpred Y in
      let gpred := emap (fun x => x * -1) gpred in
      (f, gpred, cache)
  | Some w =>
      let f := vdot w (rowsum gpred) in
      let gpred := assign gpred (emap gt0 gpred) in
      let gpred := ewise Rmult gpred Y in
      let gpred := ewise Rmult gpred (col (map Ropp w) gpred) in
      (f, gpred, cache)
  end.

(** [Loss2.loss_squared_hinge(Y, pred, weight, gpred, cache)] *)
Definition loss_squared_hinge (Y pred : mat) (weight : option vec)
  (gpred : mat) (cache : list mat) : R * mat * list mat :=
  let gpred := margin_into Y pred gpred in
  match weight with
  | None =>
      let f := vdot (flat gpred) (flat gpred) in
      let gpred := ewise Rmult gpred Y in
      let gpred := emap (fun x => x * -2) gpred in
      (f, gpred, cache)
  | Some w =>
      let gprednorm := inner1d gpred gpred in
      let f := vdot gprednorm w in
      let gpred := ewise Rmult gpred Y in
      let gpred := ewise Rmult gpred (col (vscale (-2) w) gpred) in
      (f, gpred, cache)
  end.

(** The scratch array both multiclass losses keep in [cache[0]]: appended on
    first use, resized to the shape of [pred], then overwritten
    ([prob[:] = pred]). *)
Definition scratch (cache : list mat) (pred : mat) : mat :=
  let cache := match cache with [] => [empty_like pred] | _ => cache end in
  let prob := resize (hd [] cache) pred in
  assign prob pred.

(** the cache after a call: [cache[0]] is the scratch array *)
Definition store (cache : list mat) (prob : mat) : list mat :=
  prob :: tl cache.

(** the softmax prefix of both multiclass losses, computed in [prob] *)
Definition softmax_into (prob : mat) (mx : vec) : mat :=
  let prob := ewise Rminus prob (col mx prob) in
  let prob := emap Mathutil.exp prob in
  ewise Rdiv prob (col (rowsum prob) prob).

(** [Loss2.loss_multiclass_logistic(Y, pred, weight, gpred, cache)] *)
Definition loss_multiclass_logistic (Y pred : mat) (weight : option vec)
  (gpred : mat) (cache : list mat) : option (R * mat * list mat) :=
  let prob := scratch cache pred in
  match rowmax pred with
  | None => None
  | Some mx =>
      let prob := softmax_into prob mx in
      let gpred := assign gpred prob in
      let gpred := ewise Rminus gpred Y in
      let prob := emap Mathutil.log prob in
      Some (- vdot (flat prob) (flat Y), gpred, store cache prob)
  end.

(** [Loss2.loss_multiclass_logistic_yvector(Y, pred, weight, gpred, cache)];
    [Y] is a vector of class indices. *)
Definition loss_multiclass_logistic_yvector (Y : list Z) (pred : mat)
  (weight : option vec) (gpred : mat) (cache : list mat)
  : option (R * mat * list mat) :=
  let prob := scratch cache pred in
  match rowmax pred with
  | None => None
  | Some mx =>
      let prob := softmax_into prob mx in
      let gpred := assign gpred prob in
      match sub1_at gpred Y with
      | None => None
      | Some gpred =>
          let prob := emap Mathutil.log prob in
          match take_at prob Y with
          | None => None
          | Some picked => Some (- vsum picked, gpred, store cache prob)
          end
      end
  end.

End Loss2.

(** ** class Reg: the regularizers *)

Module Reg.

(** the keyword arguments [**kwargs] a regularizer may read: ['alpha'] *)
Record kwargs := { alpha : option R }.

(** [np.sign(x)] *)
Definition sign (x : R) : R :=
  if Rlt_dec x 0 then -1 else if Rlt_dec 0 x then 1 else 0.

(** [Reg.reg_l2(w)] *)
Definition reg_l2 (w : mat) (kw : kwargs) : R * mat :=
  (vdot (flat w) (flat w), emap (Rmult 2) w).

(** [Reg.reg_l1(w)]: [g[g==0] = 0.5] overwrites the zero signs. *)
Definition reg_l1 (w : mat) (kw : kwargs) : R * mat :=
  let g := emap sign w in
  let g := emap (fun s => if Req_dec_T s 0 then 0.5 else s) g in
  (msum (emap Rabs w), g).

(** [Reg.reg_elastic(w, alpha=0.5)] *)
Definition reg_elastic (w : mat) (kw : kwargs) : R * mat :=
  let alpha1 := match alpha kw with Some a => a | None => 0.5 end in
  let alpha2 := 1 - alpha1 in
  let '(f1, g1) := reg_l1 w kw in
  let '(f2, g2) := reg_l2 w kw in
  (f1 * alpha1 + f2 * alpha2,
   ewise Rplus (emap (fun x => x * alpha1) g1) (emap (fun x => x * alpha2) g2)).

End Reg.

(** ** Python values, exceptions and n-dimensional arrays *)

Module Py.

(** the exceptions the modelled code raises *)
Inductive exn :=
| TypeError | ValueError | IndexError | AttributeError | NameError
| KeyError | ZeroDivisionError
| CollectiveMismatch. (* the workers disagree on the next collective *)

Inductive result (A : Type) :=
| Ok (a : A)
| Raise (e : exn).
Arguments Ok {A} a.
Arguments Raise {A} e.

Definition bind {A B : Type} (r : result A) (k : A -> result B) : result B :=
  match r with
  | Ok a => k a
  | Raise e => Raise e
  end.

(** an n-dimensional float array: its shape and its cells in row-major
    order *)
Record ndarray := { shape : list nat; data : vec }.

(** [np.prod(dims)] *)
Definition prod (dims : list nat) : nat := fold_right Nat.mul 1%nat dims.

(** a vector as a 1-d array *)
Definition of_vector (v : vec) : ndarray :=
  {| shape := [length v]; data := v |}.

(** the [dim] rows of a matrix of [K] columns as a 2-d array *)
Definition of_matrix (dim K : nat) (W : mat) : ndarray :=
  {| shape := [dim; K]; data := flat W |}.

(** [a.flatten()]: a 1-d copy in row-major order *)
Definition flatten (a : ndarray) : vec := data a.

(** [rows] consecutive chunks of [cols] cells *)
Fixpoint chunks (rows cols : nat) (v : vec) : mat :=
  match rows with
  | O => []
  | S r => firstn cols v :: chunks r cols (skipn cols v)
  end.

(** [v.reshape(rows, cols)] on a 1-d array; ValueError when the sizes
    differ. *)
Definition reshape (rows cols : nat) (v : vec) : result mat :=
  if (length v =? rows * cols)%nat then Ok (chunks rows cols v)
  else Raise ValueError.

(** [a.reshape((a.shape[0], np.prod(a.shape[1:])))]; [a.shape[0]] is an
    IndexError on a 0-d array. *)
Definition reshape_2d (a : ndarray) : result ndarray :=
  match shape a with
  | [] => Raise IndexError
  | n :: rest => Ok {| shape := [n; prod rest]; data := data a |}
  end.

(** [np.hstack(arrays)] on 1-d arrays: their concatenation; ValueError on
    an empty sequence. *)
Definition hstack (arrays : list vec) : result ndarray :=
  match arrays with
  | [] => Raise ValueError
  | _ => Ok (of_vector (concat arrays))
  end.

(** a 2-d array as the list of its rows; ValueError for any other number of
    dimensions *)
Definition matrix_of (a : ndarray) : result mat :=
  match shape a with
  | [n; d] => reshape n d (data a)
  | _ => Raise ValueError
  end.

(** [A.T] for [A] of [d] columns *)
Definition transpose (d : nat) (A : mat) : mat :=
  fold_right (zip_with cons) (repeat [] d) A.

(** An in-place binary operation [target op= operand] on 1-d arrays: the
    operand has the length of the target, or length 1 and is broadcast;
    anything else is a ValueError.  With [f _ s = s] this is the slice
    assignment [target[:] = operand]. *)
Definition inplace (f : R -> R -> R) (target operand : vec) : result vec :=
  if (length operand =? length target)%nat then Ok (zip_with f target operand)
  else
    match operand with
    | [x] => Ok (map (fun t => f t x) target)
    | _ => Raise ValueError
    end.

(** A binary operation [a op b] on 1-d arrays, either operand broadcast when
    it has length 1. *)
Definition broadcast2 (f : R -> R -> R) (a b : vec) : result vec :=
  if (length a =? length b)%nat then Ok (zip_with f a b)
  else
    match a, b with
    | _, [y] => Ok (map (fun x => f x y) a)
    | [x], _ => Ok (map (fun y => f x y) b)
    | _, _ => Raise ValueError
    end.

(** every result of a list of fallible computations, or the first error *)
Fixpoint all_ok {A : Type} (l : list (result A)) : result (list A) :=
  match l with
  | [] => Ok []
  | r :: l' =>
      match r, all_ok l' with
      | Ok a, Ok xs => Ok (a :: xs)
      | Raise e, _ => Raise e
      | _, Raise e => Raise e
      end
  end.

(** [A += b] for a 2-d array [A] and a 1-d array [b], broadcast over the
    rows *)
Definition add_to_rows (A : mat) (b : vec) : result mat :=
  all_ok (map (fun row => inplace Rplus row b) A).

(** an attribute that is still [None] where an array is needed *)
Definition array_of {A : Type} (buf : option A) : result A :=
  match buf with
  | Some a => Ok a
  | None => Raise TypeError
  end.

(** The Python objects that reach [param_init]. *)
Inductive object :=
| NoneObject
| Ndarray (a : ndarray)
| List (items : list ndarray)
| Tuple (items : list ndarray)
| Instance (class_name : String.string). (* an object of any other class *)

(** What the operator [is] compares: the identity of an object.  The classes
    are objects, and so is the function [numpy.array]. *)
Inductive identity :=
| class_NoneType
| class_ndarray
| class_list
| class_tuple
| class_named (class_name : String.string)
| function_np_array.

(** [type(x)]: always a class *)
Definition type (x : object) : identity :=
  match x with
  | NoneObject => class_NoneType
  | Ndarray _ => class_ndarray
  | List _ => class_list
  | Tuple _ => class_tuple
  | Instance c => class_named c
  end.

(** [a is b] *)
Definition is_ (a b : identity) : bool :=
  match a, b with
  | class_NoneType, class_NoneType => true
  | class_ndarray, class_ndarray => true
  | class_list, class_list => true
  | class_tuple, class_tuple => true
  | class_named c, class_named d => String.eqb c d
  | function_np_array, function_np_array => true
  | _, _ => false
  end.

(** [x is None] *)
Definition is_None (x : object) : bool :=
  match x with
  | NoneObject => true
  | _ => false
  end.

(** the items a [for p in params] visits *)
Definition items_of (x : object) : list ndarray :=
  match x with
  | List ps | Tuple ps => ps
  | _ => []
  end.

(** the names the module binds: [np.array] is numpy's array-construction
    function, [np.ndarray] would be the class of arrays *)
Definition np_array : identity := function_np_array.
Definition list_ : identity := class_list.
Definition tuple_ : identity := class_tuple.

End Py.

Import Py.

Declare Scope py_scope.
Delimit Scope py_scope with py.
Notation "x <- r ;; k" := (Py.bind r (fun x => k))
  (at level 61, r at next level, right associativity) : py_scope.
Notation "' p <- r ;; k" := (Py.bind r (fun p => k))
  (at level 61, p pattern, r at next level, right associativity) : py_scope.
Open Scope py_scope.

(** ** iceberk.mpi: the collective runtime, seen from one worker *)

Module Mpi.

(** Modelled from the spec: [iceberk.mpi] is not among the sources.  The spec
    gives its contract: "sum_reduce(value|buffer) -> reduced", "max_reduce",
    "broadcast(value, from=coordinator) -> value", "barrier()",
    "is_coordinator() -> bool", and "every collective call is a rendezvous
    point"; the test [testIsRoot] fixes [is_root()] as [RANK == 0].

    One worker is modelled.  What the other workers jointly bring to the
    next collective is a [message] in the worker's [inbox]: the sum (or the
    maximum) of their operands, or the buffer the coordinator broadcasts. *)
Inductive message :=
| PeerNumber (x : R)
| PeerIndex (z : Z)
| PeerBuffer (v : vec).

Record world := { rank : nat; inbox : list message }.

(** a computation that may raise and that takes part in collectives *)
Definition M (A : Type) : Type := world -> result (A * world).

Definition ret {A : Type} (a : A) : M A := fun w => Ok (a, w).

Definition bind {A B : Type} (c : M A) (k : A -> M B) : M B :=
  fun w =>
    match c w with
    | Ok (a, w') => k a w'
    | Raise e => Raise e
    end.

Definition lift {A : Type} (r : result A) : M A :=
  fun w =>
    match r with
    | Ok a => Ok (a, w)
    | Raise e => Raise e
    end.

Definition raise {A : Type} (e : exn) : M A := fun _ => Raise e.

(** the next message of the other workers *)
Definition receive : M message :=
  fun w =>
    match inbox w with
    | [] => Raise CollectiveMismatch
    | m :: rest => Ok (m, {| rank := rank w; inbox := rest |})
    end.

(** [mpi.is_root()] *)
Definition is_root : M bool := fun w => Ok ((rank w =? 0)%nat, w).

(** [mpi.barrier()] *)
Definition barrier : M unit := ret tt.

(** [mpi.COMM.allreduce(x)]: the sum over all workers *)
Definition allreduce (x : R) : M R :=
  bind receive (fun m =>
    match m with
    | PeerNumber others => ret (x + others)
    | _ => raise CollectiveMismatch
    end).

(** [mpi.COMM.allreduce(z, op=max)] on an integer *)
Definition allreduce_max (z : Z) : M Z :=
  bind receive (fun m =>
    match m with
    | PeerIndex others => ret (Z.max z others)
    | _ => raise CollectiveMismatch
    end).

(** [mpi.COMM.allreduce(x, op=max)] on a float *)
Definition allreduce_max_float (x : R) : M R :=
  bind receive (fun m =>
    match m with
    | PeerNumber others => ret (Rmax x others)
    | _ => raise CollectiveMismatch
    end).

(** [mpi.COMM.Allreduce(src, dst)]: the elementwise sum over all workers of
    the buffers [src] is written into [dst]; all buffers have one length. *)
Definition Allreduce (src dst : vec) : M vec :=
  bind receive (fun m =>
    match m with
    | PeerBuffer others =>
        if ((length src =? length dst) && (length others =? length src))%nat
        then ret (vadd src others)
        else raise CollectiveMismatch
    | _ => raise CollectiveMismatch
    end).

(** [mpi.COMM.Bcast(buf)]: the coordinator keeps its buffer, every other
    worker receives the coordinator's. *)
Definition Bcast (buf : vec) : M vec :=
  fun w =>
    if (rank w =? 0)%nat then Ok (buf, w)
    else
      bind receive (fun m =>
        match m with
        | PeerBuffer root_buf =>
            if (length root_buf =? length buf)%nat then ret root_buf
            else raise CollectiveMismatch
        | _ => raise CollectiveMismatch
        end) w.

End Mpi.

Import Mpi.

Declare Scope mpi_scope.
Delimit Scope mpi_scope with mpi.
Notation "x <~ c ;; k" := (Mpi.bind c (fun x => k))
  (at level 61, c at next level, right associativity) : mpi_scope.
Notation "' p <~ c ;; k" := (Mpi.bind c (fun p => k))
  (at level 61, p pattern, c at next level, right associativity) : mpi_scope.
Open Scope mpi_scope.

(** ** class SolverMC *)

Module SolverMC.

(** The label array [Y]: "either a vector of the labels (starting from 0),
    or a matrix whose values are -1 or 1".  A vector of labels is an integer
    array; any other label array is a float array of some shape. *)
Inductive labels :=
| IndexVector (y : list Z)
| FloatArray (a : ndarray).

(** [Y.shape] *)
Definition labels_shape (Y : labels) : list nat :=
  match Y with
  | IndexVector y => [length y]
  | FloatArray a => shape a
  end.

(** A loss function is called as [loss(Y, pred, weight)] or, when it has five
    positional arguments, as [loss(Y, pred, weight, gpred, cache)]; the
    latter writes the gradient into [gpred], which it returns, and may
    update [cache]. *)
Definition loss3 : Type := labels -> mat -> option vec -> result (R * mat).
Definition loss5 : Type :=
  labels -> mat -> option vec -> mat -> list mat ->
  result (R * mat * list mat).

Inductive loss_function :=
| ThreeArgs (f : loss3)
| FiveArgs (f : loss5).

(** [len(inspect.getargspec(loss)[0])] *)
Definition argcount (l : loss_function) : nat :=
  match l with
  | ThreeArgs _ => 3%nat
  | FiveArgs _ => 5%nat
  end.

Definition reg_function : Type := mat -> Reg.kwargs -> R * mat.

(** The attributes of a solver object.  [__init__] creates [_gamma], [loss],
    [reg], [_regargs] and the buffers, which start as [None]; the attributes
    that only [presolve] creates are present from the start here, with
    placeholder values that no modelled caller reads before [presolve] has
    run. *)
Record solver := {
  _gamma : R;
  loss : loss_function;
  reg : reg_function;
  _regargs : Reg.kwargs;
  _iter : nat;
  _X : ndarray;
  _Y : labels;
  _weight : option vec;
  _K : nat;
  _dim : nat;
  _num_data : R;
  _pred : option mat;
  _glocal : option vec;
  _g : option vec;
  _gpred : option mat;
  gpredcache : bool;
  _gpredcache : list mat
}.

(** [SolverMC(gamma, loss, reg, ..., regargs = ...)] *)
Definition init (gamma : R) (l : loss_function) (r : reg_function)
  (regargs : Reg.kwargs) : solver :=
  {| _gamma := gamma; loss := l; reg := r; _regargs := regargs;
     _iter := 0; _X := of_vector []; _Y := IndexVector [];
     _weight := None; _K := 0; _dim := 0; _num_data := 0;
     _pred := None; _glocal := None; _g := None; _gpred := None;
     gpredcache := false; _gpredcache := [] |}.

(** [SolverMC.flatten_params(params)] *)
Definition flatten_params (params : object) : result object :=
  if is_ (type params) np_array then Ok params
  else if is_ (type params) list_ || is_ (type params) tuple_ then
    a <- hstack (map flatten (items_of params)) ;;
    Ok (Ndarray a)
  else Raise TypeError.

(** [np.empty((n, K))]: contents unspecified in numpy, 0 here *)
Definition empty (n K : nat) : mat := repeat (repeat 0 K) n.

(** [buf.resize(n, K)] *)
Definition resize_to (n K : nat) (buf : mat) : mat :=
  refill (repeat K n) (flat buf).

(** [buf.resize(shape)] on a 1-d buffer *)
Definition resize_vec (len : nat) (buf : vec) : vec :=
  fst (refill_row len buf).

(** [np.empty((n, K))] when the buffer is still [None], [buf.resize(n, K)]
    afterwards *)
Definition fresh_or_resized (n K : nat) (buf : option mat) : mat :=
  match buf with
  | None => empty n K
  | Some old => resize_to n K old
  end.

(** [Y.max()] of an integer vector; ValueError when it is empty *)
Fixpoint index_max (y : list Z) : result Z :=
  match y with
  | [] => Raise ValueError
  | z :: y' =>
      match y' with
      | [] => Ok z
      | _ => m <- index_max y' ;; Ok (Z.max z m)
      end
  end.

(** an integer used as the dimension of an array; a negative one is a
    ValueError *)
Definition dimension (z : Z) : result nat :=
  if (z <? 0)%Z then Raise ValueError else Ok (Z.to_nat z).

(** the attribute [shape] of whatever [flatten_params] returned *)
Definition as_ndarray (x : object) : result ndarray :=
  match x with
  | Ndarray a => Ok a
  | _ => Raise AttributeError
  end.

(** The number of classes and the label array [presolve] settles on. *)
Definition classes_of (K : option nat) (Y : labels) : M (nat * labels) :=
  match K with
  | Some k => ret (k, Y)
  | None =>
      if (length (labels_shape Y) =? 1)%nat then
        match Y with
        | IndexVector y =>
            ymax <~ lift (index_max y) ;;
            m <~ allreduce_max ymax ;;
            k <~ lift (dimension (m + 1)) ;;
            ret (k, Y)
        | FloatArray a =>
            (* [self._K] becomes a float, which no array accepts as a
               dimension *)
            ymax <~ lift (match vmax (data a) with
                          | Some x => Ok x
                          | None => Raise ValueError
                          end) ;;
            _ <~ allreduce_max_float ymax ;;
            raise TypeError
        end
      else
        (* We treat Y as a two-dimensional matrix *)
        match Y with
        | IndexVector _ => raise IndexError
        | FloatArray a =>
            Y2 <~ lift (reshape_2d a) ;;
            ret (nth 1 (shape Y2) 0%nat, FloatArray Y2)
        end
  end.

(** [self.presolve(X, Y, weight, param_init, K)]: the flat initial
    parameters and the solver after the call. *)
Definition presolve (self : solver) (X : ndarray) (Y : labels)
  (weight : option vec) (param_init : object) (K : option nat)
  : M (vec * solver) :=
  X2 <~ lift (reshape_2d X) ;;
  ' (K, Y) <~ classes_of K Y ;;
  let n := nth 0 (shape X) 0%nat in
  num_data <~ match weight with
              | None => allreduce (INR n)
              | Some w => allreduce (vsum w)
              end ;;
  let dim := nth 1 (shape X2) 0%nat in
  let pred := fresh_or_resized n K (_pred self) in
  param_init <~ (if is_None param_init
                 then ret (repeat 0 (K * (dim + 1)))
                 else
                   (* the initialization is w and b *)
                   p <~ lift (flatten_params param_init) ;;
                   a <~ lift (as_ndarray p) ;;
                   ret (data a)) ;;
  (* gradient cache *)
  let len := length param_init in
  let glocal := match _glocal self with
                | None => repeat 0 len
                | Some old => resize_vec len old
                end in
  let g := match _glocal self, _g self with
           | None, _ => repeat 0 len
           | Some _, Some old => resize_vec len old
           | Some _, None => resize_vec len []
           end in
  let has_cache := (argcount (loss self) =? 5)%nat in
  let gpred := if has_cache
               then Some (fresh_or_resized n K (_gpred self))
               else _gpred self in
  (* just to make sure every node is on the same page *)
  param_init <~ Bcast param_init ;;
  ret (param_init,
       {| _gamma := _gamma self; loss := loss self; reg := reg self;
          _regargs := _regargs self;
          _iter := 0; _X := X2; _Y := Y; _weight := weight;
          _K := K; _dim := dim; _num_data := num_data;
          _pred := Some pred; _glocal := Some glocal; _g := Some g;
          _gpred := gpred; gpredcache := has_cache;
          _gpredcache := _gpredcache self |}).

(** [self.unflatten_params(wb)] with [self._K = K] and [self._dim = dim] *)
Definition unflatten_params (K dim : nat) (wb : vec) : result (mat * vec) :=
  w <- reshape dim K (firstn (K * dim) wb) ;;
  let b := skipn (K * dim) wb in
  Ok (w, b).

(** the matrix product into a buffer; a ValueError on mismatched shapes *)
Definition dot_into (n d K : nat) (A B buf : mat) : result mat :=
  match Mathutil.dot_out n d K A B buf with
  | Some P => Ok P
  | None => Raise ValueError
  end.

(** The solver with the buffers an evaluation has written. *)
Definition with_buffers (solver : solver) (pred : mat) (gpred : option mat)
  (cache : list mat) (glocal : vec) (g : option vec) : SolverMC.solver :=
  {| _gamma := _gamma solver; loss := loss solver; reg := reg solver;
     _regargs := _regargs solver; _iter := _iter solver;
     _X := _X solver; _Y := _Y solver; _weight := _weight solver;
     _K := _K solver; _dim := _dim solver; _num_data := _num_data solver;
     _pred := Some pred; _glocal := Some glocal; _g := g;
     _gpred := gpred; gpredcache := gpredcache solver;
     _gpredcache := cache |}.

(** What one evaluation has computed before the regularizer is looked at:
    [w], the local loss [flocal] and the local gradient [_glocal], both
    divided by the number of data, and the buffers. *)
Record evaluation := {
  ev_w : mat;
  ev_flocal : R;
  ev_glocal : vec;
  ev_pred : mat;
  ev_gpred : option mat;
  ev_cache : list mat
}.

(** [SolverMC.obj], from "obtain w and b" to "we should normalize them with
    the number of data". *)
Definition data_term (solver : solver) (wb : vec) : result evaluation :=
  (* obtain w and b *)
  let K := _K solver in
  let dim := _dim solver in
  w <- reshape dim K (firstn (K * dim) wb) ;;
  let b := skipn (K * dim) wb in
  (* pred is a matrix of size [num_datalocal, K] *)
  X <- matrix_of (_X solver) ;;
  let n := nth 0 (shape (_X solver)) 0%nat in
  pred <- array_of (_pred solver) ;;
  pred <- dot_into n dim K X w pred ;;
  pred <- add_to_rows pred b ;;
  (* compute the loss function *)
  ' (flocal, gpred, gpred_buffer, cache) <-
    (if gpredcache solver then
       match loss solver with
       | FiveArgs f =>
           buffer <- array_of (_gpred solver) ;;
           ' (flocal, gpred, cache) <-
             f (_Y solver) pred (_weight solver) buffer (_gpredcache solver) ;;
           Ok (flocal, gpred, Some gpred, cache)
       | ThreeArgs _ => Raise TypeError
       end
     else
       match loss solver with
       | ThreeArgs f =>
           ' (flocal, gpred) <- f (_Y solver) pred (_weight solver) ;;
           Ok (flocal, gpred, _gpred solver, _gpredcache solver)
       | FiveArgs _ => Raise TypeError
       end) ;;
  glocal <- array_of (_glocal solver) ;;
  out <- reshape dim K (firstn (K * dim) glocal) ;;
  gw <- dot_into dim n K (transpose dim X) gpred out ;;
  gb <- inplace (fun _ s => s) (skipn (K * dim) glocal) (colsum K gpred) ;;
  let glocal := flat gw ++ gb in
  (* we should normalize them with the number of data *)
  let flocal := flocal / _num_data solver in
  let glocal := map (fun x => x / _num_data solver) glocal in
  Ok {| ev_w := w; ev_flocal := flocal; ev_glocal := glocal;
        ev_pred := pred; ev_gpred := gpred_buffer; ev_cache := cache |}.

(** [SolverMC.obj], "add regularization term": what the worker for which
    [mpi.is_root()] holds adds to [flocal] and to [_glocal[:K*dim]]. *)
Definition add_regularization (solver : solver) (w : mat) (flocal : R)
  (glocal : vec) : result (R * vec) :=
  let K := _K solver in
  let dim := _dim solver in
  let '(freg, greg) := reg solver w (_regargs solver) in
  let flocal := flocal + _gamma solver * freg in
  head <- inplace Rplus (firstn (K * dim) glocal)
            (vscale (_gamma solver) (flat greg)) ;;
  Ok (flocal, head ++ skipn (K * dim) glocal).

(** [SolverMC.obj], up to the reduction: the local value and gradient the
    worker brings to [allreduce] and [Allreduce]. *)
Definition local_terms (is_root : bool) (solver : solver) (wb : vec)
  : result (R * vec * evaluation) :=
  ev <- data_term solver wb ;;
  (* add regularization term, but keep in mind that we have multiple nodes
     so we only carry it out on root to make sure we only added one
     regularization term *)
  ' (flocal, glocal) <-
    (if is_root
     then add_regularization solver (ev_w ev) (ev_flocal ev) (ev_glocal ev)
     else Ok (ev_flocal ev, ev_glocal ev)) ;;
  Ok (flocal, glocal, ev).

(** [SolverMC.obj(wb, solver)]: the pair [(f, solver._g)] and the solver
    after the call. *)
Definition obj (wb : vec) (solver : solver) : M (R * vec * SolverMC.solver) :=
  root <~ is_root ;;
  ' (flocal, glocal, ev) <~ lift (local_terms root solver wb) ;;
  (* do mpi reduction *)
  _ <~ barrier ;;
  f <~ allreduce flocal ;;
  g_buffer <~ lift (array_of (_g solver)) ;;
  g <~ Allreduce glocal g_buffer ;;
  ret (f, g,
       with_buffers solver (ev_pred ev) (ev_gpred ev) (ev_cache ev) glocal
         (Some g)).

(** [self.postsolve(lbfgs_result)] *)
Definition postsolve (self : solver) (lbfgs_result : vec * R)
  : result (mat * vec) :=
  let wb := fst lbfgs_result in
  unflatten_params (_K self) (_dim self) wb.

(** the solver with a new shard, as [Solver.solve] with [presolve=False] and
    the stochastic driver install it *)
Definition with_data (self : solver) (X : ndarray) (Y : labels)
  (weight : option vec) : solver :=
  {| _gamma := _gamma self; loss := loss self; reg := reg self;
     _regargs := _regargs self; _iter := _iter self;
     _X := X; _Y := Y; _weight := weight;
     _K := _K self; _dim := _dim self; _num_data := _num_data self;
     _pred := _pred self; _glocal := _glocal self; _g := _g self;
     _gpred := _gpred self; gpredcache := gpredcache self;
     _gpredcache := _gpredcache self |}.

Section Minimizer.

(** [scipy.optimize.fmin_l_bfgs_b], an external minimizer: it receives the
    objective and the initial point, calls the objective as often as it
    likes and returns the minimizer and the value there. *)
Variable _FMIN :
  (vec -> solver -> M (R * vec * solver)) -> vec -> solver ->
  M (vec * R * solver).

(** [Solver.solve(X, Y, weight, param_init, presolve, K)] *)
Definition solve (self : solver) (X : ndarray) (Y : labels)
  (weight : option vec) (param_init : object) (do_presolve : bool)
  (K : option nat) : M (mat * vec * solver) :=
  ' (param_init, self) <~
    (if do_presolve then presolve self X Y weight param_init K
     else
       (* if no presolve is needed, we simply replace the training data *)
       a <~ lift (as_ndarray param_init) ;;
       ret (data a, with_data self X Y weight)) ;;
  ' (wb, fmin, self) <~ _FMIN obj param_init self ;;
  wb <~ lift (postsolve self (wb, fmin)) ;;
  ret (wb, self).

End Minimizer.

End SolverMC.

(** ** class SolverStochastic *)

Module SolverStochastic.

Import SolverMC.

(** [np.finfo(np.float64).eps] *)
Definition float64_eps : R := / 2 ^ 52.

(** [self._args.get('callback', None)]: nothing, one function, or a list of
    functions; a callback receives [param], and what it returns is only
    logged. *)
Inductive callbacks :=
| NoCallback
| OneCallback (f : object -> result String.string)
| CallbackList (fs : list (object -> result String.string)).

(** the entries of [self._args] the driver reads; [None] is a missing key.
    [lbfgs] stands for [args.get('mode', 'lbfgs').lower() == 'lbfgs']. *)
Record args := {
  lbfgs : bool;
  base_lr : option R;
  eta : option R;
  minibatch : option nat;
  num_iter : option nat;
  callback : callbacks;
  dump_every : option nat;
  dump_name : option String.string
}.

(** the callbacks run on [param], in the order of the list *)
Definition run_callbacks (c : callbacks) (param : object) : result unit :=
  match c with
  | NoCallback => Ok tt
  | OneCallback f => _ <- f param ;; Ok tt
  | CallbackList fs => _ <- all_ok (map (fun f => f param) fs) ;; Ok tt
  end.

(** the record [mpi.root_savez] writes and [np.load(resume)] reads *)
Record checkpoint := {
  ck_iter : nat;
  ck_w : ndarray;
  ck_b : ndarray;
  ck_accum_grad : option (option vec);
  ck_base_lr : option R
}.

(** the local variable [accum_grad]: not yet bound, [None], or an array *)
Inductive variable :=
| Unbound
| NoneValue
| Array (v : vec).

(** the variables of [solve] that live across iterations *)
Record run := {
  solver_basic : solver;
  param : object;
  param_flat : option vec;
  accum_grad : variable;
  lr : option R;   (* [self._args['base_lr']] *)
  dumps : list checkpoint
}.

(** the value of a key of [self._args]; KeyError when it is missing *)
Definition key {A : Type} (entry : option A) : result A :=
  match entry with
  | Some a => Ok a
  | None => Raise KeyError
  end.

(** the value of a bound local variable *)
Definition bound {A : Type} (v : option A) : result A :=
  match v with
  | Some a => Ok a
  | None => Raise NameError
  end.

Definition array_value (v : variable) : result vec :=
  match v with
  | Array a => Ok a
  | NoneValue => Raise TypeError
  | Unbound => Raise NameError
  end.

(** [(w, b)] as the tuple object [solver_basic.unflatten_params] returns *)
Definition pair_object (dim K : nat) (wb : mat * vec) : object :=
  Tuple [of_matrix dim K (fst wb); of_vector (snd wb)].

Section Driver.

(** the sampler: what the call number [i] of [sampler.sample(minibatch)]
    returns on this worker *)
Variable sampler : nat -> nat -> ndarray * labels * option vec.

(** [mathutil.wolfe_line_search_adagrad(x, func, alpha, eta)], not among the
    sources: it evaluates the objective as often as it likes and returns a
    learning rate. *)
Variable wolfe_line_search_adagrad :
  vec -> (vec -> solver -> M (R * vec * solver)) -> solver -> R -> R ->
  M (R * solver).

Variable _FMIN :
  (vec -> solver -> M (R * vec * solver)) -> vec -> solver ->
  M (vec * R * solver).

Variable self_args : args.
Variable K : option nat.

(** what the Adagrad branch has ready when it evaluates the objective *)
Record prepared := {
  p_solver : solver;
  p_param_flat : vec;
  p_accum_grad : variable;
  p_lr : option R
}.

(** The Adagrad branch up to "Computing func and grad": [presolve], the
    accumulated gradient and the learning rate in the first iteration of the
    loop, the new minibatch in the later ones. *)
Definition adagrad_prepare (iter_start : nat) (st : run) (iter : nat)
  (batch : ndarray * labels * option vec) : M prepared :=
  let '(Xbatch, Ybatch, weightbatch) := batch in
  if (iter =? iter_start)%nat then
    ' (param_flat, solver) <~
      presolve (solver_basic st) Xbatch Ybatch weightbatch (param st) K ;;
    (* we need to build the cache in solver_basic as well as the
       accumulated gradients *)
    let accum_grad :=
      if (iter =? 0)%nat
      then Array (map (fun one =>
                         one * (match eta self_args with
                                | Some e => e
                                | None => 0
                                end) ^ 2 + float64_eps)
                      (map (fun _ => 1) param_flat))
      else accum_grad st in
    let search :=
      match lr st with
      | None => true
      | Some l => if Rlt_dec l 0 then true else false
      end in
    if search then
      (* do a line search to get the value *)
      ' (l, solver) <~
        wolfe_line_search_adagrad param_flat obj solver
          (Rabs (match lr st with Some l => l | None => 1 end))
          (match eta self_args with Some e => e | None => 0 end) ;;
      ret {| p_solver := solver; p_param_flat := param_flat;
             p_accum_grad := accum_grad; p_lr := Some l |}
    else
      ret {| p_solver := solver; p_param_flat := param_flat;
             p_accum_grad := accum_grad; p_lr := lr st |}
  else
    param_flat <~ lift (bound (param_flat st)) ;;
    ret {| p_solver := with_data (solver_basic st) Xbatch Ybatch weightbatch;
           p_param_flat := param_flat;
           p_accum_grad := accum_grad st; p_lr := lr st |}.

(** The Adagrad branch from "Computing func and grad" on: one evaluation,
    [accum_grad += g * g], the step against the gradient, and the new
    [param]. *)
Definition adagrad_update (st : run) (p : prepared) : M run :=
  ' (f0, g, solver) <~ obj (p_param_flat p) (p_solver p) ;;
  accum_grad <~ lift (array_value (p_accum_grad p)) ;;
  accum_grad <~ lift (inplace Rplus accum_grad (zip_with Rmult g g)) ;;
  (* we are MINIMIZING, so go against the gradient direction *)
  base_lr <~ lift (key (p_lr p)) ;;
  step <~ lift (broadcast2 Rdiv g (map sqrt accum_grad)) ;;
  let step := map (fun x => x * base_lr) step in
  param_flat <~ lift (inplace Rminus (p_param_flat p) step) ;;
  wb <~ lift (unflatten_params (_K solver) (_dim solver) param_flat) ;;
  ret {| solver_basic := solver;
         param := pair_object (_dim solver) (_K solver) wb;
         param_flat := Some param_flat;
         accum_grad := Array accum_grad;
         lr := p_lr p;
         dumps := dumps st |}.

(** the end of the loop body: the periodic dump, written by the
    coordinator *)
Definition dump (st : run) (iter : nat) : M run :=
  match dump_every self_args with
  | None => ret st
  | Some every =>
      if (every =? 0)%nat then raise ZeroDivisionError
      else if ((iter + 1) mod every =? 0)%nat then
        _ <~ lift (key (dump_name self_args)) ;;
        ' (w, b) <~ lift (match param st with
                          | Tuple [w; b] | List [w; b] => Ok (w, b)
                          | _ => Raise TypeError
                          end) ;;
        accum <~ lift (match accum_grad st with
                       | Unbound => Raise NameError
                       | NoneValue => Ok None
                       | Array a => Ok (Some a)
                       end) ;;
        base_lr <~ lift (key (lr st)) ;;
        root <~ is_root ;;
        let record :=
          {| ck_iter := iter; ck_w := w; ck_b := b;
             ck_accum_grad := Some accum; ck_base_lr := Some base_lr |} in
        ret {| solver_basic := solver_basic st; param := param st;
               param_flat := param_flat st; accum_grad := accum_grad st;
               lr := lr st;
               dumps := if root then dumps st ++ [record] else dumps st |}
      else ret st
  end.

(** one pass through the body of the [for] loop; the logging is left out *)
Definition iteration (iter_start : nat) (st : run) (iter : nat) : M run :=
  size <~ lift (key (minibatch self_args)) ;;
  let batch := sampler (iter - iter_start) size in
  st <~ (if lbfgs self_args then
           let '(Xbatch, Ybatch, weightbatch) := batch in
           ' (wb, solver) <~
             solve _FMIN (solver_basic st) Xbatch Ybatch weightbatch
               (param st) true K ;;
           ret {| solver_basic := solver;
                  param := pair_object (_dim solver) (_K solver) wb;
                  param_flat := param_flat st;
                  accum_grad := NoneValue;
                  lr := lr st;
                  dumps := dumps st |}
         else
           (* adagrad: compute gradient and update *)
           p <~ adagrad_prepare iter_start st iter batch ;;
           adagrad_update st p) ;;
  _ <~ lift (run_callbacks (callback self_args) (param st)) ;;
  dump st iter.

(** the [for] loop over the iterations [iters] *)
Fixpoint iterate (iter_start : nat) (st : run) (iters : list nat) : M run :=
  match iters with
  | [] => ret st
  | iter :: rest =>
      st <~ iteration iter_start st iter ;;
      iterate iter_start st rest
  end.

(** the variables of [solve] when the loop is entered *)
Definition start (basic : solver) (param_init : object)
  (resume : option checkpoint) (new_lr : option R) : nat * run :=
  match resume with
  | None =>
      (0%nat,
       {| solver_basic := basic; param := param_init; param_flat := None;
          accum_grad := Unbound; lr := base_lr self_args; dumps := [] |})
  | Some npzdata =>
      (* load data from *)
      let base_lr := match ck_base_lr npzdata with
                     | Some l => Some l
                     | None => base_lr self_args
                     end in
      let base_lr := match new_lr with
                     | Some l => Some l
                     | None => base_lr
                     end in
      ((ck_iter npzdata + 1)%nat,
       {| solver_basic := basic;
          param := Tuple [ck_w npzdata; ck_b npzdata];
          param_flat := None;
          accum_grad := match ck_accum_grad npzdata with
                        | None => Unbound
                        | Some None => NoneValue
                        | Some (Some a) => Array a
                        end;
          lr := base_lr; dumps := [] |})
  end.

(** [SolverStochastic.solve(sampler, param_init, K, resume, new_lr)] of a
    driver built with [gamma], [loss], [reg] and [regargs]: the returned
    [param] and the final variables. *)
Definition solve (gamma : R) (l : loss_function)
  (r : reg_function) (regargs : Reg.kwargs) (param_init : object)
  (resume : option checkpoint) (new_lr : option R) : M (object * run) :=
  (* even when we use Adagrad we create a solver_basic to deal with
     function value and gradient computation, etc. *)
  let solver_basic := init gamma l r regargs in
  let '(iter_start, st) := start solver_basic param_init resume new_lr in
  stop <~ lift (key (num_iter self_args)) ;;
  st <~ iterate iter_start st (seq iter_start (stop - iter_start)) ;;
  ret (param st, st).

End Driver.

End SolverStochastic.

(** ** The functions of the module itself *)

Module Classifier.

Import SolverMC.

(** [len(Y)]: the first entry of the shape; a 0-dimensional array has no
    length *)
Definition len (Y : labels) : result nat :=
  match labels_shape Y with
  | [] => Raise TypeError
  | n :: _ => Ok n
  end.

(** the column of an integer label that passes [(Y >= 0) & (Y < K)] *)
Definition column_of (K : Z) (yi : Z) : option nat :=
  if ((0 <=? yi) && (yi <? K))%Z then Some (Z.to_nat yi) else None.

(** the column [Y.astype(int)[i]] of the examples [valid] selects,
    [(Y >= 0) & (Y < K)]; no column for the others *)
Definition valid (K : Z) (Y : labels) : list (option nat) :=
  match Y with
  | IndexVector y => map (column_of K) y
  | FloatArray a =>
      map (fun yi => if Rle_dec 0 yi
                     then if Rlt_dec yi (IZR K)
                          then Some (Z.to_nat (Int_part yi)) else None
                     else None) (data a)
  end.

(** [Yout[i, j] = 1] in one row, for the column [j] of a selected example *)
Definition set_one (row : vec) (column : option nat) : vec :=
  match column with
  | Some j => update_at j (fun _ => 1) row
  | None => row
  end.

(** [to_one_of_k_coding(Y, fill, K)] *)
Definition to_one_of_k_coding (Y : labels) (fill : R) (K : option Z)
  : M mat :=
  if (1 <? length (labels_shape Y))%nat then
    (* The input Y should be a vector. *)
    raise ValueError
  else
    K <~ match K with
         | Some K => ret K
         | None =>
             match Y with
             | IndexVector y =>
                 ymax <~ lift (index_max y) ;;
                 m <~ allreduce_max ymax ;;
                 ret (m + 1)%Z
             | FloatArray a =>
                 (* [K] becomes a float, which no array accepts as a
                    dimension *)
                 ymax <~ lift (match vmax (data a) with
                               | Some x => Ok x
                               | None => Raise ValueError
                               end) ;;
                 _ <~ allreduce_max_float ymax ;;
                 raise TypeError
             end
         end ;;
    n <~ lift (len Y) ;;
    k <~ lift (dimension K) ;;
    let Yout := repeat (repeat (1 * fill) k) n in
    ret (zip_with set_one Yout (valid K Y)).

End Classifier.

(** ** class Evaluator: criteria for evaluation *)

Module Evaluator.

Import SolverMC.

(** [x.mean()] of the flat contents of an array: the sum over the size; nan,
    read as [None], when the array is empty *)
Definition mean (v : vec) : option R :=
  match v with
  | [] => None
  | _ => Some (vsum v / INR (length v))
  end.

(** [Evaluator.mse(Y, pred)] on two 2-d arrays of one shape, with the default
    [axis = None] *)
Definition mse (Y pred : mat) : option R :=
  mean (flat (emap (fun d => d ^ 2) (ewise Rminus Y pred))).

(** "two vectors containing discrete labels.  If either is a matrix instead
    of a vector, then argmax is used to get the discrete labels." *)
Inductive prediction :=
| Labels (y : list Z)
| Scores (A : mat).

(** [v.argmax()]: the first index of the maximum; ValueError ([None]) on an
    empty row *)
Fixpoint argmax (v : vec) : option nat :=
  match v with
  | [] => None
  | x :: v' =>
      match vmax v' with
      | None => Some 0%nat
      | Some m =>
          if Rle_dec m x then Some 0%nat else option_map S (argmax v')
      end
  end.

(** the labels of [if x.ndim == 2: x = x.argmax(axis=1)] *)
Definition discrete (x : prediction) : result (list Z) :=
  match x with
  | Labels y => Ok y
  | Scores A =>
      match all_some (map argmax A) with
      | Some js => Ok (map Z.of_nat js)
      | None => Raise ValueError
      end
  end.

(** [(Y == pred).sum()]: the number of positions where the labels agree;
    an array of length 1 is broadcast, other arrays of two lengths cannot
    be compared elementwise *)
Definition agreeing (Y pred : list Z) : result nat :=
  let count (m : list bool) := length (filter (fun b => b) m) in
  if (length Y =? length pred)%nat
  then Ok (count (map (fun yp => (fst yp =? snd yp)%Z) (combine Y pred)))
  else
    match Y, pred with
    | _, [p] => Ok (count (map (fun y => (y =? p)%Z) Y))
    | [y], _ => Ok (count (map (fun p => (y =? p)%Z) pred))
    | _, _ => Raise ValueError
    end.

(** [Evaluator.accuracy(Y, pred)] *)
Definition accuracy (Y pred : prediction) : M R :=
  pred <~ lift (discrete pred) ;;
  Y <~ lift (discrete Y) ;;
  local <~ lift (agreeing Y pred) ;;
  correct <~ allreduce (INR local) ;;
  num_data <~ allreduce (INR (length Y)) ;;
  if Req_dec_T num_data 0 then raise ZeroDivisionError
  else ret (correct / num_data).

(** [A[i] = f(A[i])] on the rows of a 2-d array *)
Fixpoint update_row (i : nat) (f : vec -> vec) (A : mat) : mat :=
  match A, i with
  | [], _ => []
  | row :: A', O => f row :: A'
  | row :: A', S i' => row :: update_row i' f A'
  end.

(** [table[y, p] += 1] on a table of shape [num_classes, num_classes];
    IndexError for an index outside [-num_classes, num_classes) *)
Definition count_one (num_classes : nat) (table : mat) (yp : Z * Z)
  : result mat :=
  match py_index num_classes (fst yp), py_index num_classes (snd yp) with
  | Some i, Some j =>
      Ok (update_row i (update_at j (fun x => x + 1)) table)
  | _, _ => Raise IndexError
  end.

(** [for y, p in zip(Y, pred): table[y, p] += 1] *)
Fixpoint count_all (num_classes : nat) (table : mat) (pairs : list (Z * Z))
  : result mat :=
  match pairs with
  | [] => Ok table
  | yp :: rest =>
      table <- count_one num_classes table yp ;;
      count_all num_classes table rest
  end.

(** [Evaluator.confusion_table(Y, pred)] *)
Definition confusion_table (Y pred : prediction) : result mat :=
  pred <- discrete pred ;;
  Y <- discrete Y ;;
  ymax <- index_max Y ;;
  num_classes <- dimension (ymax + 1) ;;
  let table := repeat (repeat 0 num_classes) num_classes in
  count_all num_classes table (combine Y pred).

End Evaluator.

(** ** All workers of a run *)

Module World.

Import SolverMC.

(** Modelled from the spec: the reduction of [iceberk.mpi] over a whole run,
    not among the sources.  "collectively sum-reduce the scalar across all
    workers to obtain the global objective value, and sum-reduce the gradient
    buffer to obtain the global gradient": every worker evaluates
    [SolverMC.obj] at the same [wb]; worker number [i] of the list has rank
    [i], and rank 0 is the coordinator. *)
Fixpoint local_terms_of (rank : nat) (workers : list solver) (wb : vec)
  : result (list (R * vec)) :=
  match workers with
  | [] => Ok []
  | s :: rest =>
      ' (flocal, glocal, _) <- local_terms (rank =? 0)%nat s wb ;;
      others <- local_terms_of (S rank) rest wb ;;
      Ok ((flocal, glocal) :: others)
  end.

(** the elementwise sum of buffers of one length *)
Definition sum_buffers (first : vec) (others : list vec) : vec :=
  fold_left vadd others first.

(** what [allreduce(flocal)] and [Allreduce(_glocal, _g)] leave on every
    worker *)
Definition objective (workers : list solver) (wb : vec) : result (R * vec) :=
  terms <- local_terms_of 0 workers wb ;;
  match terms with
  | [] => Raise CollectiveMismatch
  | (_, g0) :: rest =>
      if forallb (fun t => (length (snd t) =? length g0)%nat) rest
      then Ok (vsum (map fst terms), sum_buffers g0 (map snd rest))
      else Raise CollectiveMismatch
  end.

End World.

(** ** Loss functions as the solver calls them *)

Module Calls.

Import SolverMC.

(** A function of [Loss] called with the label array of the solver: the
    labels are a float matrix. *)
Definition of_loss (f : mat -> mat -> option vec -> R * mat) : loss_function :=
  ThreeArgs (fun Y pred weight =>
    match Y with
    | FloatArray a => Ym <- matrix_of a ;; Ok (f Ym pred weight)
    | IndexVector _ => Raise ValueError
    end).

(** the same for a function of [Loss2] *)
Definition of_loss2
  (f : mat -> mat -> option vec -> mat -> list mat -> R * mat * list mat)
  : loss_function :=
  FiveArgs (fun Y pred weight gpred cache =>
    match Y with
    | FloatArray a => Ym <- matrix_of a ;; Ok (f Ym pred weight gpred cache)
    | IndexVector _ => Raise ValueError
    end).

End Calls.

(** ** A small run: one example, one feature, one class *)

Module Demo.

Import SolverMC SolverStochastic.

Definition X1 : ndarray := {| shape := [1; 1]%nat; data := [1] |}.
Definition Y1 : labels := FloatArray {| shape := [1; 1]%nat; data := [1] |}.

(** a solver as [presolve] leaves it on the shard [(X1, Y1)], with the l2
    loss and the l2 regularizer *)
Definition worker (gamma : R) : solver :=
  {| _gamma := gamma; loss := Calls.of_loss Loss.loss_l2;
     reg := Reg.reg_l2; _regargs := {| Reg.alpha := None |};
     _iter := 0; _X := X1; _Y := Y1; _weight := None;
     _K := 1; _dim := 1; _num_data := 2;
     _pred := Some [[0]]; _glocal := Some [0; 0]; _g := Some [0; 0];
     _gpred := None; gpredcache := false; _gpredcache := [] |}.

(** every minibatch is the one example *)
Definition sampler (call size : nat) : ndarray * labels * option vec :=
  (X1, Y1, None).

(** a line search that settles on the learning rate 1 without evaluating the
    objective *)
Definition line_search (x : vec)
  (func : vec -> solver -> M (R * vec * solver)) (s : solver)
  (alpha eta : R) : M (R * solver) :=
  ret (1, s).

(** a minimizer that returns its initial point *)
Definition fmin (func : vec -> solver -> M (R * vec * solver)) (x : vec)
  (s : solver) : M (vec * R * solver) :=
  ret (x, 0, s).

Definition adagrad_args : args :=
  {| lbfgs := false; base_lr := None; eta := Some 1;
     minibatch := Some 1%nat; num_iter := Some 2%nat;
     callback := NoCallback; dump_every := None;
     dump_name := None |}.

(** the variables of [solve] on entry, without [resume] *)
Definition entry_state : run :=
  snd (start adagrad_args
         (init 0 (Calls.of_loss Loss.loss_l2) Reg.reg_l2
            {| Reg.alpha := None |})
         NoneObject None None).

(** what a second worker with an identical shard brings to the collectives
    of two iterations *)
Definition peer_messages : list message :=
  [PeerNumber 1;
   PeerNumber 0; PeerBuffer [0; 0];
   PeerNumber 0; PeerBuffer [0; 0]].

End Demo.

(** ** Index-wise reading of arrays, used to state what the spec says *)

Module Spec.

(** [sum_{i < n} g i] *)
Fixpoint sum_upto (n : nat) (g : nat -> R) : R :=
  match n with
  | O => 0
  | S m => sum_upto m g + g m
  end.

(** [sum_{i < n} sum_{j < K} g i j] *)
Definition sum_entries (n K : nat) (g : nat -> nat -> R) : R :=
  sum_upto n (fun i => sum_upto K (g i)).

(** the hinge margin of one label/prediction pair *)
Definition margin (y p : R) : R := Rmax 0 (1 - y * p).

(** what [gpred] and [cache] a call of a [Loss2] function leaves behind is
    dropped, its returned pair [(f, gpred)] is kept *)
Definition returned {S : Type} (r : R * mat * S) : R * mat := fst r.

(** the optional weight vector has one entry per example *)
Definition weight_ok (n : nat) (weight : option vec) : Prop :=
  match weight with
  | None => True
  | Some w => length w = n
  end.

(** an optional weight vector with one entry per example, none negative *)
Definition nonneg_weight (n : nat) (weight : option vec) : Prop :=
  match weight with
  | None => True
  | Some w => length w = n /\ Forall (fun x => 0 <= x) w
  end.

(** the predictions with the maximum of its row taken from every entry:
    the first statement of both multiclass losses *)
Definition centered (pred : mat) : option mat :=
  match rowmax pred with
  | None => None
  | Some mx => Some (ewise Rminus pred (col mx pred))
  end.

(** [v] with [r] added to its first [n] entries *)
Definition add_to_head (n : nat) (v r : vec) : vec :=
  zip_with Rplus (firstn n v) r ++ skipn n v.

(** the solver with another regularization strength and regularizer *)
Definition with_regularizer (gamma : R) (r : SolverMC.reg_function)
  (regargs : Reg.kwargs) (s : SolverMC.solver) : SolverMC.solver :=
  {| SolverMC._gamma := gamma; SolverMC.loss := SolverMC.loss s;
     SolverMC.reg := r; SolverMC._regargs := regargs;
     SolverMC._iter := SolverMC._iter s; SolverMC._X := SolverMC._X s;
     SolverMC._Y := SolverMC._Y s; SolverMC._weight := SolverMC._weight s;
     SolverMC._K := SolverMC._K s; SolverMC._dim := SolverMC._dim s;
     SolverMC._num_data := SolverMC._num_data s;
     SolverMC._pred := SolverMC._pred s;
     SolverMC._glocal := SolverMC._glocal s; SolverMC._g := SolverMC._g s;
     SolverMC._gpred := SolverMC._gpred s;
     SolverMC.gpredcache := SolverMC.gpredcache s;
     SolverMC._gpredcache := SolverMC._gpredcache s |}.

(** the solver built with another loss function, with the flag
    [gpredcache] and the gradient buffer [_gpred] as [presolve] leaves them
    for that loss *)
Definition with_loss (l : SolverMC.loss_function) (gpred : option mat)
  (s : SolverMC.solver) : SolverMC.solver :=
  {| SolverMC._gamma := SolverMC._gamma s; SolverMC.loss := l;
     SolverMC.reg := SolverMC.reg s;
     SolverMC._regargs := SolverMC._regargs s;
     SolverMC._iter := SolverMC._iter s; SolverMC._X := SolverMC._X s;
     SolverMC._Y := SolverMC._Y s; SolverMC._weight := SolverMC._weight s;
     SolverMC._K := SolverMC._K s; SolverMC._dim := SolverMC._dim s;
     SolverMC._num_data := SolverMC._num_data s;
     SolverMC._pred := SolverMC._pred s;
     SolverMC._glocal := SolverMC._glocal s; SolverMC._g := SolverMC._g s;
     SolverMC._gpred := gpred;
     SolverMC.gpredcache := (SolverMC.argcount l =? 5)%nat;
     SolverMC._gpredcache := SolverMC._gpredcache s |}.

(** what a call of [SolverMC.obj] returns, [(f, g)], and the messages it
    leaves; the solver it leaves is dropped *)
Definition outcome (r : result (R * vec * SolverMC.solver * world))
  : result (R * vec * world) :=
  match r with
  | Ok (f, g, _, w) => Ok (f, g, w)
  | Raise e => Raise e
  end.

(** Modelled from the spec: the line search of [iceberk.mathutil] ("a
    monotone-decreasing-objective search along the negative-gradient
    direction") is not among the sources.  It receives the objective
    [lambda x: SolverMC.obj(x, solver_basic)] and so reaches the solver only
    through [SolverMC.obj], which keeps the length of the gradient buffer
    [_g]; the solver it leaves has a gradient buffer of the same length. *)
Definition keeps_the_gradient_buffer
  (search : vec -> (vec -> SolverMC.solver -> M (R * vec * SolverMC.solver))
            -> SolverMC.solver -> R -> R -> M (R * SolverMC.solver))
  : Prop :=
  forall x s alpha eta w l s' w' gbuf,
    search x SolverMC.obj s alpha eta w = Ok (l, s', w') ->
    SolverMC._g s = Some gbuf ->
    exists gbuf',
      SolverMC._g s' = Some gbuf' /\ length gbuf' = length gbuf.

(** the variables of the Adagrad branch between two iterations: the flat
    parameter, the accumulated gradient and the gradient buffer of the
    solver have [len] entries, and the learning rate is set *)
Definition in_step (len : nat) (st : SolverStochastic.run) : Prop :=
  exists pf a gbuf base_lr,
    SolverStochastic.param_flat st = Some pf /\
    SolverStochastic.accum_grad st = SolverStochastic.Array a /\
    SolverMC._g (SolverStochastic.solver_basic st) = Some gbuf /\
    SolverStochastic.lr st = Some base_lr /\
    length pf = len /\ length a = len /\ length gbuf = len.

(** [a <= b] in every component *)
Definition below (a b : vec) : Prop :=
  length a = length b /\
  forall i, (i < length a)%nat -> nth i a 0 <= nth i b 0.

(** the data terms of all workers of a run *)
Definition data_terms (workers : list SolverMC.solver) (wb : vec)
  : result (list SolverMC.evaluation) :=
  all_ok (map (fun s => SolverMC.data_term s wb) workers).

End Spec.

(** ** Lemmas on the array primitives *)

Section ArrayFacts.

Lemma zip_with_length {A B C} (f : A -> B -> C) xs ys :
  length xs = length ys -> length (zip_with f xs ys) = length xs.
Proof.
  revert ys; induction xs as [|x xs IH]; intros [|y ys]; simpl; intros H;
    try discriminate; auto.
Qed.

Lemma nth_zip_with {A B C} (f : A -> B -> C) xs ys i da db dc :
  length xs = length ys -> (i < length xs)%nat ->
  nth i (zip_with f xs ys) dc = f (nth i xs da) (nth i ys db).
Proof.
  revert ys i; induction xs as [|x xs IH]; intros [|y ys] i; simpl;
    intros Hl Hi; try discriminate; try lia.
  destruct i; auto. apply IH; lia.
Qed.

Lemma has_shape_row n K A i :
  has_shape n K A -> (i < n)%nat -> length (nth i A []) = K.
Proof.
  intros [Hn HF] Hi. rewrite Forall_forall in HF. apply HF, nth_In. lia.
Qed.

Lemma has_shape_emap n K f A : has_shape n K A -> has_shape n K (emap f A).
Proof.
  intros [Hn HF]; split.
  - unfold emap. now rewrite length_map.
  - unfold emap. rewrite Forall_map. eapply Forall_impl; [|exact HF].
    simpl. intros r Hr. now rewrite length_map.
Qed.

Lemma has_shape_ewise n K f A B :
  has_shape n K A -> has_shape n K B -> has_shape n K (ewise f A B).
Proof.
  unfold has_shape, ewise.
  revert n B; induction A as [|a A IH]; intros n [|b B] [Hn HA] [Hm HB];
    simpl in *; subst; try discriminate.
  - split; auto.
  - inversion HA; inversion HB; subst.
    destruct (IH (length A) B) as [Hl HF]; [split; auto | split; auto; lia |].
    split; [now rewrite Hl|].
    constructor; auto. rewrite zip_with_length; congruence.
Qed.

Lemma entry_emap n K f A i j :
  has_shape n K A -> (i < n)%nat -> (j < K)%nat ->
  entry (emap f A) i j = f (entry A i j).
Proof.
  intros HA Hi Hj. unfold entry, emap.
  pose proof (has_shape_row _ _ _ _ HA Hi) as Hr. destruct HA as [Hn _].
  rewrite (nth_indep _ [] (map f [])) by (rewrite length_map; lia).
  rewrite map_nth.
  rewrite (nth_indep _ 0 (f 0)) by (rewrite length_map; lia).
  now rewrite map_nth.
Qed.

Lemma entry_ewise n K f A B i j :
  has_shape n K A -> has_shape n K B -> (i < n)%nat -> (j < K)%nat ->
  entry (ewise f A B) i j = f (entry A i j) (entry B i j).
Proof.
  intros HA HB Hi Hj. unfold entry, ewise.
  pose proof (has_shape_row _ _ _ _ HA Hi) as Ha.
  pose proof (has_shape_row _ _ _ _ HB Hi) as Hb.
  destruct HA as [Hn _], HB as [Hm _].
  rewrite (nth_zip_with _ _ _ _ [] []) by lia.
  apply nth_zip_with; lia.
Qed.

Lemma sum_upto_ext n g h :
  (forall i, (i < n)%nat -> g i = h i) -> Spec.sum_upto n g = Spec.sum_upto n h.
Proof.
  induction n as [|n IH]; simpl; intros H; auto.
  rewrite IH, H; auto.
Qed.

Lemma sum_upto_shift n g :
  Spec.sum_upto (S n) g = g O + Spec.sum_upto n (fun i => g (S i)).
Proof.
  induction n as [|n IH].
  - simpl. lra.
  - change (Spec.sum_upto (S (S n)) g) with (Spec.sum_upto (S n) g + g (S n)).
    rewrite IH. simpl. lra.
Qed.

Lemma vsum_sum_upto v :
  vsum v = Spec.sum_upto (length v) (fun i => nth i v 0).
Proof.
  induction v as [|x v IH].
  - reflexivity.
  - cbn [length]. rewrite sum_upto_shift. simpl. now rewrite IH.
Qed.

Lemma msum_sum_entries n K A :
  has_shape n K A -> msum A = Spec.sum_entries n K (entry A).
Proof.
  intros HA. unfold msum, Spec.sum_entries.
  rewrite vsum_sum_upto, length_map.
  pose proof HA as [Hn _]. rewrite Hn.
  apply sum_upto_ext. intros i Hi.
  rewrite (nth_indep _ 0 (vsum [])) by (rewrite length_map; lia).
  rewrite map_nth, vsum_sum_upto.
  now rewrite (has_shape_row n K A i HA Hi).
Qed.

End ArrayFacts.

(** ** Hinge loss *)

(** C4. For label and prediction arrays of one shape [n, K] (in particular for
    labels in {-1, 1}), [Loss.loss_hinge] with [weight=None] returns as [f] the
    sum over all entries of [max(0, 1 - Y*pred)], and a gradient of the same
    shape whose entry is 0 wherever that margin is [<= 0] and [-Y] wherever
    the margin is [> 0]. *)
Theorem loss_hinge_unweighted_spec (n K : nat) (Y pred : mat)
  (HY : has_shape n K Y) (HP : has_shape n K pred) :
  fst (Loss.loss_hinge Y pred None)
    = Spec.sum_entries n K
        (fun i j => Spec.margin (entry Y i j) (entry pred i j)) /\
  has_shape n K (snd (Loss.loss_hinge Y pred None)) /\
  forall i j, (i < n)%nat -> (j < K)%nat ->
    let m := Spec.margin (entry Y i j) (entry pred i j) in
    let gij := entry (snd (Loss.loss_hinge Y pred None)) i j in
    (m <= 0 -> gij = 0) /\ (m > 0 -> gij = - entry Y i j).
Proof.
  assert (HM : has_shape n K
                 (emap (Rmax 0) (emap (Rminus 1) (ewise Rmult Y pred)))).
  { auto using has_shape_emap, has_shape_ewise. }
  assert (Hent : forall i j, (i < n)%nat -> (j < K)%nat ->
            entry (emap (Rmax 0) (emap (Rminus 1) (ewise Rmult Y pred))) i j
            = Spec.margin (entry Y i j) (entry pred i j)).
  { intros i j Hi Hj.
    rewrite (entry_emap n K), (entry_emap n K), (entry_ewise n K);
      auto using has_shape_emap, has_shape_ewise. }
  cbn [Loss.loss_hinge fst snd]. split; [|split].
  - rewrite (msum_sum_entries n K) by exact HM.
    unfold Spec.sum_entries. apply sum_upto_ext. intros i Hi.
    apply sum_upto_ext. intros j Hj. auto.
  - auto using has_shape_emap, has_shape_ewise.
  - intros i j Hi Hj. cbv zeta.
    rewrite (entry_ewise n K), (entry_emap n K), (entry_emap n K), Hent;
      auto using has_shape_emap.
    unfold gt0.
    destruct (Rlt_dec 0 (Spec.margin (entry Y i j) (entry pred i j)));
      split; intros; lra.
Qed.

Lemma loss_hinge_unweighted_spec_witness :
  fst (Loss.loss_hinge [[1; -1]] [[2; 0]] None)
    = Spec.sum_entries 1 2
        (fun i j => Spec.margin (entry [[1; -1]] i j) (entry [[2; 0]] i j)) /\
  has_shape 1 2 (snd (Loss.loss_hinge [[1; -1]] [[2; 0]] None)) /\
  forall i j, (i < 1)%nat -> (j < 2)%nat ->
    let m := Spec.margin (entry [[1; -1]] i j) (entry [[2; 0]] i j) in
    let gij := entry (snd (Loss.loss_hinge [[1; -1]] [[2; 0]] None)) i j in
    (m <= 0 -> gij = 0) /\ (m > 0 -> gij = - entry [[1; -1]] i j).
Proof.
  apply (loss_hinge_unweighted_spec 1 2 [[1; -1]] [[2; 0]]);
    (split; [reflexivity | repeat constructor]).
Defined.

(** ** Shapes and entries of the remaining primitives *)

Section MoreArrayFacts.

Lemma zip_with_keep_right {A B} (xs : list A) (ys : list B) :
  length xs = length ys -> zip_with (fun _ s => s) xs ys = ys.
Proof.
  revert ys; induction xs as [|x xs IH]; intros [|y ys] H; simpl in *;
    try discriminate; auto.
  f_equal. apply IH. lia.
Qed.

Lemma assign_same_widths (buf src : mat) :
  map (@length R) buf = map (@length R) src -> assign buf src = src.
Proof.
  unfold assign.
  revert src; induction buf as [|b buf IH]; intros [|s src] H; simpl in *;
    try discriminate; auto.
  injection H as Hb Hrest. f_equal; auto using zip_with_keep_right.
Qed.

Lemma has_shape_widths n K (A : mat) :
  has_shape n K A -> map (@length R) A = repeat K n.
Proof.
  intros [Hn HF]. subst n. induction HF as [|r A Hr HF IH]; simpl; auto.
  now rewrite Hr, IH.
Qed.

Lemma assign_same_shape n K (buf src : mat) :
  has_shape n K buf -> has_shape n K src -> assign buf src = src.
Proof.
  intros Hb Hs. apply assign_same_widths.
  now rewrite (has_shape_widths n K buf), (has_shape_widths n K src).
Qed.

Lemma has_shape_col n K (w : vec) (A : mat) :
  has_shape n K A -> length w = n -> has_shape n K (col w A).
Proof.
  unfold has_shape, col.
  revert n w; induction A as [|a A IH]; intros n [|x w] [Hn HF] Hw;
    simpl in *; subst; try discriminate; auto.
  inversion HF; subst.
  destruct (IH (length A) w) as [Hl HF']; [split; auto | lia |].
  split; [now rewrite Hl|]. constructor; auto. now rewrite length_map.
Qed.

Lemma nth_map_const {A} (x d : R) (l : list A) j :
  (j < length l)%nat -> nth j (map (fun _ => x) l) d = x.
Proof.
  revert j; induction l as [|a l IH]; intros [|j] Hj; simpl in *;
    try lia; auto.
  apply IH. lia.
Qed.

Lemma entry_col n K (w : vec) (A : mat) i j :
  has_shape n K A -> length w = n -> (i < n)%nat -> (j < K)%nat ->
  entry (col w A) i j = nth i w 0.
Proof.
  unfold has_shape, col, entry.
  revert n w i; induction A as [|a A IH]; intros n [|x w] i [Hn HF] Hw Hi Hj;
    simpl in *; subst; try discriminate; try lia.
  inversion HF; subst. destruct i as [|i].
  - apply nth_map_const. lia.
  - apply (IH (length A)); auto; lia.
Qed.

Lemma mat_ext n K (A B : mat) :
  has_shape n K A -> has_shape n K B ->
  (forall i j, (i < n)%nat -> (j < K)%nat -> entry A i j = entry B i j) ->
  A = B.
Proof.
  intros HA HB H.
  apply (nth_ext _ _ [] []).
  - destruct HA, HB; congruence.
  - intros i Hi. destruct HA as [Hn HFA] eqn:EA. rewrite Hn in Hi.
    apply (nth_ext _ _ 0 0).
    + now rewrite (has_shape_row n K A i HA Hi), (has_shape_row n K B i HB Hi).
    + intros j Hj. rewrite (has_shape_row n K A i HA Hi) in Hj.
      apply (H i j Hi Hj).
Qed.

Lemma refill_row_length k data : length (fst (refill_row k data)) = k.
Proof.
  revert data; induction k as [|k IH]; intros data; simpl; auto.
  destruct data as [|x d]; [specialize (IH []) | specialize (IH d)];
    destruct (refill_row k _); simpl in *; lia.
Qed.

Lemma refill_widths ws data : map (@length R) (refill ws data) = ws.
Proof.
  revert data; induction ws as [|k ws IH]; intros data; simpl; auto.
  pose proof (refill_row_length k data) as Hk.
  destruct (refill_row k data) as [row rest]; simpl in *. now rewrite Hk, IH.
Qed.

(** After [cache[0].resize(pred.shape); prob = cache[0]; prob[:] = pred] the
    scratch array holds [pred], whatever the cache held before. *)
Lemma scratch_is_pred cache pred : Loss2.scratch cache pred = pred.
Proof.
  unfold Loss2.scratch, resize. apply assign_same_widths, refill_widths.
Qed.

Lemma all_some_length {A} (l : list (option A)) xs :
  all_some l = Some xs -> length xs = length l.
Proof.
  revert xs; induction l as [|[a|] l IH]; intros xs H; simpl in *;
    try discriminate.
  - injection H as <-. reflexivity.
  - destruct (all_some l) as [ys|]; try discriminate.
    injection H as <-. simpl. f_equal. auto.
Qed.

Lemma rowmax_length (A : mat) mx : rowmax A = Some mx -> length mx = length A.
Proof.
  unfold rowmax. intros H. apply all_some_length in H.
  now rewrite length_map in H.
Qed.

Lemma vsum_app u v : vsum (u ++ v) = vsum u + vsum v.
Proof.
  induction u as [|x u IH]; simpl; [lra|]. rewrite IH. lra.
Qed.

Lemma vsum_vadd u v :
  length u = length v -> vsum (vadd u v) = vsum u + vsum v.
Proof.
  unfold vadd.
  revert v; induction u as [|x u IH]; intros [|y v] H; simpl in *;
    try discriminate; [lra|].
  rewrite IH by lia. lra.
Qed.

Lemma vsum_vscale c v : vsum (vscale c v) = c * vsum v.
Proof.
  unfold vscale. induction v as [|x v IH]; simpl; [lra|]. rewrite IH. lra.
Qed.

Lemma vsum_zeros K : vsum (repeat 0 K) = 0.
Proof. induction K as [|K IH]; simpl; [|rewrite IH]; lra. Qed.

Lemma vecmat_length K (w : vec) (A : mat) :
  Forall (fun r => length r = K) A -> length (vecmat K w A) = K.
Proof.
  unfold vecmat.
  revert w; induction A as [|a A IH]; intros [|x w] HF; simpl;
    try apply repeat_length.
  inversion HF; subst. unfold vadd at 1. rewrite zip_with_length.
  - unfold vscale. now rewrite length_map.
  - unfold vscale. rewrite length_map. symmetry. now apply IH.
Qed.

Lemma vecmat_cons K x (w : vec) a (A : mat) :
  vecmat K (x :: w) (a :: A) = vadd (vscale x a) (vecmat K w A).
Proof. reflexivity. Qed.

Lemma vdot_cons x (u : vec) y (v : vec) :
  vdot (x :: u) (y :: v) = x * y + vdot u v.
Proof. reflexivity. Qed.

(** [np.dot(w, A).sum() = np.dot(w, A.sum(axis=1))] *)
Lemma vsum_vecmat n K (w : vec) (A : mat) :
  has_shape n K A -> length w = n ->
  vsum (vecmat K w A) = vdot w (rowsum A).
Proof.
  revert n w; induction A as [|a A IH]; intros n [|x w] [Hn HF] Hw;
    simpl in Hn, Hw; subst; try discriminate.
  - apply vsum_zeros.
  - inversion HF; subst.
    change (rowsum (a :: A)) with (vsum a :: rowsum A).
    rewrite vecmat_cons, vdot_cons, vsum_vadd, vsum_vscale.
    + rewrite (IH (length A) w); [reflexivity | split; auto | lia].
    + unfold vscale. rewrite length_map. symmetry. now apply vecmat_length.
Qed.

Lemma vdot_app a b c d :
  length a = length c -> vdot (a ++ b) (c ++ d) = vdot a c + vdot b d.
Proof.
  unfold vdot.
  revert c; induction a as [|x a IH]; intros [|y c] H; simpl in *;
    try discriminate; [lra|].
  rewrite IH by lia. lra.
Qed.

Lemma vdot_comm u v : vdot u v = vdot v u.
Proof.
  unfold vdot. revert v; induction u as [|x u IH]; intros [|y v]; simpl; auto.
  rewrite IH. lra.
Qed.

End MoreArrayFacts.

(** ** Loss2 computes what Loss computes *)

Create HintDb shape.

Lemma length_vscale c (w : vec) n : length w = n -> length (vscale c w) = n.
Proof. unfold vscale. now rewrite length_map. Qed.

Lemma length_map_R (f : R -> R) (w : vec) n :
  length w = n -> length (map f w) = n.
Proof. now rewrite length_map. Qed.

Lemma nth_map_R (f : R -> R) (w : vec) i :
  (i < length w)%nat -> nth i (map f w) 0 = f (nth i w 0).
Proof.
  intros Hi. rewrite (nth_indep _ 0 (f 0)) by (rewrite length_map; lia).
  apply map_nth.
Qed.

Lemma has_shape_ncols n K (A : mat) :
  has_shape n K A -> has_shape n (ncols A) A.
Proof.
  intros [Hn HF]. split; auto. destruct HF as [|r A Hr HF]; simpl; auto.
  constructor; auto. eapply Forall_impl; [|exact HF]. simpl; congruence.
Qed.

Lemma nth_vscale c (w : vec) i :
  (i < length w)%nat -> nth i (vscale c w) 0 = c * nth i w 0.
Proof. apply nth_map_R. Qed.

#[local] Hint Resolve has_shape_emap has_shape_ewise has_shape_col
  length_vscale length_map_R : shape.

Ltac entries n K :=
  repeat first
    [ rewrite (entry_ewise n K) by auto with shape
    | rewrite (entry_emap n K) by auto with shape
    | rewrite (entry_col n K) by auto with shape ].

Ltac by_entries n K :=
  apply (mat_ext n K); [auto 10 with shape | auto 10 with shape |];
  intros ?i ?j ?Hi ?Hj; entries n K.

Section Loss2VersusLoss.

Variables (n K : nat) (Y pred gpred : mat) (cache : list mat).
Hypothesis HY : has_shape n K Y.
Hypothesis HP : has_shape n K pred.
Hypothesis HG : has_shape n K gpred.

Lemma margin_into_is_margin :
  Loss2.margin_into Y pred gpred
  = emap (Rmax 0) (emap (Rminus 1) (ewise Rmult Y pred)).
Proof.
  unfold Loss2.margin_into. rewrite (assign_same_shape n K) by assumption.
  by_entries n K. unfold clip_0_inf. rewrite Rmax_comm. f_equal. lra.
Qed.

Lemma has_shape_margin :
  has_shape n K (emap (Rmax 0) (emap (Rminus 1) (ewise Rmult Y pred))).
Proof. auto with shape. Qed.

Lemma loss2_l2_returns (weight : option vec) :
  match weight with None => True | Some w => length w = n end ->
  Spec.returned (Loss2.loss_l2 Y pred weight gpred cache)
  = Loss.loss_l2 Y pred weight.
Proof.
  destruct weight as [w|]; intros Hw; unfold Spec.returned, Loss2.loss_l2,
    Loss.loss_l2; cbn [fst].
  - rewrite (assign_same_shape n K gpred pred) by assumption.
    rewrite (assign_same_shape n K _ pred) by auto with shape.
    f_equal. by_entries n K.
    rewrite nth_vscale by lia. lra.
  - rewrite (assign_same_shape n K) by assumption.
    f_equal. by_entries n K. lra.
Qed.

Lemma loss2_hinge_returns (weight : option vec) :
  match weight with None => True | Some w => length w = n end ->
  Spec.returned (Loss2.loss_hinge Y pred weight gpred cache)
  = Loss.loss_hinge Y pred weight.
Proof.
  pose proof has_shape_margin as HM.
  destruct weight as [w|]; intros Hw; unfold Spec.returned, Loss2.loss_hinge,
    Loss.loss_hinge; cbn [fst]; rewrite margin_into_is_margin;
    set (m := emap (Rmax 0) (emap (Rminus 1) (ewise Rmult Y pred))) in *;
    rewrite (assign_same_shape n K m) by auto with shape.
  - f_equal.
    + symmetry. apply (vsum_vecmat n); eauto using has_shape_ncols.
    + by_entries n K. rewrite nth_map_R by lia. lra.
  - f_equal. by_entries n K. lra.
Qed.

Lemma vdot_scaled_row x (a : vec) :
  vdot (zip_with Rmult (map (fun _ => x) a) a) a = vdot a a * x.
Proof.
  induction a as [|y a IH]; [unfold vdot; simpl; lra|].
  cbn [map zip_with]. rewrite !vdot_cons, IH. lra.
Qed.

Lemma weighted_square_sum (w : vec) (m : mat) :
  length w = length m ->
  vdot (flat (ewise Rmult (col w m) m)) (flat m) = vdot (inner1d m m) w.
Proof.
  revert w; induction m as [|a m IH]; intros [|x w] Hw; simpl in Hw;
    try discriminate; [reflexivity|].
  unfold flat, ewise, col, inner1d in *. cbn [zip_with concat].
  rewrite vdot_app, vdot_cons, vdot_scaled_row, IH by
    (try rewrite zip_with_length; rewrite ?length_map; lia).
  reflexivity.
Qed.

Lemma loss2_squared_hinge_returns (weight : option vec) :
  match weight with None => True | Some w => length w = n end ->
  Spec.returned (Loss2.loss_squared_hinge Y pred weight gpred cache)
  = Loss.loss_squared_hinge Y pred weight.
Proof.
  pose proof has_shape_margin as HM.
  destruct weight as [w|]; intros Hw; unfold Spec.returned,
    Loss2.loss_squared_hinge, Loss.loss_squared_hinge; cbn [fst];
    rewrite margin_into_is_margin;
    set (m := emap (Rmax 0) (emap (Rminus 1) (ewise Rmult Y pred))) in *.
  - f_equal.
    + symmetry. apply weighted_square_sum. destruct HM; congruence.
    + by_entries n K. rewrite nth_vscale by lia. lra.
  - f_equal. by_entries n K. lra.
Qed.

Lemma length_rowsum (A : mat) : length (rowsum A) = length A.
Proof. apply length_map. Qed.

Lemma loss2_multiclass_logistic_returns (weight : option vec) :
  option_map Spec.returned
    (Loss2.loss_multiclass_logistic Y pred weight gpred cache)
  = Loss.loss_multiclass_logistic Y pred weight.
Proof.
  unfold Loss2.loss_multiclass_logistic, Loss.loss_multiclass_logistic.
  rewrite scratch_is_pred.
  destruct (rowmax pred) as [mx|] eqn:Emx; [|reflexivity].
  apply rowmax_length in Emx.
  cbn [option_map Spec.returned fst]. unfold Loss2.softmax_into.
  set (e := emap Mathutil.exp (ewise Rminus pred (col mx pred))).
  assert (He : has_shape n K e).
  { subst e. destruct HP as [Hn _]. apply has_shape_emap, has_shape_ewise;
      auto. apply has_shape_col; auto. congruence. }
  rewrite (assign_same_shape n K); auto.
  apply has_shape_ewise; auto. apply has_shape_col; auto.
  rewrite length_rowsum. now destruct He.
Qed.

End Loss2VersusLoss.

(** C1. For labels, predictions and gradient buffer of one shape [n, K] and
    an optional weight vector of length [n], each of the four losses that
    exist in both classes (l2, hinge, squared hinge, multiclass logistic)
    returns from [Loss2] the same value [f] and the same gradient, written
    into [gpred], as from [Loss], whatever the buffer and the cache held
    before the call. *)
Theorem loss2_returns_what_loss_returns (n K : nat) (Y pred gpred : mat)
  (weight : option vec) (cache : list mat)
  (HY : has_shape n K Y) (HP : has_shape n K pred)
  (HG : has_shape n K gpred) (HW : Spec.weight_ok n weight) :
  Spec.returned (Loss2.loss_l2 Y pred weight gpred cache)
    = Loss.loss_l2 Y pred weight /\
  Spec.returned (Loss2.loss_hinge Y pred weight gpred cache)
    = Loss.loss_hinge Y pred weight /\
  Spec.returned (Loss2.loss_squared_hinge Y pred weight gpred cache)
    = Loss.loss_squared_hinge Y pred weight /\
  option_map Spec.returned
      (Loss2.loss_multiclass_logistic Y pred weight gpred cache)
    = Loss.loss_multiclass_logistic Y pred weight.
Proof.
  repeat split.
  - now apply (loss2_l2_returns n K).
  - now apply (loss2_hinge_returns n K).
  - now apply (loss2_squared_hinge_returns n K).
  - now apply (loss2_multiclass_logistic_returns n K).
Qed.

Lemma loss2_returns_what_loss_returns_witness :
  let Y := [[1; -1]; [-1; 1]] in
  let pred := [[2; 0]; [1; 3]] in
  let gpred := [[7; 7]; [7; 7]] in
  let weight := Some [1; 2] in
  let cache := @nil (list (list R)) in
  Spec.returned (Loss2.loss_l2 Y pred weight gpred cache)
    = Loss.loss_l2 Y pred weight /\
  Spec.returned (Loss2.loss_hinge Y pred weight gpred cache)
    = Loss.loss_hinge Y pred weight /\
  Spec.returned (Loss2.loss_squared_hinge Y pred weight gpred cache)
    = Loss.loss_squared_hinge Y pred weight /\
  option_map Spec.returned
      (Loss2.loss_multiclass_logistic Y pred weight gpred cache)
    = Loss.loss_multiclass_logistic Y pred weight.
Proof.
  apply (loss2_returns_what_loss_returns 2 2);
    try (split; [reflexivity | repeat constructor]); reflexivity.
Defined.

(** ** The multiclass logistic loss under a shift of the predictions *)

Section ShiftInvariance.

Lemma Rmax_shift x y c : Rmax (x + c) (y + c) = Rmax x y + c.
Proof.
  unfold Rmax. destruct (Rle_dec (x + c) (y + c)), (Rle_dec x y); lra.
Qed.

Lemma zip_plus_const (r : vec) c :
  zip_with Rplus r (map (fun _ => c) r) = map (fun x => x + c) r.
Proof. induction r as [|x r IH]; simpl; [|rewrite IH]; reflexivity. Qed.

Lemma vmax_shift (r : vec) c :
  vmax (map (fun x => x + c) r) = option_map (fun m => m + c) (vmax r).
Proof.
  induction r as [|x r IH]; [reflexivity|].
  cbn [map vmax]. rewrite IH. destruct (vmax r) as [m|]; cbn [option_map];
    [rewrite Rmax_shift|]; reflexivity.
Qed.

Lemma center_row_shift (r : vec) m c :
  zip_with Rminus (map (fun x => x + c) r)
    (map (fun _ => m + c) (map (fun x => x + c) r))
  = zip_with Rminus r (map (fun _ => m) r).
Proof.
  induction r as [|x r IH]; [reflexivity|].
  cbn [map zip_with]. rewrite IH. f_equal. lra.
Qed.

Lemma rowmax_cons (a : vec) (A : mat) :
  rowmax (a :: A)
  = match vmax a, rowmax A with
    | Some m, Some ms => Some (m :: ms)
    | _, _ => None
    end.
Proof. unfold rowmax. cbn [map all_some]. destruct (vmax a); reflexivity. Qed.

Lemma centered_shift_rows (pred : mat) (cs : vec) :
  length cs = length pred ->
  Spec.centered (ewise Rplus pred (col cs pred)) = Spec.centered pred.
Proof.
  unfold Spec.centered, ewise, col.
  revert cs; induction pred as [|r pred IH]; intros [|c cs] Hc;
    simpl in Hc; try discriminate; [reflexivity|].
  specialize (IH cs ltac:(lia)).
  cbn [zip_with]. rewrite zip_plus_const, !rowmax_cons, vmax_shift.
  destruct (vmax r) as [m|]; cbn [option_map]; [|reflexivity].
  destruct (rowmax (zip_with (zip_with Rplus) pred _)) as [ms'|],
    (rowmax pred) as [ms|]; try discriminate; [|reflexivity].
  injection IH as IH. cbn [zip_with]. now rewrite center_row_shift, IH.
Qed.

Lemma scalar_shift_as_rows (pred : mat) c :
  emap (fun p => p + c) pred
  = ewise Rplus pred (col (repeat c (length pred)) pred).
Proof.
  unfold emap, ewise, col. induction pred as [|r pred IH]; [reflexivity|].
  cbn [map length repeat zip_with]. now rewrite zip_plus_const, IH.
Qed.

Lemma multiclass_logistic_by_centered Y pred weight :
  Loss.loss_multiclass_logistic Y pred weight
  = match Spec.centered pred with
    | None => None
    | Some prob =>
        let prob := emap Mathutil.exp prob in
        let prob := ewise Rdiv prob (col (rowsum prob) prob) in
        Some (- vdot (flat (emap Mathutil.log prob)) (flat Y),
              ewise Rminus prob Y)
    end.
Proof.
  unfold Loss.loss_multiclass_logistic, Spec.centered.
  destruct (rowmax pred); reflexivity.
Qed.

Lemma multiclass_logistic_shift_rows Y pred weight (cs : vec) :
  length cs = length pred ->
  Loss.loss_multiclass_logistic Y (ewise Rplus pred (col cs pred)) weight
  = Loss.loss_multiclass_logistic Y pred weight.
Proof.
  intros Hc. rewrite !multiclass_logistic_by_centered.
  now rewrite centered_shift_rows.
Qed.

End ShiftInvariance.

(** C7. The loss value of [Loss.loss_multiclass_logistic] does not change
    when a constant [c] is added to every entry of [pred], nor when every row
    [i] of [pred] receives its own constant [cs[i]]; in the real-number
    reading this holds for every label array [Y], one-hot or not. *)
Theorem multiclass_logistic_shift_invariant (Y pred : mat)
  (weight : option vec) :
  (forall c : R,
     option_map fst
       (Loss.loss_multiclass_logistic Y (emap (fun p => p + c) pred) weight)
     = option_map fst (Loss.loss_multiclass_logistic Y pred weight)) /\
  (forall cs : vec, length cs = length pred ->
     option_map fst
       (Loss.loss_multiclass_logistic Y (ewise Rplus pred (col cs pred))
          weight)
     = option_map fst (Loss.loss_multiclass_logistic Y pred weight)).
Proof.
  split.
  - intros c. rewrite scalar_shift_as_rows.
    now rewrite multiclass_logistic_shift_rows by apply repeat_length.
  - intros cs Hc. now rewrite multiclass_logistic_shift_rows.
Qed.

(** C10. The three multiclass logistic losses never read their [weight]
    argument: any two weight arguments, [None] included, give the same
    result (value, gradient and, for [Loss2], cache), so per-example weights
    are not supported by these losses. *)
Theorem multiclass_logistic_ignores_weight (Y pred gpred : mat)
  (Yidx : list Z) (cache : list mat) (w1 w2 : option vec) :
  Loss.loss_multiclass_logistic Y pred w1
    = Loss.loss_multiclass_logistic Y pred w2 /\
  Loss2.loss_multiclass_logistic Y pred w1 gpred cache
    = Loss2.loss_multiclass_logistic Y pred w2 gpred cache /\
  Loss2.loss_multiclass_logistic_yvector Yidx pred w1 gpred cache
    = Loss2.loss_multiclass_logistic_yvector Yidx pred w2 gpred cache.
Proof. repeat split. Qed.

Lemma multiclass_logistic_shift_invariant_witness :
  option_map fst
    (Loss.loss_multiclass_logistic [[1; 0]; [0; 1]]
       (ewise Rplus [[2; 0]; [1; 3]] (col [5; -3] [[2; 0]; [1; 3]])) None)
  = option_map fst
      (Loss.loss_multiclass_logistic [[1; 0]; [0; 1]] [[2; 0]; [1; 3]] None).
Proof.
  apply (proj2 (multiclass_logistic_shift_invariant
                  [[1; 0]; [0; 1]] [[2; 0]; [1; 3]] None)).
  reflexivity.
Defined.

(** ** The L1 regularizer *)

(** C6. For a weight matrix [W] of shape [n, K], [Reg.reg_l1] returns the sum
    of the absolute values of the entries of [W] and a gradient of the same
    shape whose entry is 1 where [W] is positive, -1 where [W] is negative
    (the sign of [W]) and 0.5, not 0, where [W] is exactly 0. *)
Theorem reg_l1_spec (n K : nat) (W : mat) (kw : Reg.kwargs)
  (HW : has_shape n K W) :
  fst (Reg.reg_l1 W kw)
    = Spec.sum_entries n K (fun i j => Rabs (entry W i j)) /\
  has_shape n K (snd (Reg.reg_l1 W kw)) /\
  forall i j, (i < n)%nat -> (j < K)%nat ->
    let gij := entry (snd (Reg.reg_l1 W kw)) i j in
    (entry W i j = 0 -> gij = 0.5) /\
    (entry W i j <> 0 -> gij = Reg.sign (entry W i j)) /\
    (0 < entry W i j -> gij = 1) /\
    (entry W i j < 0 -> gij = -1).
Proof.
  cbn [Reg.reg_l1 fst snd]. split; [|split].
  - rewrite (msum_sum_entries n K) by auto with shape.
    unfold Spec.sum_entries. apply sum_upto_ext. intros i Hi.
    apply sum_upto_ext. intros j Hj. entries n K. reflexivity.
  - auto with shape.
  - intros i j Hi Hj. cbv zeta. entries n K. unfold Reg.sign.
    destruct (Rlt_dec (entry W i j) 0), (Rlt_dec 0 (entry W i j));
      match goal with |- context [Req_dec_T ?a ?b] =>
        destruct (Req_dec_T a b) end;
      repeat split; intros; lra.
Qed.

Lemma reg_l1_spec_witness :
  let W := [[0; 3]; [-2; 0]] in
  let kw := {| Reg.alpha := None |} in
  fst (Reg.reg_l1 W kw)
    = Spec.sum_entries 2 2 (fun i j => Rabs (entry W i j)) /\
  has_shape 2 2 (snd (Reg.reg_l1 W kw)) /\
  forall i j, (i < 2)%nat -> (j < 2)%nat ->
    let gij := entry (snd (Reg.reg_l1 W kw)) i j in
    (entry W i j = 0 -> gij = 0.5) /\
    (entry W i j <> 0 -> gij = Reg.sign (entry W i j)) /\
    (0 < entry W i j -> gij = 1) /\
    (entry W i j < 0 -> gij = -1).
Proof.
  apply (reg_l1_spec 2 2). split; [reflexivity | repeat constructor].
Defined.

(** ** Packing and unpacking the parameters *)

Section Params.

Lemma chunks_flat dim K (W : mat) :
  has_shape dim K W -> chunks dim K (flat W) = W.
Proof.
  unfold flat. revert dim; induction W as [|r W IH]; intros dim [Hn HF];
    simpl in Hn; subst dim; [reflexivity|].
  inversion HF as [|? ? Hr HF']; subst. cbn [chunks concat length].
  rewrite firstn_app, Nat.sub_diag, firstn_all, firstn_O, app_nil_r.
  rewrite skipn_app, Nat.sub_diag, skipn_all, skipn_O. cbn [app].
  f_equal. apply IH. split; auto.
Qed.

Lemma length_flat dim K (W : mat) :
  has_shape dim K W -> length (flat W) = (K * dim)%nat.
Proof.
  unfold flat. revert dim; induction W as [|r W IH]; intros dim [Hn HF];
    simpl in Hn; subst dim; cbn [concat length]; [lia|].
  inversion HF as [|? ? Hr HF']; subst.
  rewrite length_app, (IH (length W)) by (split; auto). lia.
Qed.

Lemma unflatten_of_flat dim K (W : mat) (b : vec) :
  has_shape dim K W ->
  SolverMC.unflatten_params K dim (flat W ++ b) = Ok (W, b).
Proof.
  intros HW. pose proof (length_flat dim K W HW) as HL.
  unfold SolverMC.unflatten_params, reshape.
  rewrite firstn_app, <- HL, Nat.sub_diag, firstn_all, firstn_O, app_nil_r.
  rewrite skipn_app, Nat.sub_diag, skipn_all, skipn_O. cbn [app].
  rewrite HL, (Nat.mul_comm K dim), Nat.eqb_refl. cbn [bind].
  now rewrite (chunks_flat dim K W HW).
Qed.

End Params.

(** C3. For a weight matrix [W] of shape [dim, K] and a bias [b] of length
    [K], [flatten_params((W, b))] (a tuple, or a list) is the flat array
    [W.flatten()] followed by [b], of length [K*(dim+1)], and
    [unflatten_params] with [_K = K] and [_dim = dim] gives back exactly
    [(W, b)]. *)
Theorem unflatten_flatten_params (dim K : nat) (W : mat) (b : vec)
  (HW : has_shape dim K W) (Hb : length b = K) :
  forall params,
    params = Tuple [of_matrix dim K W; of_vector b] \/
    params = List [of_matrix dim K W; of_vector b] ->
  exists wb : vec,
    SolverMC.flatten_params params = Ok (Ndarray (of_vector wb)) /\
    length wb = (K * (dim + 1))%nat /\
    SolverMC.unflatten_params K dim wb = Ok (W, b).
Proof.
  intros params Hp. exists (flat W ++ b).
  split; [|split].
  - destruct Hp; subst params; cbn; now rewrite app_nil_r.
  - rewrite length_app, (length_flat dim K W HW). lia.
  - now apply unflatten_of_flat.
Qed.

Lemma unflatten_flatten_params_witness :
  exists wb : vec,
    SolverMC.flatten_params
      (Tuple [of_matrix 2 3 [[1; 2; 3]; [4; 5; 6]]; of_vector [7; 8; 9]])
    = Ok (Ndarray (of_vector wb)) /\
    length wb = (3 * (2 + 1))%nat /\
    SolverMC.unflatten_params 3 2 wb
    = Ok ([[1; 2; 3]; [4; 5; 6]], [7; 8; 9]).
Proof.
  apply (unflatten_flatten_params 2 3 [[1; 2; 3]; [4; 5; 6]] [7; 8; 9]).
  - split; [reflexivity | repeat constructor].
  - reflexivity.
  - left; reflexivity.
Defined.

(** C9. [type(params) is np.array] compares a class with the function
    [numpy.array] and is false for every object, so
    [SolverMC.flatten_params] raises TypeError for every input whose type is
    neither [list] nor [tuple], every ndarray included, and never returns
    its argument unchanged. *)
Theorem flatten_params_rejects_arrays :
  (forall params, is_ (type params) np_array = false) /\
  (forall params,
     is_ (type params) list_ = false -> is_ (type params) tuple_ = false ->
     SolverMC.flatten_params params = Raise TypeError) /\
  (forall a, SolverMC.flatten_params (Ndarray a) = Raise TypeError) /\
  (forall params, SolverMC.flatten_params params <> Ok params).
Proof.
  assert (H : forall params, is_ (type params) np_array = false)
    by (intros []; reflexivity).
  split; [|split; [|split]].
  - exact H.
  - intros params Hl Ht. unfold SolverMC.flatten_params.
    now rewrite H, Hl, Ht.
  - intros a. reflexivity.
  - intros params. unfold SolverMC.flatten_params. rewrite H.
    destruct params as [|a|ps|ps|c]; cbn; try discriminate;
      destruct (map flatten ps); cbn; discriminate.
Qed.

Lemma flatten_params_rejects_arrays_witness :
  SolverMC.flatten_params (Instance "dict"%string) = Raise TypeError.
Proof.
  apply (proj1 (proj2 flatten_params_rejects_arrays)); reflexivity.
Defined.

(** ** presolve and the shape of the labels *)

Section Presolve.

Import SolverMC.

Lemma classes_of_many_dimensions (a : ndarray) (w : world) :
  (2 <= length (shape a))%nat ->
  classes_of None (FloatArray a) w
  = Ok ((prod (tl (shape a)),
         FloatArray {| shape := [hd 0%nat (shape a); prod (tl (shape a))];
                       data := data a |}), w).
Proof.
  intros H. unfold classes_of. cbn [labels_shape].
  destruct (shape a) as [|n [|k rest]] eqn:E; cbn [length] in H; try lia.
  cbn [length Nat.eqb]. unfold reshape_2d. rewrite E. reflexivity.
Qed.

Lemma classes_of_zero_dimensions (a : ndarray) (w : world) :
  shape a = [] -> classes_of None (FloatArray a) w = Raise IndexError.
Proof.
  intros E. unfold classes_of. cbn [labels_shape]. rewrite E.
  cbn [length Nat.eqb]. unfold reshape_2d. rewrite E. reflexivity.
Qed.

End Presolve.

(** C8, as the code has it.  Called with [K=None], [SolverMC.presolve] does
    not reject a label array of three or more dimensions: a float label
    array of two or more dimensions is reshaped to
    [(Y.shape[0], prod(Y.shape[1:]))] and [K] becomes [prod(Y.shape[1:])];
    on the coordinator, with no initial parameters and the other workers'
    example count in the inbox, the call returns.  Determining [K] fails on
    a zero-dimensional label array (IndexError). *)
Theorem presolve_flattens_trailing_label_dimensions :
  (forall self X a weight others rest,
     shape X <> [] -> (2 <= length (shape a))%nat ->
     exists param_init solver,
       SolverMC.presolve self X (SolverMC.FloatArray a) weight NoneObject None
         {| rank := 0; inbox := PeerNumber others :: rest |}
       = Ok (param_init, solver, {| rank := 0; inbox := rest |}) /\
       SolverMC._K solver = prod (tl (shape a)) /\
       SolverMC._Y solver
       = SolverMC.FloatArray
           {| shape := [hd 0%nat (shape a); prod (tl (shape a))];
              data := data a |} /\
       length param_init
       = (SolverMC._K solver * (SolverMC._dim solver + 1))%nat) /\
  (forall self X a weight param_init w,
     shape X <> [] -> shape a = [] ->
     SolverMC.presolve self X (SolverMC.FloatArray a) weight param_init None w
     = Raise IndexError).
Proof.
  split.
  - intros self X a weight others rest HX Ha.
    unfold SolverMC.presolve.
    destruct (shape X) as [|n restX] eqn:EX; [congruence|].
    unfold reshape_2d at 1. rewrite EX.
    unfold Mpi.bind at 1. cbn [lift].
    unfold Mpi.bind at 1. rewrite classes_of_many_dimensions by assumption.
    destruct weight as [wv|]; cbn; do 2 eexists;
      (split; [reflexivity|]); cbn; repeat split; auto using repeat_length.
  - intros self X a weight param_init w HX Ha.
    unfold SolverMC.presolve.
    destruct (shape X) as [|n restX] eqn:EX; [congruence|].
    unfold reshape_2d at 1. rewrite EX.
    unfold Mpi.bind at 1. cbn [lift].
    unfold Mpi.bind at 1. now rewrite classes_of_zero_dimensions.
Qed.

Lemma presolve_flattens_trailing_label_dimensions_witness :
  exists param_init solver,
    SolverMC.presolve
      (SolverMC.init 1 (Calls.of_loss Loss.loss_hinge) Reg.reg_l2
         {| Reg.alpha := None |})
      {| shape := [2; 3]%nat; data := [1; 2; 3; 4; 5; 6] |}
      (SolverMC.FloatArray
         {| shape := [2; 2; 2]%nat;
            data := [1; -1; -1; 1; -1; 1; 1; -1] |})
      None NoneObject None
      {| rank := 0; inbox := [PeerNumber 0] |}
    = Ok (param_init, solver, {| rank := 0; inbox := [] |}) /\
    SolverMC._K solver = 4%nat /\
    SolverMC._Y solver
    = SolverMC.FloatArray
        {| shape := [2; 4]%nat; data := [1; -1; -1; 1; -1; 1; 1; -1] |} /\
    length param_init
    = (SolverMC._K solver * (SolverMC._dim solver + 1))%nat.
Proof.
  apply (proj1 presolve_flattens_trailing_label_dimensions
           _ {| shape := [2; 3]%nat; data := [1; 2; 3; 4; 5; 6] |}
           {| shape := [2; 2; 2]%nat;
              data := [1; -1; -1; 1; -1; 1; 1; -1] |}).
  - discriminate.
  - cbn. lia.
Defined.

(** C8 as the spec states it fails: a three-dimensional label array and
    [K=None] do not make [presolve] raise. *)
Lemma presolve_accepts_three_dimensional_labels :
  let Y := {| shape := [2; 2; 2]%nat;
              data := [1; -1; -1; 1; -1; 1; 1; -1] |} in
  length (shape Y) = 3%nat /\
  ~ (exists e,
       SolverMC.presolve
         (SolverMC.init 1 (Calls.of_loss Loss.loss_hinge) Reg.reg_l2
            {| Reg.alpha := None |})
         {| shape := [2; 3]%nat; data := [1; 2; 3; 4; 5; 6] |}
         (SolverMC.FloatArray Y) None NoneObject None
         {| rank := 0; inbox := [PeerNumber 0] |}
       = Raise e).
Proof.
  split; [reflexivity|]. intros [e He].
  destruct (proj1 presolve_flattens_trailing_label_dimensions
              (SolverMC.init 1 (Calls.of_loss Loss.loss_hinge) Reg.reg_l2
                 {| Reg.alpha := None |})
              {| shape := [2; 3]%nat; data := [1; 2; 3; 4; 5; 6] |}
              {| shape := [2; 2; 2]%nat;
                 data := [1; -1; -1; 1; -1; 1; 1; -1] |}
              None 0 [] ltac:(discriminate) ltac:(cbn; lia))
    as (p & s & Hok & _).
  rewrite Hok in He. discriminate.
Qed.

(** ** The regularizer in the distributed objective *)

Section Regularization.

Import SolverMC.

(** a step of a computation in the exception monad has returned *)
Ltac bind_ok H :=
  match type of H with
  | Py.bind ?r _ = Ok _ =>
      let E := fresh "E" in
      destruct r eqn:E; cbn [Py.bind] in H; [|discriminate H]
  | (let (_, _) := ?p in _) = Ok _ => destruct p
  end.

Lemma dot_into_shape n d K A B buf P :
  dot_into n d K A B buf = Ok P -> has_shape n K P.
Proof.
  unfold dot_into, Mathutil.dot_out.
  destruct (_ && _) eqn:E; [|discriminate].
  intros H; injection H as <-.
  repeat (apply andb_true_iff in E; destruct E as [E ?]).
  unfold Mathutil.dot. split.
  - rewrite length_map. now apply Nat.eqb_eq.
  - rewrite Forall_map. apply Forall_forall. intros a _.
    apply vecmat_length. apply Forall_forall. intros r Hr.
    match goal with H : forallb _ B = true |- _ =>
      rewrite forallb_forall in H; apply H in Hr end.
    now apply Nat.eqb_eq.
Qed.

Lemma inplace_length f target operand v :
  inplace f target operand = Ok v -> length v = length target.
Proof.
  unfold inplace. destruct (length operand =? length target)%nat eqn:E.
  - intros H; injection H as <-. apply Nat.eqb_eq in E.
    now rewrite zip_with_length.
  - destruct operand as [|x [|y operand]]; try discriminate.
    intros H; injection H as <-. apply length_map.
Qed.

(** the gradient of the data term has its [K * dim] weight entries *)
Lemma data_term_head solver wb ev :
  data_term solver wb = Ok ev ->
  length (firstn (_K solver * _dim solver) (ev_glocal ev))
  = (_K solver * _dim solver)%nat.
Proof.
  unfold data_term. intros H.
  repeat bind_ok H.
  match goal with
  | E : dot_into (_dim solver) _ (_K solver) _ _ _ = Ok ?gw |- _ =>
      apply dot_into_shape in E;
      pose proof (length_flat _ _ _ E) as HL
  end.
  injection H as <-. cbn [ev_glocal].
  rewrite length_firstn, length_map, length_app, HL. lia.
Qed.

Lemma data_term_without_regularizer solver wb gamma r regargs :
  data_term (Spec.with_regularizer gamma r regargs solver) wb
  = data_term solver wb.
Proof. reflexivity. Qed.

Lemma local_terms_off_root solver wb :
  local_terms false solver wb
  = (ev <- data_term solver wb ;; Ok (ev_flocal ev, ev_glocal ev, ev)).
Proof.
  unfold local_terms. destruct (data_term solver wb); reflexivity.
Qed.

Lemma local_terms_on_root solver wb ev :
  data_term solver wb = Ok ev ->
  has_shape (_dim solver) (_K solver)
    (snd (reg solver (ev_w ev) (_regargs solver))) ->
  local_terms true solver wb
  = Ok (ev_flocal ev
        + _gamma solver * fst (reg solver (ev_w ev) (_regargs solver)),
        Spec.add_to_head (_K solver * _dim solver) (ev_glocal ev)
          (vscale (_gamma solver)
             (flat (snd (reg solver (ev_w ev) (_regargs solver))))),
        ev).
Proof.
  intros Hev Hreg. unfold local_terms. rewrite Hev. cbn [Py.bind].
  unfold add_regularization.
  destruct (reg solver (ev_w ev) (_regargs solver)) as [freg greg].
  cbn [fst snd] in *. unfold inplace.
  rewrite (length_vscale _ _ (_K solver * _dim solver))
    by now apply length_flat.
  rewrite (data_term_head solver wb ev Hev), Nat.eqb_refl. reflexivity.
Qed.

Lemma zip_with_app {A B C} (f : A -> B -> C) a b c d :
  length a = length c ->
  zip_with f (a ++ b) (c ++ d) = zip_with f a c ++ zip_with f b d.
Proof.
  revert c; induction a as [|x a IH]; intros [|y c] H; simpl in *;
    try discriminate; auto.
  f_equal. apply IH. lia.
Qed.

Lemma zip_with_swap (a r c : vec) :
  zip_with Rplus (zip_with Rplus a r) c
  = zip_with Rplus (zip_with Rplus a c) r.
Proof.
  revert r c; induction a as [|x a IH]; intros [|y r] [|z c]; simpl; auto.
  f_equal; [lra | apply IH].
Qed.

Lemma firstn_zip_with {A B C} (f : A -> B -> C) n a b :
  firstn n (zip_with f a b) = zip_with f (firstn n a) (firstn n b).
Proof.
  revert a b; induction n as [|n IH]; intros [|x a] [|y b]; simpl; auto.
  now rewrite IH.
Qed.

Lemma skipn_zip_with {A B C} (f : A -> B -> C) n a b :
  skipn n (zip_with f a b) = zip_with f (skipn n a) (skipn n b).
Proof.
  revert a b; induction n as [|n IH]; intros [|x a] [|y b]; simpl; auto.
  destruct (skipn n a); reflexivity.
Qed.

Lemma vadd_add_to_head n (v r u : vec) :
  length u = length v -> length r = length (firstn n v) ->
  vadd (Spec.add_to_head n v r) u = Spec.add_to_head n (vadd v u) r.
Proof.
  intros Hu Hr. unfold Spec.add_to_head, vadd.
  rewrite firstn_zip_with, skipn_zip_with.
  rewrite <- (firstn_skipn n u) at 1.
  rewrite zip_with_app.
  - now rewrite zip_with_swap.
  - rewrite zip_with_length by congruence. rewrite !length_firstn. lia.
Qed.

Lemma length_add_to_head n (v r : vec) :
  length r = length (firstn n v) ->
  length (Spec.add_to_head n v r) = length v.
Proof.
  intros Hr. unfold Spec.add_to_head.
  rewrite length_app, zip_with_length, length_firstn, length_skipn by congruence.
  lia.
Qed.

Lemma sum_buffers_add_to_head n (v r : vec) (others : list vec) :
  Forall (fun u => length u = length v) others ->
  length r = length (firstn n v) ->
  World.sum_buffers (Spec.add_to_head n v r) others
  = Spec.add_to_head n (World.sum_buffers v others) r.
Proof.
  unfold World.sum_buffers.
  revert v; induction others as [|u others IH]; intros v HF Hr;
    [reflexivity|].
  inversion HF as [|? ? Hu HF']; subst. cbn [fold_left].
  rewrite vadd_add_to_head by assumption.
  assert (Hv : length (vadd v u) = length v)
    by (unfold vadd; rewrite zip_with_length; congruence).
  apply IH.
  - eapply Forall_impl; [|exact HF']. simpl. congruence.
  - rewrite Hr, !length_firstn. lia.
Qed.

Lemma local_terms_of_peers rank (others : list solver) wb evs :
  Spec.data_terms others wb = Ok evs ->
  World.local_terms_of (S rank) others wb
  = Ok (map (fun ev => (ev_flocal ev, ev_glocal ev)) evs).
Proof.
  unfold Spec.data_terms.
  revert rank evs; induction others as [|s others IH]; intros rank evs H.
  - injection H as <-. reflexivity.
  - cbn [map all_ok] in H. cbn [World.local_terms_of Nat.eqb].
    rewrite local_terms_off_root.
    destruct (data_term s wb) as [ev|e]; [|discriminate].
    destruct (all_ok (map (fun s0 => data_term s0 wb) others)) as [evs'|e];
      [|discriminate].
    injection H as <-. cbn [Py.bind]. now rewrite (IH (S rank) evs').
Qed.

Lemma obj_reduces_local_terms wb solver r pf pg rest flocal glocal ev gbuf :
  local_terms (r =? 0)%nat solver wb = Ok (flocal, glocal, ev) ->
  _g solver = Some gbuf ->
  length glocal = length gbuf -> length pg = length glocal ->
  obj wb solver {| rank := r; inbox := PeerNumber pf :: PeerBuffer pg :: rest |}
  = Ok (flocal + pf, vadd glocal pg,
        with_buffers solver (ev_pred ev) (ev_gpred ev) (ev_cache ev) glocal
          (Some (vadd glocal pg)),
        {| rank := r; inbox := rest |}).
Proof.
  intros Hl Hg H1 H2. unfold obj, Mpi.bind, is_root. cbn [rank].
  rewrite Hl. cbn. rewrite Hg. cbn.
  apply Nat.eqb_eq in H1, H2. now rewrite H1, H2.
Qed.

End Regularization.

(** C2. In [SolverMC.obj] the term [gamma * Reg(W)] enters the local
    objective exactly on the worker for which [mpi.is_root()] holds.
    - On any other worker the local value and gradient are the data term
      alone, and do not change when [gamma] or the regularizer change.
    - On the coordinator the local value is the data term plus
      [gamma * freg], and the first [K*dim] entries of the local gradient
      receive [gamma * greg.ravel()], for a regularizer whose gradient has
      the shape of [w].
    - [obj] hands these local terms to the sum reductions.
    - Summed over the coordinator and any list of other workers, the global
      value is the sum of the data terms plus [gamma * freg] once, and the
      global gradient is the sum of the data gradients with
      [gamma * greg.ravel()] added once to its first [K*dim] entries. *)
Theorem regularization_added_once_by_root :
  (forall solver wb,
     SolverMC.local_terms false solver wb
     = (ev <- SolverMC.data_term solver wb ;;
        Ok (SolverMC.ev_flocal ev, SolverMC.ev_glocal ev, ev))) /\
  (forall solver wb gamma r regargs,
     SolverMC.local_terms false
       (Spec.with_regularizer gamma r regargs solver) wb
     = SolverMC.local_terms false solver wb) /\
  (forall solver wb ev,
     SolverMC.data_term solver wb = Ok ev ->
     has_shape (SolverMC._dim solver) (SolverMC._K solver)
       (snd (SolverMC.reg solver (SolverMC.ev_w ev)
               (SolverMC._regargs solver))) ->
     SolverMC.local_terms true solver wb
     = Ok (SolverMC.ev_flocal ev
           + SolverMC._gamma solver
             * fst (SolverMC.reg solver (SolverMC.ev_w ev)
                      (SolverMC._regargs solver)),
           Spec.add_to_head (SolverMC._K solver * SolverMC._dim solver)
             (SolverMC.ev_glocal ev)
             (vscale (SolverMC._gamma solver)
                (flat (snd (SolverMC.reg solver (SolverMC.ev_w ev)
                              (SolverMC._regargs solver))))),
           ev)) /\
  (forall wb solver r pf pg rest flocal glocal ev gbuf,
     SolverMC.local_terms (r =? 0)%nat solver wb = Ok (flocal, glocal, ev) ->
     SolverMC._g solver = Some gbuf ->
     length glocal = length gbuf -> length pg = length glocal ->
     exists solver',
       SolverMC.obj wb solver
         {| rank := r; inbox := PeerNumber pf :: PeerBuffer pg :: rest |}
       = Ok (flocal + pf, vadd glocal pg, solver',
             {| rank := r; inbox := rest |})) /\
  (forall root others wb ev evs,
     SolverMC.data_term root wb = Ok ev ->
     Spec.data_terms others wb = Ok evs ->
     Forall (fun e => length (SolverMC.ev_glocal e)
                      = length (SolverMC.ev_glocal ev)) evs ->
     has_shape (SolverMC._dim root) (SolverMC._K root)
       (snd (SolverMC.reg root (SolverMC.ev_w ev)
               (SolverMC._regargs root))) ->
     World.objective (root :: others) wb
     = Ok (SolverMC.ev_flocal ev + vsum (map SolverMC.ev_flocal evs)
           + SolverMC._gamma root
             * fst (SolverMC.reg root (SolverMC.ev_w ev)
                      (SolverMC._regargs root)),
           Spec.add_to_head (SolverMC._K root * SolverMC._dim root)
             (World.sum_buffers (SolverMC.ev_glocal ev)
                (map SolverMC.ev_glocal evs))
             (vscale (SolverMC._gamma root)
                (flat (snd (SolverMC.reg root (SolverMC.ev_w ev)
                              (SolverMC._regargs root))))))).
Proof.
  split; [exact local_terms_off_root|].
  split; [reflexivity|].
  split; [exact local_terms_on_root|].
  split.
  - intros wb solver r pf pg rest flocal glocal ev gbuf Hl Hg H1 H2.
    eexists. exact (obj_reduces_local_terms wb solver r pf pg rest flocal
                      glocal ev gbuf Hl Hg H1 H2).
  - intros root others wb ev evs Hev Hevs Hlen Hreg.
    pose proof (data_term_head root wb ev Hev) as Hhead.
    assert (Hr : length (vscale (SolverMC._gamma root)
                   (flat (snd (SolverMC.reg root (SolverMC.ev_w ev)
                                 (SolverMC._regargs root)))))
                 = length (firstn (SolverMC._K root * SolverMC._dim root)
                             (SolverMC.ev_glocal ev))).
    { rewrite Hhead. apply length_vscale. now apply length_flat. }
    unfold World.objective. cbn [World.local_terms_of Nat.eqb].
    rewrite (local_terms_on_root root wb ev Hev Hreg). cbn [Py.bind].
    rewrite (local_terms_of_peers 0 others wb evs Hevs). cbn [Py.bind].
    rewrite length_add_to_head by exact Hr.
    replace (forallb _ _) with true.
    + f_equal. f_equal.
      * cbn [map fst]. rewrite map_map. cbn [fst].
        change (map (fun x => SolverMC.ev_flocal x) evs)
          with (map SolverMC.ev_flocal evs).
        change (vsum (?x :: ?v)) with (x + vsum v). lra.
      * rewrite map_map. cbn [snd].
        apply sum_buffers_add_to_head; [|exact Hr].
        now rewrite Forall_map.
    + symmetry. apply forallb_forall. intros t Ht.
      apply in_map_iff in Ht. destruct Ht as (e & <- & He).
      rewrite Forall_forall in Hlen. cbn [snd]. apply Nat.eqb_eq. auto.
Qed.

(** ** Adagrad: the accumulated gradient *)

Section Adagrad.

Import SolverMC SolverStochastic.

Variable sampler : nat -> nat -> ndarray * labels * option vec.
Variable wolfe_line_search_adagrad :
  vec -> (vec -> solver -> M (R * vec * solver)) -> solver -> R -> R ->
  M (R * solver).
Variable _FMIN :
  (vec -> solver -> M (R * vec * solver)) -> vec -> solver ->
  M (vec * R * solver).
Variable self_args : args.
Variable K : option nat.

Let prepare := adagrad_prepare wolfe_line_search_adagrad self_args K.
Let step := iteration sampler wolfe_line_search_adagrad _FMIN self_args K.
Let loop := iterate sampler wolfe_line_search_adagrad _FMIN self_args K.

(** the [eta] of the arguments, 0 when it is missing *)
Let eta0 : R := match eta self_args with Some e => e | None => 0 end.

(** a step of a computation with collectives has returned *)
Ltac mbind_ok H :=
  match type of H with
  | Mpi.bind ?c _ ?w = Ok _ =>
      let E := fresh "E" in
      unfold Mpi.bind at 1 in H;
      destruct (c w) as [[? ?]|] eqn:E; [|discriminate H]
  | (let (_, _) := ?p in _) _ = Ok _ => destruct p
  | (let (_, _) := ?p in _) = Ok _ => destruct p
  end.

Ltac lift_ok E :=
  match type of E with
  | lift ?r _ = Ok _ =>
      unfold lift in E;
      let E' := fresh "E" in
      destruct r eqn:E'; [injection E as <- <-|discriminate E]
  end.

Lemma below_refl a : Spec.below a a.
Proof. split; auto. intros; lra. Qed.

Lemma below_trans a b c : Spec.below a b -> Spec.below b c -> Spec.below a c.
Proof.
  intros [Hab H1] [Hbc H2]. split; [congruence|].
  intros i Hi. specialize (H1 i Hi). specialize (H2 i ltac:(lia)). lra.
Qed.

Lemma squares_nonnegative (g : vec) :
  Forall (fun x => 0 <= x) (zip_with Rmult g g).
Proof.
  induction g as [|x g IH]; simpl; constructor; auto. nra.
Qed.

(** [accum_grad += g * g] leaves no component smaller *)
Lemma accumulate_below (a g a' : vec) :
  inplace Rplus a (zip_with Rmult g g) = Ok a' -> Spec.below a a'.
Proof.
  pose proof (squares_nonnegative g) as Hsq.
  intros H. pose proof (inplace_length _ _ _ _ H) as Hlen.
  split; [congruence|]. intros i Hi. unfold inplace in H.
  destruct (length (zip_with Rmult g g) =? length a)%nat eqn:E.
  - injection H as <-. apply Nat.eqb_eq in E.
    rewrite (nth_zip_with Rplus a _ i 0 0 0) by lia.
    rewrite Forall_forall in Hsq.
    assert (0 <= nth i (zip_with Rmult g g) 0) by (apply Hsq, nth_In; lia).
    lra.
  - destruct (zip_with Rmult g g) as [|x [|y sq]]; try discriminate.
    injection H as <-. inversion Hsq; subst.
    rewrite (nth_map_R (fun t => t + x)) by lia. lra.
Qed.

Lemma initial_accumulator (pf : vec) :
  map (fun one => one * eta0 ^ 2 + float64_eps) (map (fun _ => 1) pf)
  = repeat (eta0 ^ 2 + float64_eps) (length pf).
Proof.
  induction pf as [|x pf IH]; [reflexivity|].
  cbn [map length repeat]. rewrite IH. f_equal. lra.
Qed.

(** In the first iteration of a run from iteration 0 the accumulated
    gradient is [eta^2 + eps] in every component. *)
Lemma prepare_initializes st batch w p w' :
  prepare 0%nat st 0%nat batch w = Ok (p, w') ->
  p_accum_grad p
  = Array (repeat (eta0 ^ 2 + float64_eps) (length (p_param_flat p))).
Proof.
  unfold prepare, adagrad_prepare. destruct batch as [[X Y] wt].
  cbn [Nat.eqb]. fold eta0. intros H.
  mbind_ok H. mbind_ok H.
  destruct (match lr st with
            | Some l => if Rlt_dec l 0 then true else false
            | None => true
            end).
  - mbind_ok H. mbind_ok H. injection H as <- <-.
    cbn [p_accum_grad p_param_flat]. now rewrite initial_accumulator.
  - injection H as <- <-.
    cbn [p_accum_grad p_param_flat]. now rewrite initial_accumulator.
Qed.

(** One evaluation and update of the Adagrad branch: the gradient [g] is
    what [SolverMC.obj] returns at the current parameters, its square is
    added to the accumulated gradient, and the parameters move by
    [g / sqrt(accum_grad) * base_lr] against it. *)
Lemma update_accumulates st p w st' w' :
  adagrad_update st p w = Ok (st', w') ->
  exists f0 g solver w1 a a' base_lr pf',
    obj (p_param_flat p) (p_solver p) w = Ok (f0, g, solver, w1) /\
    p_accum_grad p = Array a /\ accum_grad st' = Array a' /\
    p_lr p = Some base_lr /\ param_flat st' = Some pf' /\
    Spec.below a a' /\
    (length g = length a ->
     a' = zip_with Rplus a (zip_with Rmult g g)) /\
    (length g = length a -> length (p_param_flat p) = length a ->
     pf' = zip_with Rminus (p_param_flat p)
             (map (fun x => x * base_lr) (zip_with Rdiv g (map sqrt a')))).
Proof.
  unfold adagrad_update. intros H.
  mbind_ok H. mbind_ok H. mbind_ok H.
  mbind_ok H. lift_ok E0.
  mbind_ok H. lift_ok E0.
  mbind_ok H. lift_ok E0.
  mbind_ok H. lift_ok E0.
  mbind_ok H. lift_ok E0.
  mbind_ok H. lift_ok E0.
  injection H as <- <-.
  destruct (p_accum_grad p) as [| |acc] eqn:Ea; try discriminate.
  destruct (p_lr p) as [base_lr|] eqn:El; try discriminate.
  cbn [array_value key] in *.
  repeat match goal with
         | H : Ok _ = Ok _ |- _ => injection H as <-
         end.
  match goal with
  | E : obj _ _ _ = Ok (?f0, ?g, ?s, ?w1),
    Ha : inplace Rplus acc _ = Ok ?a',
    Hs : broadcast2 Rdiv _ _ = Ok ?sv,
    Hp : inplace Rminus _ _ = Ok ?pf' |- _ =>
      exists f0, g, s, w1, acc, a', base_lr, pf';
      pose proof (inplace_length _ _ _ _ Ha) as Hlen;
      cbn [accum_grad param_flat];
      repeat (split; [reflexivity|]);
      split; [eapply accumulate_below; exact Ha|];
      split
  end.
  - intros Hg.
    match goal with
    | H : inplace Rplus acc _ = Ok _ |- _ =>
        unfold inplace in H; rewrite zip_with_length in H by reflexivity;
        rewrite Hg, Nat.eqb_refl in H; now injection H as <-
    end.
  - intros Hg Hp.
    match goal with
    | H : broadcast2 Rdiv _ _ = Ok _ |- _ =>
        unfold broadcast2 in H;
        rewrite length_map, Hlen, Hg, Nat.eqb_refl in H;
        injection H as <-
    end.
    match goal with
    | H : inplace Rminus _ _ = Ok _ |- _ =>
        unfold inplace in H;
        rewrite length_map, zip_with_length, Hg, Hp, Nat.eqb_refl in H
          by (rewrite length_map; congruence);
        now injection H as <-
    end.
Qed.

Lemma dump_keeps_accumulator st iter w st' w' :
  dump self_args st iter w = Ok (st', w') -> accum_grad st' = accum_grad st.
Proof.
  unfold dump. destruct (dump_every self_args) as [every|].
  - destruct (every =? 0)%nat; [discriminate|].
    destruct ((iter + 1) mod every =? 0)%nat.
    + intros H. repeat mbind_ok H. now injection H as <- <-.
    + intros H. now injection H as <- <-.
  - intros H. now injection H as <- <-.
Qed.

Hypothesis adagrad_mode : lbfgs self_args = false.

(** what the loop body leaves of an Adagrad iteration *)
Lemma step_is_update iter_start st iter w st' w' :
  step iter_start st iter w = Ok (st', w') ->
  exists size p w1 st1 w2,
    minibatch self_args = Some size /\
    prepare iter_start st iter (sampler (iter - iter_start) size) w
    = Ok (p, w1) /\
    adagrad_update st p w1 = Ok (st1, w2) /\
    accum_grad st' = accum_grad st1.
Proof.
  unfold step, iteration. rewrite adagrad_mode. intros H.
  destruct (minibatch self_args) as [size|]; [|discriminate].
  unfold Mpi.bind at 1 in H. cbn [key lift] in H.
  mbind_ok H. mbind_ok E.
  mbind_ok H.
  do 5 eexists. split; [reflexivity|]. split; [exact E0|]. split; [exact E|].
  eapply dump_keeps_accumulator; eassumption.
Qed.

Lemma first_iteration_accumulates st w st' w' :
  step 0%nat st 0%nat w = Ok (st', w') ->
  exists a',
    accum_grad st' = Array a' /\
    Spec.below (repeat (eta0 ^ 2 + float64_eps) (length a')) a'.
Proof.
  intros H. apply step_is_update in H.
  destruct H as (size & p & w1 & st1 & w2 & _ & Hp & Hu & Hacc).
  apply prepare_initializes in Hp.
  apply update_accumulates in Hu.
  destruct Hu as (f0 & g & solver & w3 & a & a' & l & pf' & _ & Ha & Ha'
                  & _ & _ & Hbelow & _).
  rewrite Hp in Ha. injection Ha as Ha. subst a.
  exists a'. split; [congruence|].
  pose proof Hbelow as [Hlen _]. rewrite repeat_length in Hlen.
  now rewrite <- Hlen.
Qed.

Lemma later_iteration_accumulates st i w st' w' :
  step 0%nat st (S i) w = Ok (st', w') ->
  exists a a',
    accum_grad st = Array a /\ accum_grad st' = Array a' /\
    Spec.below a a'.
Proof.
  intros H. apply step_is_update in H.
  destruct H as (size & p & w1 & st1 & w2 & _ & Hp & Hu & Hacc).
  unfold prepare, adagrad_prepare in Hp.
  destruct (sampler (S i - 0) size) as [[X Y] wt]. cbn [Nat.eqb] in Hp.
  mbind_ok Hp. injection Hp as <- <-.
  apply update_accumulates in Hu.
  destruct Hu as (f0 & g & solver & w3 & a & a' & rate & pf' & _ & Ha & Ha'
                  & _ & _ & Hbelow & _).
  cbn [p_accum_grad] in Ha. exists a, a'. repeat split; try congruence;
    apply Hbelow.
Qed.

Lemma later_iterations_accumulate k : forall i st w st' w' a,
  accum_grad st = Array a ->
  loop 0%nat st (seq (S i) k) w = Ok (st', w') ->
  exists a', accum_grad st' = Array a' /\ Spec.below a a'.
Proof.
  induction k as [|k IH]; intros i st w st' w' a Ha H.
  - injection H as <- <-. exists a. split; [assumption | apply below_refl].
  - cbn [seq] in H. unfold loop in H. cbn [iterate] in H.
    mbind_ok H. fold step in E. fold loop in H.
    apply later_iteration_accumulates in E.
    destruct E as (a0 & a1 & Ha0 & Ha1 & H01).
    rewrite Ha in Ha0. injection Ha0 as <-.
    destruct (IH (S i) _ _ _ _ a1 Ha1 H) as (a' & Ha' & H1').
    exists a'. split; [assumption|]. eapply below_trans; eassumption.
Qed.

Lemma nth_repeat_below (c d : R) m i :
  (i < m)%nat -> nth i (repeat c m) d = c.
Proof.
  revert i; induction m as [|m IH]; intros [|i] Hi; simpl; try lia; auto.
  apply IH. lia.
Qed.

Lemma run_from_zero_accumulates n k st0 w st_n w_n st_m w_m :
  loop 0%nat st0 (seq 0 (S n)) w = Ok (st_n, w_n) ->
  loop 0%nat st_n (seq (S n) k) w_n = Ok (st_m, w_m) ->
  exists a_n a_m,
    accum_grad st_n = Array a_n /\ accum_grad st_m = Array a_m /\
    Spec.below (repeat (eta0 ^ 2 + float64_eps) (length a_n)) a_n /\
    Spec.below a_n a_m.
Proof.
  intros Hn Hm. cbn [seq] in Hn. unfold loop in Hn. cbn [iterate] in Hn.
  mbind_ok Hn. fold step in E. fold loop in Hn.
  apply first_iteration_accumulates in E. destruct E as (a1 & Ha1 & H01).
  destruct (later_iterations_accumulate n 0%nat _ _ _ _ a1 Ha1 Hn)
    as (a_n & Han & H1n).
  destruct (later_iterations_accumulate k n _ _ _ _ a_n Han Hm)
    as (a_m & Ham & Hnm).
  exists a_n, a_m. repeat split; try assumption; try apply Hnm.
  - rewrite repeat_length. reflexivity.
  - intros i Hi. rewrite repeat_length in Hi.
    destruct H01 as [L01 H01], H1n as [L1n H1n].
    rewrite repeat_length in L01.
    specialize (H01 i). rewrite repeat_length in H01.
    specialize (H01 ltac:(lia)). specialize (H1n i ltac:(lia)).
    rewrite nth_repeat_below in * by lia. lra.
Qed.

End Adagrad.

Lemma regularization_added_once_by_root_witness :
  exists ev evs,
    SolverMC.data_term (Demo.worker (1 / 2)) [1; 0] = Ok ev /\
    Spec.data_terms [Demo.worker 5] [1; 0] = Ok evs /\
    World.objective [Demo.worker (1 / 2); Demo.worker 5] [1; 0]
    = Ok (SolverMC.ev_flocal ev + vsum (map SolverMC.ev_flocal evs)
          + 1 / 2 * fst (Reg.reg_l2 (SolverMC.ev_w ev) {| Reg.alpha := None |}),
          Spec.add_to_head 1
            (World.sum_buffers (SolverMC.ev_glocal ev)
               (map SolverMC.ev_glocal evs))
            (vscale (1 / 2)
               (flat (snd (Reg.reg_l2 (SolverMC.ev_w ev)
                             {| Reg.alpha := None |}))))).
Proof.
  do 2 eexists. split; [reflexivity|]. split; [reflexivity|].
  apply (proj2 (proj2 (proj2 (proj2 regularization_added_once_by_root)))
           (Demo.worker (1 / 2)) [Demo.worker 5] [1; 0]).
  - reflexivity.
  - reflexivity.
  - repeat constructor.
  - split; [reflexivity | repeat constructor].
Defined.

(** evaluation of the program on concrete arrays: everything but the
    arithmetic of the reals is computed *)
Ltac evaluate :=
  cbv -[Rplus Rminus Rmult Rdiv Rinv Ropp IZR INR sqrt Rabs pow Rmax
        SolverStochastic.float64_eps];
  reflexivity.

(** ** The functions on small inputs *)

Ltac decide_reals :=
  repeat match goal with
         | |- context [Rlt_dec ?a ?b] => destruct (Rlt_dec a b); try lra
         | |- context [Rle_dec ?a ?b] => destruct (Rle_dec a b); try lra
         | |- context [Req_dec_T ?a ?b] => destruct (Req_dec_T a b); try lra
         | |- context [Rcase_abs ?a] => destruct (Rcase_abs a); try lra
         end.

(** the hinge loss at the kink ([1 - 1*1 = 0], gradient 0) and inside the
    margin ([1 - (-1)*0 = 1], gradient [-Y = 1]) *)
Example loss_hinge_at_the_kink :
  Loss.loss_hinge [[1; -1]] [[1; 0]] None = (1, [[0; 1]]).
Proof.
  cbv [Loss.loss_hinge emap ewise zip_with map msum vsum fold_right gt0 Rmax].
  decide_reals. repeat f_equal; lra.
Qed.

Example reg_l1_at_zero :
  Reg.reg_l1 [[0; 3]; [-2; 0]] {| Reg.alpha := None |}
  = (5, [[0.5; 1]; [-1; 0.5]]).
Proof.
  cbv [Reg.reg_l1 emap map msum vsum fold_right Reg.sign Rabs].
  decide_reals. repeat f_equal; lra.
Qed.

(** [pred = 1*1 + 0] meets the label 1, the data term vanishes; with
    [gamma = 1/2] the coordinator adds [1/2 * ||w||^2 = 1/2] and
    [1/2 * 2w = 1] to the weight entry of the gradient. *)
Example obj_on_the_coordinator :
  exists f g solver w,
    SolverMC.obj [1; 0] (Demo.worker (1 / 2))
      {| rank := 0; inbox := [PeerNumber 0; PeerBuffer [0; 0]] |}
    = Ok (f, g, solver, w) /\
    f = 1 / 2 /\ g = [1; 0].
Proof.
  do 4 eexists. split; [evaluate|]. split; [lra | repeat f_equal; lra].
Qed.

(** the same evaluation on a worker of rank 1: no regularizer *)
Example obj_off_the_coordinator :
  exists f g solver w,
    SolverMC.obj [1; 0] (Demo.worker (1 / 2))
      {| rank := 1; inbox := [PeerNumber 0; PeerBuffer [0; 0]] |}
    = Ok (f, g, solver, w) /\
    f = 0 /\ g = [0; 0].
Proof.
  do 4 eexists. split; [evaluate|]. split; [lra | repeat f_equal; lra].
Qed.

(** a flat array as [param_init] is rejected, the pair [(w, b)] is packed *)
Example flatten_params_of_an_array :
  SolverMC.flatten_params (Ndarray (of_vector [1; 2; 3])) = Raise TypeError.
Proof. reflexivity. Qed.

Example flatten_params_of_a_pair :
  SolverMC.flatten_params (Tuple [of_matrix 1 2 [[1; 2]]; of_vector [3; 4]])
  = Ok (Ndarray (of_vector [1; 2; 3; 4])).
Proof. reflexivity. Qed.

(** * Further properties of the code *)

(** a step of a computation in the exception monad has returned *)
Ltac step_ok H :=
  match type of H with
  | Py.bind ?r _ = Ok _ =>
      let E := fresh "E" in
      destruct r eqn:E; cbn [Py.bind] in H; [|discriminate H]
  | (let (_, _) := ?p in _) = Ok _ => destruct p
  end.

(** a step of a computation with collectives has returned *)
Ltac mstep_ok H :=
  match type of H with
  | Mpi.bind ?c _ ?w = Ok _ =>
      let E := fresh "E" in
      unfold Mpi.bind at 1 in H;
      destruct (c w) as [[? ?]|] eqn:E; [|discriminate H]
  | (let (_, _) := ?p in _) _ = Ok _ => destruct p
  | (let (_, _) := ?p in _) = Ok _ => destruct p
  end.

(** ** Unpacking any parameter vector *)

Section Unflatten.

Lemma has_shape_chunks dim K (v : vec) :
  length v = (dim * K)%nat -> has_shape dim K (chunks dim K v).
Proof.
  revert v; induction dim as [|dim IH]; intros v Hv.
  - split; [reflexivity | constructor].
  - cbn [chunks]. destruct (IH (skipn K v)) as [Hn HF].
    { rewrite length_skipn. lia. }
    split; [cbn [length]; now rewrite Hn|].
    constructor; auto. rewrite length_firstn. lia.
Qed.

Lemma flat_chunks dim K (v : vec) :
  length v = (dim * K)%nat -> flat (chunks dim K v) = v.
Proof.
  unfold flat. revert v; induction dim as [|dim IH]; intros v Hv.
  - destruct v; [reflexivity | discriminate].
  - cbn [chunks concat]. rewrite IH by (rewrite length_skipn; lia).
    apply firstn_skipn.
Qed.

End Unflatten.

(** [unflatten_params] accepts exactly the vectors of at least [K*dim]
    entries.  It then returns a weight matrix of shape [dim, K] and, as the
    bias, everything behind the first [K*dim] entries, and packing the two
    again gives the vector back; a shorter vector is a ValueError. *)
Theorem unflatten_params_total (K dim : nat) (wb : vec) :
  ((K * dim <= length wb)%nat ->
   exists W b,
     SolverMC.unflatten_params K dim wb = Ok (W, b) /\
     has_shape dim K W /\
     length b = (length wb - K * dim)%nat /\
     flat W ++ b = wb) /\
  ((length wb < K * dim)%nat ->
   SolverMC.unflatten_params K dim wb = Raise ValueError).
Proof.
  unfold SolverMC.unflatten_params, reshape. split; intros H.
  - assert (HL : length (firstn (K * dim) wb) = (dim * K)%nat)
      by (rewrite length_firstn; lia).
    rewrite HL, Nat.eqb_refl. cbn [Py.bind].
    do 2 eexists. split; [reflexivity|].
    split; [now apply has_shape_chunks|].
    split; [apply length_skipn|].
    rewrite flat_chunks by assumption. apply firstn_skipn.
  - assert (HL : length (firstn (K * dim) wb) = length wb)
      by (rewrite length_firstn; lia).
    rewrite HL. destruct (Nat.eqb_spec (length wb) (dim * K)); [lia|].
    reflexivity.
Qed.

Lemma unflatten_params_total_witness :
  exists W b,
    SolverMC.unflatten_params 2 1 [1; 2; 3; 4; 5] = Ok (W, b) /\
    has_shape 1 2 W /\
    length b = (length [1; 2; 3; 4; 5] - 2 * 1)%nat /\
    flat W ++ b = [1; 2; 3; 4; 5].
Proof.
  apply (proj1 (unflatten_params_total 2 1 [1; 2; 3; 4; 5])). cbn. lia.
Defined.

(** ** The regularizers *)

Section Regularizers.

Lemma ewise_emap_same f g h (W : mat) :
  ewise f (emap g W) (emap h W) = emap (fun x => f (g x) (h x)) W.
Proof.
  unfold ewise, emap. induction W as [|r W IH]; [reflexivity|].
  cbn [map zip_with]. rewrite IH. f_equal.
  induction r as [|x r IHr]; [reflexivity|].
  cbn [map zip_with]. now rewrite IHr.
Qed.

Lemma emap_emap f g (W : mat) : emap f (emap g W) = emap (fun x => f (g x)) W.
Proof.
  unfold emap. rewrite map_map. apply map_ext. intros r. apply map_map.
Qed.

Lemma emap_ext f g (W : mat) :
  (forall x, f x = g x) -> emap f W = emap g W.
Proof.
  intros H. unfold emap. apply map_ext. intros r. now apply map_ext.
Qed.

Lemma vsum_nonneg (v : vec) : Forall (fun x => 0 <= x) v -> 0 <= vsum v.
Proof.
  induction 1 as [|x v Hx _ IH]; cbn [vsum fold_right]; [lra|].
  fold (vsum v). lra.
Qed.

Lemma vsum_zero_iff (v : vec) :
  Forall (fun x => 0 <= x) v -> (vsum v = 0 <-> Forall (fun x => x = 0) v).
Proof.
  induction 1 as [|x v Hx Hv IH]; cbn [vsum fold_right].
  - split; auto.
  - fold (vsum v). pose proof (vsum_nonneg v Hv) as Hs. split.
    + intros H. constructor; [lra|]. apply IH. lra.
    + intros H. inversion H; subst. apply IH in H3. lra.
Qed.

Lemma msum_as_vsum (A : mat) : msum A = vsum (flat A).
Proof.
  unfold msum, flat. induction A as [|r A IH]; [reflexivity|].
  cbn [map concat]. rewrite vsum_app, <- IH. reflexivity.
Qed.

Lemma flat_emap f (A : mat) : flat (emap f A) = map f (flat A).
Proof.
  unfold flat, emap. induction A as [|r A IH]; [reflexivity|].
  cbn [map concat]. now rewrite map_app, IH.
Qed.

Lemma vdot_self (v : vec) : vdot v v = vsum (map (fun x => x * x) v).
Proof.
  induction v as [|x v IH]; [reflexivity|].
  rewrite vdot_cons, IH. reflexivity.
Qed.

Lemma Forall_flat (P : R -> Prop) (A : mat) :
  Forall P (flat A) <-> Forall (Forall P) A.
Proof.
  unfold flat. induction A as [|r A IH]; cbn [concat].
  - split; constructor.
  - rewrite Forall_app, IH. split.
    + intros [? ?]. now constructor.
    + intros H. now inversion H.
Qed.

End Regularizers.

(** [Reg.reg_elastic] mixes the two other regularizers: with [alpha = 1] it
    is [reg_l1], with [alpha = 0] it is [reg_l2], and without an [alpha] it
    is half of each, value and gradient. *)
Theorem reg_elastic_mixes (W : mat) :
  Reg.reg_elastic W {| Reg.alpha := Some 1 |}
    = Reg.reg_l1 W {| Reg.alpha := Some 1 |} /\
  Reg.reg_elastic W {| Reg.alpha := Some 0 |}
    = Reg.reg_l2 W {| Reg.alpha := Some 0 |} /\
  Reg.reg_elastic W {| Reg.alpha := None |}
    = (fst (Reg.reg_l1 W {| Reg.alpha := None |}) / 2
       + fst (Reg.reg_l2 W {| Reg.alpha := None |}) / 2,
       ewise Rplus
         (emap (fun x => x / 2) (snd (Reg.reg_l1 W {| Reg.alpha := None |})))
         (emap (fun x => x / 2) (snd (Reg.reg_l2 W {| Reg.alpha := None |})))).
Proof.
  unfold Reg.reg_elastic, Reg.reg_l1, Reg.reg_l2. cbn [Reg.alpha fst snd].
  split; [|split]; f_equal; try lra.
  - rewrite !emap_emap, ewise_emap_same. apply emap_ext. intros x. lra.
  - rewrite !emap_emap, ewise_emap_same. apply emap_ext. intros x. lra.
  - rewrite !emap_emap, !ewise_emap_same. apply emap_ext. intros x. lra.
Qed.

(** The values of [Reg.reg_l1] and [Reg.reg_l2] are never negative, and they
    are 0 exactly for the weight matrix whose entries are all 0. *)
Theorem regularizers_vanish_only_at_zero (W : mat) (kw : Reg.kwargs) :
  0 <= fst (Reg.reg_l1 W kw) /\
  0 <= fst (Reg.reg_l2 W kw) /\
  (fst (Reg.reg_l1 W kw) = 0 <-> Forall (Forall (fun x => x = 0)) W) /\
  (fst (Reg.reg_l2 W kw) = 0 <-> Forall (Forall (fun x => x = 0)) W).
Proof.
  unfold Reg.reg_l1, Reg.reg_l2. cbn [fst].
  rewrite msum_as_vsum, flat_emap, vdot_self.
  assert (Habs : Forall (fun x => 0 <= x) (map Rabs (flat W))).
  { rewrite Forall_map. apply Forall_forall. intros x _. apply Rabs_pos. }
  assert (Hsq : Forall (fun x => 0 <= x) (map (fun x => x * x) (flat W))).
  { rewrite Forall_map. apply Forall_forall. intros x _. nra. }
  split; [now apply vsum_nonneg|]. split; [now apply vsum_nonneg|].
  rewrite (vsum_zero_iff _ Habs), (vsum_zero_iff _ Hsq).
  rewrite !Forall_map, <- Forall_flat.
  split; split; intros H; eapply Forall_impl; try exact H; cbv beta;
    intros x Hx.
  - destruct (Req_dec x 0) as [|Hn]; [assumption|].
    apply Rabs_no_R0 in Hn. contradiction.
  - subst. apply Rabs_R0.
  - nra.
  - subst. lra.
Qed.

(** ** The losses of [Loss] *)

Section LossFacts.

Lemma vdot_ones (v : vec) n : length v = n -> vdot v (repeat 1 n) = vsum v.
Proof.
  revert n; induction v as [|x v IH]; intros n Hn; cbn [length] in Hn;
    subst n; [reflexivity|].
  cbn [repeat]. rewrite vdot_cons, IH by reflexivity.
  change (vsum (x :: v)) with (x + vsum v). lra.
Qed.

Lemma vdot_nonneg (u v : vec) :
  Forall (fun x => 0 <= x) u -> Forall (fun x => 0 <= x) v -> 0 <= vdot u v.
Proof.
  intros Hu; revert v; induction Hu as [|x u Hx _ IH]; intros v Hv.
  - unfold vdot. cbn. lra.
  - destruct Hv as [|y v Hy Hv]; [unfold vdot; cbn; lra|].
    rewrite vdot_cons. specialize (IH v Hv). nra.
Qed.

Lemma Forall_entries (P : R -> Prop) n K (A : mat) :
  has_shape n K A ->
  (Forall (Forall P) A <->
   forall i j, (i < n)%nat -> (j < K)%nat -> P (entry A i j)).
Proof.
  intros HA. pose proof HA as [Hn HF]. unfold entry. split.
  - intros H i j Hi Hj. rewrite Forall_forall in H.
    assert (Hr : In (nth i A []) A) by (apply nth_In; lia).
    specialize (H _ Hr). rewrite Forall_forall in H. apply H, nth_In.
    rewrite (has_shape_row n K A i HA Hi). exact Hj.
  - intros H. apply Forall_forall. intros r Hr.
    apply (In_nth _ _ []) in Hr. destruct Hr as (i & Hi & <-).
    apply Forall_forall. intros x Hx.
    apply (In_nth _ _ 0) in Hx. destruct Hx as (j & Hj & <-).
    rewrite Hn in Hi. rewrite (has_shape_row n K A i HA Hi) in Hj. auto.
Qed.

Lemma rowsum_nonneg (A : mat) :
  Forall (Forall (fun x => 0 <= x)) A -> Forall (fun x => 0 <= x) (rowsum A).
Proof.
  unfold rowsum. intros H. rewrite Forall_map.
  eapply Forall_impl; [|exact H]. apply vsum_nonneg.
Qed.

Lemma margin_nonneg (Y pred : mat) :
  Forall (Forall (fun x => 0 <= x))
    (emap (Rmax 0) (emap (Rminus 1) (ewise Rmult Y pred))).
Proof.
  unfold emap at 1. rewrite Forall_map. apply Forall_forall. intros r _.
  rewrite Forall_map. apply Forall_forall. intros x _. apply Rmax_l.
Qed.

Lemma inner1d_nonneg (A : mat) : Forall (fun x => 0 <= x) (inner1d A A).
Proof.
  unfold inner1d. induction A as [|r A IH]; cbn [zip_with]; constructor; auto.
  rewrite vdot_self. apply vsum_nonneg. rewrite Forall_map.
  apply Forall_forall. intros x _. nra.
Qed.

End LossFacts.

(** A weight vector of ones is the same as no weight vector: for arrays of
    one shape [n, K] the l2, the hinge and the squared hinge loss return with
    [weight = ones(n)] the value and the gradient they return with
    [weight = None]. *)
Theorem unit_weights_are_no_weights (n K : nat) (Y pred : mat)
  (HY : has_shape n K Y) (HP : has_shape n K pred) :
  Loss.loss_l2 Y pred (Some (repeat 1 n)) = Loss.loss_l2 Y pred None /\
  Loss.loss_hinge Y pred (Some (repeat 1 n)) = Loss.loss_hinge Y pred None /\
  Loss.loss_squared_hinge Y pred (Some (repeat 1 n))
    = Loss.loss_squared_hinge Y pred None.
Proof.
  pose proof (repeat_length 1 n) as Hones.
  assert (Hnth : forall i, (i < n)%nat -> nth i (repeat 1 n) 0 = 1)
    by (intros; now apply nth_repeat_below).
  pose proof (has_shape_margin n K Y pred HY HP) as HM.
  unfold Loss.loss_l2, Loss.loss_hinge, Loss.loss_squared_hinge.
  set (m := emap (Rmax 0) (emap (Rminus 1) (ewise Rmult Y pred))) in *.
  assert (Hwm : ewise Rmult (col (repeat 1 n) m) m = m).
  { by_entries n K. rewrite Hnth by assumption. lra. }
  rewrite Hwm.
  split; [|split]; [f_equal| f_equal |reflexivity].
  - assert (HD : has_shape n K
                   (emap (fun d => d ^ 2) (ewise Rminus pred Y)))
      by auto with shape.
    rewrite vdot_ones by (rewrite length_rowsum; apply HD).
    change (vsum (rowsum ?A)) with (msum A).
    rewrite msum_as_vsum, flat_emap, vdot_self. f_equal.
    apply map_ext. intros x. ring.
  - by_entries n K. rewrite Hnth by assumption. lra.
  - rewrite (vsum_vecmat n) by eauto using has_shape_ncols.
    rewrite vdot_comm, vdot_ones by (rewrite length_rowsum; now destruct HM).
    reflexivity.
  - by_entries n K. rewrite Hnth by assumption. lra.
Qed.

Lemma unit_weights_are_no_weights_witness :
  Loss.loss_l2 [[1; -1]; [-1; 1]] [[2; 0]; [1; 3]] (Some (repeat 1 2))
    = Loss.loss_l2 [[1; -1]; [-1; 1]] [[2; 0]; [1; 3]] None /\
  Loss.loss_hinge [[1; -1]; [-1; 1]] [[2; 0]; [1; 3]] (Some (repeat 1 2))
    = Loss.loss_hinge [[1; -1]; [-1; 1]] [[2; 0]; [1; 3]] None /\
  Loss.loss_squared_hinge [[1; -1]; [-1; 1]] [[2; 0]; [1; 3]]
      (Some (repeat 1 2))
    = Loss.loss_squared_hinge [[1; -1]; [-1; 1]] [[2; 0]; [1; 3]] None.
Proof.
  apply (unit_weights_are_no_weights 2 2);
    (split; [reflexivity | repeat constructor]).
Defined.

(** With weights that are not negative (or none) the l2, the hinge and the
    squared hinge loss return a value that is not negative. *)
Theorem loss_values_are_nonnegative (n K : nat) (Y pred : mat)
  (weight : option vec)
  (HY : has_shape n K Y) (HP : has_shape n K pred)
  (HW : Spec.nonneg_weight n weight) :
  0 <= fst (Loss.loss_l2 Y pred weight) /\
  0 <= fst (Loss.loss_hinge Y pred weight) /\
  0 <= fst (Loss.loss_squared_hinge Y pred weight).
Proof.
  pose proof (has_shape_margin n K Y pred HY HP) as HM.
  pose proof (margin_nonneg Y pred) as Hm.
  unfold Loss.loss_l2, Loss.loss_hinge, Loss.loss_squared_hinge.
  set (m := emap (Rmax 0) (emap (Rminus 1) (ewise Rmult Y pred))) in *.
  destruct weight as [w|]; cbn [fst]; [destruct HW as [Hlen Hw]|].
  - split; [|split].
    + apply vdot_nonneg; [|assumption]. apply rowsum_nonneg.
      unfold emap. rewrite Forall_map. apply Forall_forall. intros r _.
      rewrite Forall_map. apply Forall_forall. intros x _.
      apply pow2_ge_0.
    + rewrite (vsum_vecmat n) by eauto using has_shape_ncols.
      apply vdot_nonneg; [assumption | now apply rowsum_nonneg].
    + rewrite weighted_square_sum by (destruct HM; congruence).
      apply vdot_nonneg; [apply inner1d_nonneg | assumption].
  - split; [|split].
    + rewrite vdot_self. apply vsum_nonneg. rewrite Forall_map.
      apply Forall_forall. intros x _. nra.
    + rewrite msum_as_vsum. apply vsum_nonneg. now apply Forall_flat.
    + rewrite vdot_self. apply vsum_nonneg. rewrite Forall_map.
      apply Forall_forall. intros x _. nra.
Qed.

Lemma loss_values_are_nonnegative_witness :
  0 <= fst (Loss.loss_l2 [[1; -1]] [[2; 0]] (Some [3])) /\
  0 <= fst (Loss.loss_hinge [[1; -1]] [[2; 0]] (Some [3])) /\
  0 <= fst (Loss.loss_squared_hinge [[1; -1]] [[2; 0]] (Some [3])).
Proof.
  apply (loss_values_are_nonnegative 1 2).
  - split; [reflexivity | repeat constructor].
  - split; [reflexivity | repeat constructor].
  - split; [reflexivity | repeat constructor; lra].
Defined.

(** The unweighted hinge loss is 0 exactly when every label/prediction pair
    keeps its margin, [Y*pred >= 1], and then its gradient is 0 everywhere;
    the unweighted l2 loss is 0 exactly when [pred] equals [Y]. *)
Theorem losses_vanish_at_a_perfect_fit (n K : nat) (Y pred : mat)
  (HY : has_shape n K Y) (HP : has_shape n K pred) :
  (fst (Loss.loss_hinge Y pred None) = 0 <->
   forall i j, (i < n)%nat -> (j < K)%nat ->
     1 <= entry Y i j * entry pred i j) /\
  (fst (Loss.loss_hinge Y pred None) = 0 ->
   forall i j, (i < n)%nat -> (j < K)%nat ->
     entry (snd (Loss.loss_hinge Y pred None)) i j = 0) /\
  (fst (Loss.loss_l2 Y pred None) = 0 <-> pred = Y).
Proof.
  pose proof (has_shape_margin n K Y pred HY HP) as HM.
  pose proof (margin_nonneg Y pred) as Hm.
  assert (Hent : forall i j, (i < n)%nat -> (j < K)%nat ->
            entry (emap (Rmax 0) (emap (Rminus 1) (ewise Rmult Y pred))) i j
            = Rmax 0 (1 - entry Y i j * entry pred i j)).
  { intros i j Hi Hj. entries n K. reflexivity. }
  assert (Hzero : fst (Loss.loss_hinge Y pred None) = 0 <->
            forall i j, (i < n)%nat -> (j < K)%nat ->
              1 <= entry Y i j * entry pred i j).
  { unfold Loss.loss_hinge. cbn [fst].
    rewrite msum_as_vsum, vsum_zero_iff by now apply Forall_flat.
    rewrite Forall_flat, (Forall_entries _ n K) by assumption.
    split; intros H i j Hi Hj; specialize (H i j Hi Hj);
      rewrite Hent in * by assumption; revert H; unfold Rmax;
      destruct (Rle_dec _ _); lra. }
  split; [exact Hzero|]. split.
  - intros H0 i j Hi Hj. pose proof (proj1 Hzero H0 i j Hi Hj) as H1.
    unfold Loss.loss_hinge. cbn [snd]. entries n K.
    unfold gt0, Rmax. destruct (Rle_dec _ _); destruct (Rlt_dec _ _); lra.
  - unfold Loss.loss_l2. cbn [fst].
    assert (HD : has_shape n K (ewise Rminus pred Y)) by auto with shape.
    rewrite vdot_self, vsum_zero_iff
      by (rewrite Forall_map; apply Forall_forall; intros x _; nra).
    rewrite Forall_map, Forall_flat, (Forall_entries _ n K) by assumption.
    split.
    + intros H. apply (mat_ext n K); auto. intros i j Hi Hj.
      specialize (H i j Hi Hj). rewrite (entry_ewise n K) in H by assumption.
      nra.
    + intros -> i j Hi Hj. rewrite (entry_ewise n K) by assumption. nra.
Qed.

Lemma losses_vanish_at_a_perfect_fit_witness :
  fst (Loss.loss_l2 [[1; -1]] [[1; -1]] None) = 0.
Proof.
  assert (H : has_shape 1 2 [[1; -1]])
    by (split; [reflexivity | repeat constructor]).
  apply (proj2 (proj2 (proj2 (losses_vanish_at_a_perfect_fit 1 2 [[1; -1]]
                                [[1; -1]] H H)))).
  reflexivity.
Defined.

(** ** The softmax of the multiclass logistic loss *)

Section Softmax.

Lemma vsum_positive (e : vec) j :
  Forall (fun x => 0 < x) e -> (j < length e)%nat ->
  0 < nth j e 0 <= vsum e.
Proof.
  intros He; revert j; induction He as [|x e Hx He IH]; intros j Hj;
    cbn [length] in Hj; [lia|].
  change (vsum (x :: e)) with (x + vsum e).
  assert (0 <= vsum e).
  { apply vsum_nonneg. eapply Forall_impl; [|exact He]. cbv beta. intros; lra. }
  destruct j as [|j]; cbn [nth]; [lra|].
  specialize (IH j ltac:(lia)). lra.
Qed.

Lemma vsum_scaled (e : vec) (s : R) :
  vsum (zip_with Rdiv e (map (fun _ => s) e)) = vsum e / s.
Proof.
  induction e as [|x e IH]; cbn [map zip_with].
  - unfold vsum. cbn. unfold Rdiv. ring.
  - change (vsum (?a :: ?v)) with (a + vsum v). rewrite IH.
    unfold Rdiv. ring.
Qed.

(** one row of the softmax: positive entries, none above 1, with sum 1 *)
Lemma softmax_row (e : vec) :
  Forall (fun x => 0 < x) e -> e <> [] ->
  vsum (zip_with Rdiv e (map (fun _ => vsum e) e)) = 1 /\
  Forall (fun p => 0 < p <= 1) (zip_with Rdiv e (map (fun _ => vsum e) e)).
Proof.
  intros He Hne.
  assert (Hs : 0 < vsum e).
  { destruct e as [|x e]; [congruence|].
    pose proof (vsum_positive (x :: e) 0 He ltac:(cbn; lia)). cbn [nth] in *.
    lra. }
  split.
  - rewrite vsum_scaled. field. lra.
  - apply Forall_forall. intros p Hp.
    apply (In_nth _ _ 0) in Hp. destruct Hp as (j & Hj & <-).
    rewrite zip_with_length in Hj by now rewrite length_map.
    rewrite (nth_zip_with Rdiv e _ j 0 0 0)
      by (rewrite ?length_map; auto).
    rewrite (nth_map_const (vsum e) 0 e j Hj).
    pose proof (vsum_positive e j He Hj) as [H0 H1]. split.
    + apply Rdiv_lt_0_compat; assumption.
    + apply (Rmult_le_reg_r (vsum e)); [assumption|].
      unfold Rdiv. rewrite Rmult_assoc, Rinv_l by lra. lra.
Qed.

Lemma softmax_rows (E : mat) :
  ewise Rdiv E (col (rowsum E) E)
  = map (fun e => zip_with Rdiv e (map (fun _ => vsum e) e)) E.
Proof.
  unfold ewise, col, rowsum. induction E as [|e E IH]; [reflexivity|].
  cbn [map zip_with]. now rewrite IH.
Qed.

Lemma rowmax_of_nonempty_rows n K (A : mat) :
  has_shape n K A -> (0 < K)%nat ->
  exists mx, rowmax A = Some mx /\ length mx = n.
Proof.
  intros [Hn HF] HK. subst n. induction HF as [|r A Hr HF IH].
  - exists []. split; reflexivity.
  - destruct IH as (mx & Hmx & Hlen). rewrite rowmax_cons, Hmx.
    destruct r as [|x r]; [cbn in Hr; lia|].
    cbn [vmax]. destruct (vmax r); eexists; split; try reflexivity;
      cbn [length]; now rewrite Hlen.
Qed.

Lemma vsum_zip_minus (a b : vec) :
  length a = length b -> vsum (zip_with Rminus a b) = vsum a - vsum b.
Proof.
  revert b; induction a as [|x a IH]; intros [|y b] H; cbn [length] in H;
    try discriminate; cbn [zip_with].
  - unfold vsum. cbn. lra.
  - change (vsum (?u :: ?v)) with (u + vsum v). rewrite IH by lia. lra.
Qed.

Lemma ln_nonpositive (p : R) : 0 < p <= 1 -> Mathutil.log p <= 0.
Proof.
  intros [H0 H1]. unfold Mathutil.log. destruct H1 as [Hlt| ->].
  - pose proof (ln_increasing p 1 H0 Hlt). rewrite ln_1 in *. lra.
  - rewrite ln_1. lra.
Qed.

Lemma vdot_nonpositive (u v : vec) :
  Forall (fun x => x <= 0) u -> Forall (fun x => 0 <= x) v -> vdot u v <= 0.
Proof.
  intros Hu; revert v; induction Hu as [|x u Hx _ IH]; intros v Hv.
  - unfold vdot. cbn. lra.
  - destruct Hv as [|y v Hy Hv]; [unfold vdot; cbn; lra|].
    rewrite vdot_cons. specialize (IH v Hv). nra.
Qed.

End Softmax.

(** For predictions and labels of one shape [n, K] with at least one class,
    [Loss.loss_multiclass_logistic] returns; every row of its gradient sums
    to 1 minus the sum of the labels of the row (to 0 for one-hot labels);
    gradient plus labels, the softmax, lies in (0, 1]; and the loss value is
    not negative when no label is negative. *)
Theorem multiclass_logistic_gradient_rows (n K : nat) (Y pred : mat)
  (weight : option vec)
  (HY : has_shape n K Y) (HP : has_shape n K pred) (HK : (0 < K)%nat) :
  exists f g,
    Loss.loss_multiclass_logistic Y pred weight = Some (f, g) /\
    has_shape n K g /\
    (forall i, (i < n)%nat ->
       vsum (nth i g []) = 1 - vsum (nth i Y [])) /\
    (forall i j, (i < n)%nat -> (j < K)%nat ->
       0 < entry g i j + entry Y i j <= 1) /\
    ((forall i j, (i < n)%nat -> (j < K)%nat -> 0 <= entry Y i j) ->
     0 <= f).
Proof.
  destruct (rowmax_of_nonempty_rows n K pred HP HK) as (mx & Hmx & Hlen).
  unfold Loss.loss_multiclass_logistic. rewrite Hmx.
  set (E := emap Mathutil.exp (ewise Rminus pred (col mx pred))).
  assert (HE : has_shape n K E) by (subst E; auto with shape).
  assert (Hpos : Forall (Forall (fun x => 0 < x)) E).
  { subst E. unfold emap. rewrite Forall_map. apply Forall_forall.
    intros r _. rewrite Forall_map. apply Forall_forall. intros x _.
    apply exp_pos. }
  set (P := ewise Rdiv E (col (rowsum E) E)).
  assert (HPs : has_shape n K P).
  { subst P. apply has_shape_ewise; auto. apply has_shape_col; auto.
    rewrite length_rowsum. apply HE. }
  assert (Hrows : Forall (fun p => vsum p = 1 /\ Forall (fun x => 0 < x <= 1) p)
                    P).
  { subst P. rewrite softmax_rows, Forall_map.
    pose proof HE as [_ HF]. rewrite Forall_forall in *. intros e He.
    apply softmax_row; [now apply Hpos|].
    specialize (HF e He). destruct e; [cbn in HF; lia | discriminate]. }
  assert (Hrow : forall i, (i < n)%nat ->
            vsum (nth i P []) = 1 /\ Forall (fun x => 0 < x <= 1) (nth i P [])).
  { intros i Hi. rewrite Forall_forall in Hrows. apply Hrows, nth_In.
    destruct HPs as [-> _]. exact Hi. }
  do 2 eexists. split; [reflexivity|].
  split; [auto with shape|]. split; [|split].
  - intros i Hi. unfold ewise.
    pose proof HPs as [HnP _]. pose proof HY as [HnY _].
    rewrite (nth_zip_with (zip_with Rminus) P Y i [] [] []) by lia.
    rewrite vsum_zip_minus
      by now rewrite (has_shape_row n K P i), (has_shape_row n K Y i).
    now rewrite (proj1 (Hrow i Hi)).
  - intros i j Hi Hj. rewrite (entry_ewise n K) by assumption.
    destruct (Hrow i Hi) as [_ HF]. rewrite Forall_forall in HF.
    assert (Hin : In (entry P i j) (nth i P [])).
    { apply nth_In. now rewrite (has_shape_row n K P i). }
    specialize (HF _ Hin). lra.
  - intros HYpos.
    assert (vdot (flat (emap Mathutil.log P)) (flat Y) <= 0); [|lra].
    apply vdot_nonpositive.
    + rewrite flat_emap, Forall_map, Forall_flat.
      eapply Forall_impl; [|exact Hrows]. cbv beta. intros p [_ Hp].
      eapply Forall_impl; [|exact Hp]. apply ln_nonpositive.
    + rewrite Forall_flat. now apply (Forall_entries _ n K).
Qed.

Lemma multiclass_logistic_gradient_rows_witness :
  exists f g,
    Loss.loss_multiclass_logistic [[1; 0]; [0; 1]] [[2; 0]; [1; 3]] None
    = Some (f, g) /\
    has_shape 2 2 g /\
    (forall i, (i < 2)%nat ->
       vsum (nth i g []) = 1 - vsum (nth i [[1; 0]; [0; 1]] [])) /\
    (forall i j, (i < 2)%nat -> (j < 2)%nat ->
       0 < entry g i j + entry [[1; 0]; [0; 1]] i j <= 1) /\
    ((forall i j, (i < 2)%nat -> (j < 2)%nat ->
        0 <= entry [[1; 0]; [0; 1]] i j) ->
     0 <= f).
Proof.
  apply (multiclass_logistic_gradient_rows 2 2).
  - split; [reflexivity | repeat constructor].
  - split; [reflexivity | repeat constructor].
  - lia.
Defined.

(** ** The buffers of the solver *)

Section Buffers.

Import SolverMC.

Lemma widths_has_shape n K (A : mat) :
  map (@length R) A = repeat K n -> has_shape n K A.
Proof.
  revert n; induction A as [|r A IH]; intros [|n] H; cbn in H;
    try discriminate.
  - split; [reflexivity | constructor].
  - injection H as Hr HA. destruct (IH n HA) as [Hn HF].
    split; [cbn; now rewrite Hn | constructor; auto].
Qed.

Lemma has_shape_empty n K : has_shape n K (empty n K).
Proof.
  apply widths_has_shape. unfold empty. induction n as [|n IH]; cbn;
    [reflexivity|]. now rewrite repeat_length, IH.
Qed.

Lemma has_shape_fresh_or_resized n K buf :
  has_shape n K (fresh_or_resized n K buf).
Proof.
  destruct buf as [old|]; cbn [fresh_or_resized].
  - apply widths_has_shape. unfold resize_to. apply refill_widths.
  - apply has_shape_empty.
Qed.

Lemma length_resize_vec len buf : length (resize_vec len buf) = len.
Proof. apply refill_row_length. Qed.

Lemma Bcast_length buf w b w' :
  Bcast buf w = Ok (b, w') -> length b = length buf.
Proof.
  unfold Bcast. destruct (rank w =? 0)%nat.
  - intros H; now injection H as <- <-.
  - unfold Mpi.bind, receive. destruct (inbox w) as [|m rest]; [discriminate|].
    destruct m as [x|z|v]; try discriminate. unfold ret, raise.
    destruct (Nat.eqb_spec (length v) (length buf)); [|discriminate].
    intros H; now injection H as <- <-.
Qed.

Lemma classes_of_given k Y w : classes_of (Some k) Y w = Ok (k, Y, w).
Proof. reflexivity. Qed.

End Buffers.

Lemma presolve_sizes (self : SolverMC.solver) (X : ndarray)
  (Y : SolverMC.labels) (weight : option vec) (param_init : object)
  (K : option nat) (w w' : world) (p : vec) (s : SolverMC.solver)
  (Hrun : SolverMC.presolve self X Y weight param_init K w = Ok (p, s, w')) :
  exists n rest pred glocal g,
    shape X = n :: rest /\
    SolverMC._X s = {| shape := [n; prod rest]; data := data X |} /\
    SolverMC._dim s = prod rest /\
    SolverMC._weight s = weight /\
    SolverMC._pred s = Some pred /\ has_shape n (SolverMC._K s) pred /\
    SolverMC._glocal s = Some glocal /\ length glocal = length p /\
    SolverMC._g s = Some g /\ length g = length p /\
    SolverMC.gpredcache s
    = (SolverMC.argcount (SolverMC.loss self) =? 5)%nat /\
    (SolverMC.gpredcache s = true ->
     exists gpred,
       SolverMC._gpred s = Some gpred /\
       has_shape n (SolverMC._K s) gpred) /\
    (param_init = NoneObject ->
     length p = (SolverMC._K s * (SolverMC._dim s + 1))%nat) /\
    (forall k, K = Some k -> SolverMC._K s = k /\ SolverMC._Y s = Y).
Proof.
  unfold SolverMC.presolve in Hrun.
  destruct (shape X) as [|n rest] eqn:EX.
  { unfold Mpi.bind at 1, lift, reshape_2d in Hrun. rewrite EX in Hrun.
    discriminate. }
  unfold Mpi.bind at 1, lift, reshape_2d in Hrun. rewrite EX in Hrun.
  cbn [shape nth] in Hrun.
  mstep_ok Hrun. mstep_ok Hrun. mstep_ok Hrun. mstep_ok Hrun.
  mstep_ok Hrun. unfold ret in Hrun. injection Hrun as <- <- <-.
  apply Bcast_length in E2.
  exists n, rest. do 3 eexists. cbn.
  split; [reflexivity|]. split; [reflexivity|]. split; [reflexivity|].
  split; [reflexivity|]. split; [reflexivity|].
  split; [apply has_shape_fresh_or_resized|].
  split; [reflexivity|].
  split.
  { rewrite E2. destruct (SolverMC._glocal self);
      [apply length_resize_vec | apply repeat_length]. }
  split; [reflexivity|].
  split.
  { rewrite E2. destruct (SolverMC._glocal self), (SolverMC._g self);
      try apply length_resize_vec; apply repeat_length. }
  split; [reflexivity|].
  split.
  { intros Hc. rewrite Hc. eexists. split; [reflexivity|].
    apply has_shape_fresh_or_resized. }
  split.
  { intros ->. cbn [is_None] in E1. unfold ret in E1.
    injection E1 as <- <-. rewrite E2. apply repeat_length. }
  intros k ->. rewrite classes_of_given in E.
  now injection E as <- <- <-.
Qed.

(** When [presolve] returns, the solver holds the shard as an [n, dim]
    matrix, [dim] the product of the trailing dimensions of [X], and every
    buffer has the size the evaluation needs: [_pred] (and [_gpred], kept
    exactly for a loss of five arguments) has shape [n, K], [_glocal] and
    [_g] have the length of the returned parameter vector, which is
    [K*(dim+1)] when no initial parameters are given; a [K] passed by the
    caller is taken as it is and leaves [Y] untouched. *)
Theorem presolve_sizes_the_buffers (self : SolverMC.solver) (X : ndarray)
  (Y : SolverMC.labels) (weight : option vec) (param_init : object)
  (K : option nat) (w w' : world) (p : vec) (s : SolverMC.solver)
  (Hrun : SolverMC.presolve self X Y weight param_init K w = Ok (p, s, w')) :
  exists n rest pred glocal g,
    shape X = n :: rest /\
    SolverMC._X s = {| shape := [n; prod rest]; data := data X |} /\
    SolverMC._dim s = prod rest /\
    SolverMC._weight s = weight /\
    SolverMC._pred s = Some pred /\ has_shape n (SolverMC._K s) pred /\
    SolverMC._glocal s = Some glocal /\ length glocal = length p /\
    SolverMC._g s = Some g /\ length g = length p /\
    SolverMC.gpredcache s
    = (SolverMC.argcount (SolverMC.loss self) =? 5)%nat /\
    (SolverMC.gpredcache s = true ->
     exists gpred,
       SolverMC._gpred s = Some gpred /\
       has_shape n (SolverMC._K s) gpred) /\
    (param_init = NoneObject ->
     length p = (SolverMC._K s * (SolverMC._dim s + 1))%nat) /\
    (forall k, K = Some k -> SolverMC._K s = k /\ SolverMC._Y s = Y).
Proof.
  exact (presolve_sizes self X Y weight param_init K w w' p s Hrun).
Qed.

Lemma presolve_sizes_the_buffers_witness :
  let self := SolverMC.init 1 (Calls.of_loss2 Loss2.loss_hinge) Reg.reg_l2
                {| Reg.alpha := None |} in
  let X := {| shape := [2; 3]%nat; data := [1; 2; 3; 4; 5; 6] |} in
  let Y := SolverMC.FloatArray
             {| shape := [2; 2]%nat; data := [1; -1; -1; 1] |} in
  let weight := @None (list R) in
  let param_init := NoneObject in
  let K := Some 2%nat in
  exists p s w',
    SolverMC.presolve self X Y weight param_init K
      {| rank := 1; inbox := [PeerNumber 2; PeerBuffer (repeat 1 8)] |}
    = Ok (p, s, w') /\
  exists n rest pred glocal g,
      shape X = n :: rest /\
      SolverMC._X s = {| shape := [n; prod rest]; data := data X |} /\
      SolverMC._dim s = prod rest /\
      SolverMC._weight s = weight /\
      SolverMC._pred s = Some pred /\ has_shape n (SolverMC._K s) pred /\
      SolverMC._glocal s = Some glocal /\ length glocal = length p /\
      SolverMC._g s = Some g /\ length g = length p /\
      SolverMC.gpredcache s
      = (SolverMC.argcount (SolverMC.loss self) =? 5)%nat /\
      (SolverMC.gpredcache s = true ->
       exists gpred,
         SolverMC._gpred s = Some gpred /\
         has_shape n (SolverMC._K s) gpred) /\
      (param_init = NoneObject ->
       length p = (SolverMC._K s * (SolverMC._dim s + 1))%nat) /\
      (forall k, K = Some k -> SolverMC._K s = k /\ SolverMC._Y s = Y).
Proof.
  cbv zeta. do 3 eexists. split; [evaluate|].
  eapply (presolve_sizes_the_buffers _ _ _ _ _ _
            {| rank := 1; inbox := [PeerNumber 2; PeerBuffer (repeat 1 8)] |}).
  evaluate.
Defined.

(** ** The number of classes of a vector of labels *)

Section Classes.

Import SolverMC.

Lemma index_max_is_the_maximum (y : list Z) :
  y <> [] ->
  exists ymax,
    index_max y = Ok ymax /\ In ymax y /\ Forall (fun z => (z <= ymax)%Z) y.
Proof.
  induction y as [|z y IH]; [congruence|]. intros _.
  destruct y as [|z' y'].
  - exists z. cbn. repeat split; auto. constructor; [lia | constructor].
  - destruct IH as (m & Hm & Hin & Hall); [discriminate|].
    exists (Z.max z m). cbn [index_max] in *. rewrite Hm. cbn [Py.bind].
    split; [reflexivity|]. split.
    + destruct (Z.max_spec z m) as [[_ ->]|[_ ->]];
        [right; exact Hin | left; reflexivity].
    + constructor; [lia|]. eapply Forall_impl; [|exact Hall].
      cbv beta. intros; lia.
Qed.

End Classes.



(** ** The sizes an evaluation keeps *)

Section Evaluation.

Import SolverMC.

Lemma add_to_rows_shape n K (A A' : mat) (b : vec) :
  has_shape n K A -> add_to_rows A b = Ok A' -> has_shape n K A'.
Proof.
  unfold add_to_rows. intros [Hn HF]. subst n. revert A'.
  induction HF as [|r A Hr HF IH]; intros A' H; cbn [map all_ok] in H.
  - injection H as <-. split; [reflexivity | constructor].
  - destruct (inplace Rplus r b) as [r'|] eqn:Er; [|discriminate].
    destruct (all_ok (map (fun row => inplace Rplus row b) A)) as [A0|];
      [|discriminate].
    injection H as <-. destruct (IH A0 eq_refl) as [Hn HF'].
    apply inplace_length in Er.
    split; [cbn; now rewrite Hn | constructor; auto; congruence].
Qed.

Lemma reshape_length rows cols (v : vec) (A : mat) :
  reshape rows cols v = Ok A -> length v = (rows * cols)%nat.
Proof.
  unfold reshape. destruct (Nat.eqb_spec (length v) (rows * cols));
    [auto | discriminate].
Qed.

(** what [data_term] has done when it returns *)
Lemma data_term_sizes solver wb ev :
  data_term solver wb = Ok ev ->
  (_K solver * _dim solver <= length wb)%nat /\
  has_shape (nth 0 (shape (_X solver)) 0%nat) (_K solver) (ev_pred ev) /\
  exists glocal,
    _glocal solver = Some glocal /\
    length (ev_glocal ev) = length glocal.
Proof.
  unfold data_term. intros H.
  step_ok H. step_ok H. step_ok H. step_ok H. step_ok H.
  step_ok H. step_ok H. step_ok H. step_ok H. step_ok H.
  step_ok H. step_ok H. step_ok H.
  injection H as <-. cbn [ev_pred ev_glocal].
  destruct (_glocal solver) as [glocal|] eqn:Eg; [|discriminate].
  match goal with H : array_of (Some glocal) = Ok _ |- _ =>
    cbn in H; injection H as <- end.
  repeat match goal with
         | H : reshape _ _ (firstn _ _) = Ok _ |- _ =>
             apply reshape_length in H; rewrite length_firstn in H
         | H : dot_into _ _ _ _ _ _ = Ok _ |- _ => apply dot_into_shape in H
         | H : inplace _ _ _ = Ok _ |- _ =>
             apply inplace_length in H; rewrite length_skipn in H
         end.
  split; [lia|]. split; [eauto using add_to_rows_shape|].
  eexists. split; [reflexivity|].
  rewrite length_map, length_app.
  match goal with H : has_shape (_dim solver) (_K solver) ?gw |- _ =>
    rewrite (length_flat _ _ _ H) end.
  lia.
Qed.

Lemma local_terms_sizes root solver wb flocal glocal ev :
  local_terms root solver wb = Ok (flocal, glocal, ev) ->
  data_term solver wb = Ok ev /\ length glocal = length (ev_glocal ev).
Proof.
  unfold local_terms.
  destruct (data_term solver wb) as [ev0|] eqn:Ed; [|discriminate].
  cbn [Py.bind]. destruct root.
  - unfold add_regularization.
    destruct (reg solver (ev_w ev0) (_regargs solver)) as [freg greg].
    destruct (inplace Rplus _ _) as [head|] eqn:Eh; [|discriminate].
    cbn [Py.bind]. intros H. injection H as <- <- <-.
    split; [reflexivity|]. apply inplace_length in Eh.
    rewrite length_app, Eh, <- length_app, firstn_skipn. reflexivity.
  - cbn [Py.bind]. intros H. injection H as <- <- <-. split; reflexivity.
Qed.

End Evaluation.

Lemma obj_sizes (wb : vec) (s s' : SolverMC.solver)
  (w w' : world) (f : R) (g : vec)
  (Hrun : SolverMC.obj wb s w = Ok (f, g, s', w')) :
  (SolverMC._K s * SolverMC._dim s <= length wb)%nat /\
  (exists m1 m2, inbox w = m1 :: m2 :: inbox w') /\ rank w' = rank w /\
  (exists glocal gbuf glocal' pred',
     SolverMC._glocal s = Some glocal /\ SolverMC._g s = Some gbuf /\
     length glocal = length gbuf /\ length g = length gbuf /\
     SolverMC._g s' = Some g /\
     SolverMC._glocal s' = Some glocal' /\ length glocal' = length glocal /\
     SolverMC._pred s' = Some pred' /\
     has_shape (nth 0 (shape (SolverMC._X s)) 0%nat) (SolverMC._K s) pred') /\
  SolverMC._K s' = SolverMC._K s /\ SolverMC._dim s' = SolverMC._dim s /\
  SolverMC._X s' = SolverMC._X s /\ SolverMC._Y s' = SolverMC._Y s /\
  SolverMC._weight s' = SolverMC._weight s /\
  SolverMC._num_data s' = SolverMC._num_data s.
Proof.
  unfold SolverMC.obj in Hrun.
  unfold Mpi.bind at 1, is_root in Hrun.
  mstep_ok Hrun. mstep_ok Hrun. mstep_ok Hrun.
  unfold Mpi.bind at 1, barrier, ret at 1 in Hrun.
  mstep_ok Hrun. mstep_ok Hrun. mstep_ok Hrun.
  unfold ret in Hrun. injection Hrun as <- <- <- <-.
  unfold lift in E.
  destruct (SolverMC.local_terms (rank w =? 0)%nat s wb)
    as [[[flocal glocal] ev]|] eqn:El; [|discriminate].
  injection E as <- <- <- <-.
  apply local_terms_sizes in El. destruct El as [Hev Hlen].
  destruct (data_term_sizes s wb ev Hev) as (Hwb & Hpred & gl & Hgl & Hgl').
  unfold lift in E1. destruct (SolverMC._g s) as [gbuf|] eqn:Eg;
    [|discriminate]. cbn in E1. injection E1 as <- <-.
  unfold allreduce, Mpi.bind, receive in E0.
  destruct (inbox w) as [|m1 rest1] eqn:Ew; [discriminate|].
  destruct m1 as [x| |]; try discriminate.
  unfold ret in E0. injection E0 as <- <-.
  unfold Allreduce, Mpi.bind, receive in E2. cbn [inbox rank] in E2.
  destruct rest1 as [|m2 rest2]; [discriminate|].
  destruct m2 as [| |v]; try discriminate.
  destruct (Nat.eqb_spec (length glocal) (length gbuf)) as [H1|];
    [|discriminate].
  destruct (Nat.eqb_spec (length v) (length glocal)) as [H2|];
    [|discriminate].
  cbn [andb] in E2. unfold ret in E2. injection E2 as <- <-.
  split; [assumption|]. split; [do 2 eexists; reflexivity|].
  split; [reflexivity|]. split.
  - exists gl, gbuf, glocal, (SolverMC.ev_pred ev). cbn.
    repeat split; try reflexivity; try assumption; try congruence;
      try apply Hpred.
    unfold vadd. rewrite zip_with_length; congruence.
  - cbn. repeat split.
Qed.

(** When [SolverMC.obj] returns, the parameter vector had at least [K*dim]
    entries, two messages of the other workers were consumed (the value and
    the gradient reduction), and the returned gradient, which is the buffer
    [_g] of the solver afterwards, has the length the buffers [_glocal] and
    [_g] had before; [_glocal] keeps its length, [_pred] has shape [n, K],
    and the shard, [K], [dim] and the number of data are untouched: the
    solver is ready for the next evaluation. *)
Theorem obj_keeps_the_sizes (wb : vec) (s s' : SolverMC.solver)
  (w w' : world) (f : R) (g : vec)
  (Hrun : SolverMC.obj wb s w = Ok (f, g, s', w')) :
  (SolverMC._K s * SolverMC._dim s <= length wb)%nat /\
  (exists m1 m2, inbox w = m1 :: m2 :: inbox w') /\ rank w' = rank w /\
  (exists glocal gbuf glocal' pred',
     SolverMC._glocal s = Some glocal /\ SolverMC._g s = Some gbuf /\
     length glocal = length gbuf /\ length g = length gbuf /\
     SolverMC._g s' = Some g /\
     SolverMC._glocal s' = Some glocal' /\ length glocal' = length glocal /\
     SolverMC._pred s' = Some pred' /\
     has_shape (nth 0 (shape (SolverMC._X s)) 0%nat) (SolverMC._K s) pred') /\
  SolverMC._K s' = SolverMC._K s /\ SolverMC._dim s' = SolverMC._dim s /\
  SolverMC._X s' = SolverMC._X s /\ SolverMC._Y s' = SolverMC._Y s /\
  SolverMC._weight s' = SolverMC._weight s /\
  SolverMC._num_data s' = SolverMC._num_data s.
Proof. exact (obj_sizes wb s s' w w' f g Hrun). Qed.

Lemma obj_keeps_the_sizes_witness :
  exists f g s' w',
    SolverMC.obj [1; 0] (Demo.worker (1 / 2))
      {| rank := 0; inbox := [PeerNumber 0; PeerBuffer [0; 0]] |}
    = Ok (f, g, s', w') /\
    length g = 2%nat /\ SolverMC._g s' = Some g.
Proof.
  do 4 eexists. split; [evaluate|].
  destruct (obj_keeps_the_sizes [1; 0] (Demo.worker (1 / 2)) _
              {| rank := 0; inbox := [PeerNumber 0; PeerBuffer [0; 0]] |}
              _ _ _ ltac:(evaluate))
    as (_ & _ & _ & (gl & gb & gl' & pred' & _ & Hg & _ & Hlen & Hg' & _) & _).
  cbn in Hg. injection Hg as <-. split; [exact Hlen | exact Hg'].
Defined.

(** ** The stochastic driver: iterations, checkpoints and resuming *)

Section Driver.

Import SolverMC SolverStochastic.

Variable sampler : nat -> nat -> ndarray * labels * option vec.
Variable wolfe_line_search_adagrad :
  vec -> (vec -> solver -> M (R * vec * solver)) -> solver -> R -> R ->
  M (R * solver).
Variable _FMIN :
  (vec -> solver -> M (R * vec * solver)) -> vec -> solver ->
  M (vec * R * solver).
Variable self_args : args.
Variable K : option nat.

Let step := iteration sampler wolfe_line_search_adagrad _FMIN self_args K.
Let loop := iterate sampler wolfe_line_search_adagrad _FMIN self_args K.
Let run := SolverStochastic.solve sampler wolfe_line_search_adagrad _FMIN
             self_args K.

Lemma seq_empty start stop : (stop <= start)%nat -> seq start (stop - start) = [].
Proof. intros H. replace (stop - start)%nat with 0%nat by lia. reflexivity. Qed.

Lemma seq_first start stop :
  (start < stop)%nat ->
  seq start (stop - start) = start :: seq (S start) (stop - S start).
Proof.
  intros H. replace (stop - start)%nat with (S (stop - S start)) by lia.
  reflexivity.
Qed.

(** a loop whose first iteration does not return does not return *)
Lemma loop_needs_its_first_iteration iter_start st iter rest w :
  (forall r, step iter_start st iter w <> Ok r) ->
  forall r, loop iter_start st (iter :: rest) w <> Ok r.
Proof.
  intros Hfirst r H. unfold loop in H. cbn [iterate] in H.
  unfold Mpi.bind at 1 in H. fold step in H.
  destruct (step iter_start st iter w) as [[st1 w1]|] eqn:E; [|discriminate].
  now apply (Hfirst (st1, w1)).
Qed.

Lemma run_needs_its_first_iteration gamma l r regargs param_init resume
  new_lr stop w :
  num_iter self_args = Some stop ->
  let '(iter_start, st) :=
    start self_args (init gamma l r regargs) param_init resume new_lr in
  (iter_start < stop)%nat ->
  (forall res, step iter_start st iter_start w <> Ok res) ->
  forall res, run gamma l r regargs param_init resume new_lr w <> Ok res.
Proof.
  intros Hstop.
  destruct (start self_args (init gamma l r regargs) param_init resume new_lr)
    as [iter_start st] eqn:Es.
  intros Hlt Hfirst res H. unfold run, SolverStochastic.solve in H.
  rewrite Es, Hstop in H. unfold Mpi.bind at 1, lift in H. cbn [key] in H.
  rewrite (seq_first _ _ Hlt) in H. unfold Mpi.bind at 1 in H.
  fold loop in H.
  destruct (loop iter_start st _ w) as [[st1 w1]|] eqn:E; [|discriminate].
  exact (loop_needs_its_first_iteration iter_start st iter_start _ w Hfirst
           (st1, w1) E).
Qed.

Lemma dump_needs_a_positive_period st iter w r :
  dump_every self_args = Some 0%nat -> dump self_args st iter w <> Ok r.
Proof. unfold dump. intros ->. discriminate. Qed.

Lemma step_ends_with_dump iter_start st iter w r :
  step iter_start st iter w = Ok r ->
  exists st1 w1, dump self_args st1 iter w1 = Ok r.
Proof.
  unfold step, iteration. intros H.
  mstep_ok H. mstep_ok H. mstep_ok H. eauto.
Qed.

Lemma lift_keeps_the_world {A : Type} (r : result A) w a w' :
  lift r w = Ok (a, w') -> w' = w.
Proof. unfold lift. destruct r; [|discriminate]. now intros [= _ <-]. Qed.

Lemma dump_keeps_the_variables st iter w st' w' :
  dump self_args st iter w = Ok (st', w') ->
  w' = w /\ solver_basic st' = solver_basic st /\ param st' = param st /\
  param_flat st' = param_flat st /\ accum_grad st' = accum_grad st /\
  lr st' = lr st.
Proof.
  unfold dump. destruct (dump_every self_args) as [every|].
  - destruct (every =? 0)%nat; [discriminate|].
    destruct ((iter + 1) mod every =? 0)%nat.
    + intros H. mstep_ok H. mstep_ok H. mstep_ok H. mstep_ok H. mstep_ok H.
      unfold Mpi.bind, is_root, ret in H. injection H as <- <-.
      apply lift_keeps_the_world in E, E0, E1, E2. subst. repeat split.
    + intros H. injection H as <- <-. repeat split.
  - intros H. injection H as <- <-. repeat split.
Qed.

(** the parts of one pass through the loop body in the Adagrad branch *)
Lemma step_decomposes iter_start st iter w st' w' :
  lbfgs self_args = false ->
  step iter_start st iter w = Ok (st', w') ->
  exists size p w1 st1 w2,
    minibatch self_args = Some size /\
    adagrad_prepare wolfe_line_search_adagrad self_args K iter_start st iter
      (sampler (iter - iter_start) size) w = Ok (p, w1) /\
    adagrad_update st p w1 = Ok (st1, w2) /\
    dump self_args st1 iter w2 = Ok (st', w').
Proof.
  unfold step, iteration. intros Hmode H. rewrite Hmode in H.
  destruct (minibatch self_args) as [size|]; [|discriminate].
  unfold Mpi.bind at 1 in H. cbn [key lift] in H.
  mstep_ok H. mstep_ok E. mstep_ok H.
  unfold lift in E1. destruct (run_callbacks _ _); [|discriminate].
  injection E1 as <- <-.
  do 5 eexists. repeat split; eassumption.
Qed.

Lemma prepare_after_the_first iter_start st iter batch w p w' :
  iter <> iter_start ->
  adagrad_prepare wolfe_line_search_adagrad self_args K iter_start st iter
    batch w = Ok (p, w') ->
  w' = w /\ param_flat st = Some (p_param_flat p) /\
  p_accum_grad p = accum_grad st /\ p_lr p = lr st /\
  p_solver p
  = with_data (solver_basic st) (fst (fst batch)) (snd (fst batch))
      (snd batch).
Proof.
  intros Hne. unfold adagrad_prepare. destruct batch as [[X Y] wt].
  destruct (Nat.eqb_spec iter iter_start); [contradiction|].
  intros H. mstep_ok H. unfold ret in H. injection H as <- <-.
  unfold lift in E. destruct (param_flat st) as [pf|]; [|discriminate].
  cbn in E. injection E as <- <-. repeat split.
Qed.

Lemma prepare_of_a_resumed_run iter_start st batch w p w' :
  iter_start <> 0%nat ->
  adagrad_prepare wolfe_line_search_adagrad self_args K iter_start st
    iter_start batch w = Ok (p, w') ->
  p_accum_grad p = accum_grad st.
Proof.
  intros Hne. unfold adagrad_prepare. destruct batch as [[X Y] wt].
  rewrite Nat.eqb_refl.
  destruct (Nat.eqb_spec iter_start 0); [contradiction|].
  intros H. mstep_ok H. mstep_ok H.
  destruct (match lr st with
            | Some l => if Rlt_dec l 0 then true else false
            | None => true
            end).
  - mstep_ok H. mstep_ok H. now injection H as <- <-.
  - now injection H as <- <-.
Qed.

Lemma lift_returns {A : Type} (r : result A) w a w' :
  lift r w = Ok (a, w') -> r = Ok a /\ w' = w.
Proof. unfold lift. destruct r; [|discriminate]. now intros [= <- <-]. Qed.

(** what one Adagrad update leaves in the variables of the loop *)
Lemma update_step st p w st' w' :
  adagrad_update st p w = Ok (st', w') ->
  exists f0 g pf' wb,
    obj (p_param_flat p) (p_solver p) w = Ok (f0, g, solver_basic st', w') /\
    lr st' = p_lr p /\ param_flat st' = Some pf' /\
    length pf' = length (p_param_flat p) /\ dumps st' = dumps st /\
    unflatten_params (_K (solver_basic st')) (_dim (solver_basic st')) pf'
    = Ok wb /\
    param st'
    = pair_object (_dim (solver_basic st')) (_K (solver_basic st')) wb.
Proof.
  unfold adagrad_update. intros H.
  mstep_ok H. mstep_ok H. mstep_ok H.
  mstep_ok H. mstep_ok H. mstep_ok H. mstep_ok H. mstep_ok H. mstep_ok H.
  unfold ret in H. injection H as <- <-.
  apply lift_returns in E0, E1, E2, E3, E4, E5.
  destruct E0 as [_ ->], E1 as [_ ->], E2 as [_ ->], E3 as [_ ->],
    E4 as [Hin ->], E5 as [Hun ->].
  do 4 eexists. cbn.
  split; [reflexivity|]. split; [reflexivity|]. split; [reflexivity|].
  split; [exact (inplace_length _ _ _ _ Hin)|]. split; [reflexivity|].
  split; [exact Hun | reflexivity].
Qed.

(** the record a due dump writes *)
Lemma dump_when_due st iter w st' w' every wv bv :
  dump self_args st iter w = Ok (st', w') ->
  dump_every self_args = Some every ->
  ((iter + 1) mod every = 0)%nat ->
  param st = Tuple [wv; bv] ->
  exists accum base_lr,
    accum_grad st = match accum with
                    | None => NoneValue
                    | Some a => Array a
                    end /\
    lr st = Some base_lr /\
    dumps st'
    = if (rank w =? 0)%nat
      then dumps st ++ [{| ck_iter := iter; ck_w := wv; ck_b := bv;
                           ck_accum_grad := Some accum;
                           ck_base_lr := Some base_lr |}]
      else dumps st.
Proof.
  unfold dump. intros H Hevery Hdue Hparam. rewrite Hevery, Hdue, Hparam in H.
  destruct (every =? 0)%nat; [discriminate|]. cbn [Nat.eqb] in H.
  mstep_ok H. mstep_ok H. mstep_ok H. mstep_ok H. mstep_ok H.
  unfold Mpi.bind, is_root, ret in H. injection H as <- <-.
  apply lift_returns in E, E0, E1, E2.
  destruct E as [_ ->], E0 as [[= <- <-] ->], E1 as [Ha ->], E2 as [Hl ->].
  do 2 eexists. cbn [dumps]. split; [|split; [|reflexivity]].
  - destruct (accum_grad st); [discriminate| |]; now injection Ha as <-.
  - destruct (lr st); [|discriminate]. now injection Hl as <-.
Qed.

(** whatever the mode, the loop body reaches its dump with a pair [(w, b)]
    in [param] *)
Lemma step_leaves_a_pair iter_start st iter w st' w' :
  step iter_start st iter w = Ok (st', w') ->
  exists st1 w1 dim k wb,
    dump self_args st1 iter w1 = Ok (st', w') /\
    param st1 = pair_object dim k wb /\ dumps st1 = dumps st.
Proof.
  unfold step, iteration. intros H.
  destruct (minibatch self_args) as [size|]; [|discriminate].
  unfold Mpi.bind at 1 in H. cbn [key lift] in H.
  mstep_ok H. mstep_ok H. apply lift_returns in E0. destruct E0 as [_ ->].
  exists r, w0. destruct (lbfgs self_args).
  - destruct (sampler (iter - iter_start) size) as [[X Y] wt].
    mstep_ok E. mstep_ok E. unfold ret in E. injection E as <- <-.
    do 3 eexists. split; [exact H|]. split; reflexivity.
  - mstep_ok E. apply update_step in E.
    destruct E as (f0 & g & pf' & wb & _ & _ & _ & _ & Hd & _ & Hp).
    do 3 eexists. split; [exact H|]. split; [exact Hp | exact Hd].
Qed.

End Driver.

(** A run of [SolverStochastic.solve] that has no iteration left returns the
    parameters it started from (the [param_init] of the caller, or the pair
    [(w, b)] of the checkpoint) and takes part in no collective; without
    ['num_iter'] in the arguments the run is a KeyError, and so is every
    run, resumed or not, with an iteration to do and no ['minibatch']. *)
Theorem solve_without_iterations
  (sampler : nat -> nat -> ndarray * SolverMC.labels * option vec)
  (wolfe_line_search_adagrad :
     vec -> (vec -> SolverMC.solver -> M (R * vec * SolverMC.solver)) ->
     SolverMC.solver -> R -> R -> M (R * SolverMC.solver))
  (_FMIN :
     (vec -> SolverMC.solver -> M (R * vec * SolverMC.solver)) -> vec ->
     SolverMC.solver -> M (vec * R * SolverMC.solver))
  (self_args : SolverStochastic.args) (K : option nat)
  (gamma : R) (l : SolverMC.loss_function) (r : SolverMC.reg_function)
  (regargs : Reg.kwargs) (param_init : object) (new_lr : option R)
  (w : world) :
  let run := SolverStochastic.solve sampler wolfe_line_search_adagrad _FMIN
               self_args K gamma l r regargs param_init in
  (SolverStochastic.num_iter self_args = None ->
   forall resume, run resume new_lr w = Raise KeyError) /\
  (SolverStochastic.num_iter self_args = Some 0%nat ->
   exists st, run None new_lr w = Ok (param_init, st, w)) /\
  (forall stop ck,
     SolverStochastic.num_iter self_args = Some stop ->
     (stop <= SolverStochastic.ck_iter ck + 1)%nat ->
     exists st,
       run (Some ck) new_lr w
       = Ok (Tuple [SolverStochastic.ck_w ck; SolverStochastic.ck_b ck],
             st, w)) /\
  (forall resume stop,
     SolverStochastic.num_iter self_args = Some stop ->
     (match resume with
      | None => 0
      | Some ck => SolverStochastic.ck_iter ck + 1
      end < stop)%nat ->
     SolverStochastic.minibatch self_args = None ->
     run resume new_lr w = Raise KeyError).
Proof.
  cbv zeta. unfold SolverStochastic.solve. split; [|split; [|split]].
  - intros Hn resume. rewrite Hn.
    destruct (SolverStochastic.start _ _ _ _ _). reflexivity.
  - intros Hn. rewrite Hn. cbn. eexists. reflexivity.
  - intros stop ck Hn Hle. rewrite Hn. cbn [SolverStochastic.start].
    unfold Mpi.bind at 1, lift. cbn [SolverStochastic.key].
    rewrite seq_empty by assumption. cbn. eexists. reflexivity.
  - intros resume stop Hn Hlt Hm. rewrite Hn.
    destruct resume as [ck|]; cbn [SolverStochastic.start];
      unfold Mpi.bind at 1, lift; cbn [SolverStochastic.key];
      rewrite (seq_first _ _ Hlt); cbn [SolverStochastic.iterate];
      unfold Mpi.bind at 1 2, SolverStochastic.iteration;
      rewrite Hm; reflexivity.
Qed.

Lemma solve_without_iterations_witness :
  exists st,
    SolverStochastic.solve Demo.sampler Demo.line_search Demo.fmin
      {| SolverStochastic.lbfgs := false;
         SolverStochastic.base_lr := None;
         SolverStochastic.eta := None;
         SolverStochastic.minibatch := Some 1%nat;
         SolverStochastic.num_iter := Some 0%nat;
         SolverStochastic.callback := SolverStochastic.NoCallback;
         SolverStochastic.dump_every := None;
         SolverStochastic.dump_name := None |}
      None 0 (Calls.of_loss Loss.loss_l2) Reg.reg_l2 {| Reg.alpha := None |}
      (Ndarray (of_vector [1; 2])) None None {| rank := 3; inbox := [] |}
    = Ok (Ndarray (of_vector [1; 2]), st, {| rank := 3; inbox := [] |}).
Proof.
  apply (proj1 (proj2 (solve_without_iterations Demo.sampler Demo.line_search
                         Demo.fmin _ None 0 (Calls.of_loss Loss.loss_l2)
                         Reg.reg_l2 {| Reg.alpha := None |}
                         (Ndarray (of_vector [1; 2])) None
                         {| rank := 3; inbox := [] |}))).
  reflexivity.
Defined.

(** With ['dump_every'] set to 0 no run that has an iteration to do ever
    returns, in either mode, resumed from a checkpoint or not: the test
    [(iter + 1) % dump_every] at the end of the first iteration divides by
    zero. *)
Theorem dump_every_zero_stops_the_run
  (sampler : nat -> nat -> ndarray * SolverMC.labels * option vec)
  (wolfe_line_search_adagrad :
     vec -> (vec -> SolverMC.solver -> M (R * vec * SolverMC.solver)) ->
     SolverMC.solver -> R -> R -> M (R * SolverMC.solver))
  (_FMIN :
     (vec -> SolverMC.solver -> M (R * vec * SolverMC.solver)) -> vec ->
     SolverMC.solver -> M (vec * R * SolverMC.solver))
  (self_args : SolverStochastic.args) (K : option nat)
  (gamma : R) (l : SolverMC.loss_function) (r : SolverMC.reg_function)
  (regargs : Reg.kwargs) (param_init : object)
  (resume : option SolverStochastic.checkpoint) (new_lr : option R)
  (w : world) (stop : nat)
  (Hdump : SolverStochastic.dump_every self_args = Some 0%nat)
  (Hstop : SolverStochastic.num_iter self_args = Some stop)
  (Hleft : (match resume with
            | None => 0
            | Some ck => SolverStochastic.ck_iter ck + 1
            end < stop)%nat) :
  (forall st iter w1,
     SolverStochastic.dump self_args st iter w1 = Raise ZeroDivisionError) /\
  (forall res,
     SolverStochastic.solve sampler wolfe_line_search_adagrad _FMIN self_args
       K gamma l r regargs param_init resume new_lr w <> Ok res).
Proof.
  split.
  - intros st iter w1. unfold SolverStochastic.dump. now rewrite Hdump.
  - pose proof (run_needs_its_first_iteration sampler
                  wolfe_line_search_adagrad _FMIN self_args K gamma l r
                  regargs param_init resume new_lr stop w Hstop) as H.
    destruct resume as [ck|]; cbn [SolverStochastic.start] in H;
      (apply H; [exact Hleft|]);
      intros res Hres; apply step_ends_with_dump in Hres;
      destruct Hres as (st1 & w1 & Hd);
      now apply dump_needs_a_positive_period in Hd.
Qed.

Lemma dump_every_zero_stops_the_run_witness :
  let zero_args :=
    {| SolverStochastic.lbfgs := false;
       SolverStochastic.base_lr := Some 1;
       SolverStochastic.eta := None;
       SolverStochastic.minibatch := Some 1%nat;
       SolverStochastic.num_iter := Some 3%nat;
       SolverStochastic.callback := SolverStochastic.NoCallback;
       SolverStochastic.dump_every := Some 0%nat;
       SolverStochastic.dump_name := None |} in
  let ck :=
    {| SolverStochastic.ck_iter := 0;
       SolverStochastic.ck_w := of_matrix 1 1 [[0]];
       SolverStochastic.ck_b := of_vector [0];
       SolverStochastic.ck_accum_grad := Some (Some [1; 1]);
       SolverStochastic.ck_base_lr := Some 1 |} in
  SolverStochastic.dump zero_args Demo.entry_state 0
    {| rank := 0; inbox := [] |}
  = Raise ZeroDivisionError /\
  SolverStochastic.solve Demo.sampler Demo.line_search Demo.fmin zero_args
    (Some 1%nat) 0 (Calls.of_loss Loss.loss_l2) Reg.reg_l2
    {| Reg.alpha := None |} NoneObject (Some ck) None
    {| rank := 0; inbox := Demo.peer_messages |}
  <> Ok (NoneObject, Demo.entry_state, {| rank := 0; inbox := [] |}).
Proof.
  cbv zeta.
  pose proof (dump_every_zero_stops_the_run Demo.sampler Demo.line_search
                Demo.fmin
                {| SolverStochastic.lbfgs := false;
                   SolverStochastic.base_lr := Some 1;
                   SolverStochastic.eta := None;
                   SolverStochastic.minibatch := Some 1%nat;
                   SolverStochastic.num_iter := Some 3%nat;
                   SolverStochastic.callback := SolverStochastic.NoCallback;
                   SolverStochastic.dump_every := Some 0%nat;
                   SolverStochastic.dump_name := None |}
                (Some 1%nat) 0 (Calls.of_loss Loss.loss_l2) Reg.reg_l2
                {| Reg.alpha := None |} NoneObject
                (Some {| SolverStochastic.ck_iter := 0;
                         SolverStochastic.ck_w := of_matrix 1 1 [[0]];
                         SolverStochastic.ck_b := of_vector [0];
                         SolverStochastic.ck_accum_grad := Some (Some [1; 1]);
                         SolverStochastic.ck_base_lr := Some 1 |})
                None {| rank := 0; inbox := Demo.peer_messages |} 3%nat
                eq_refl eq_refl ltac:(cbn; lia)) as [Hdump Hrun].
  split; [apply Hdump | apply Hrun].
Defined.

(** An Adagrad run cannot be resumed from a checkpoint that holds no
    accumulated-gradient array (one without the key, or one written in LBFGS
    mode, where the variable is [None]): [iter_start] is at least 1, so the
    first iteration does not create the array, and [accum_grad += g * g]
    fails; no such run with an iteration left returns. *)
Theorem resume_needs_the_accumulated_gradient
  (sampler : nat -> nat -> ndarray * SolverMC.labels * option vec)
  (wolfe_line_search_adagrad :
     vec -> (vec -> SolverMC.solver -> M (R * vec * SolverMC.solver)) ->
     SolverMC.solver -> R -> R -> M (R * SolverMC.solver))
  (_FMIN :
     (vec -> SolverMC.solver -> M (R * vec * SolverMC.solver)) -> vec ->
     SolverMC.solver -> M (vec * R * SolverMC.solver))
  (self_args : SolverStochastic.args) (K : option nat)
  (gamma : R) (l : SolverMC.loss_function) (r : SolverMC.reg_function)
  (regargs : Reg.kwargs) (param_init : object) (new_lr : option R)
  (w : world) (stop : nat) (ck : SolverStochastic.checkpoint)
  (Hmode : SolverStochastic.lbfgs self_args = false)
  (Hstop : SolverStochastic.num_iter self_args = Some stop)
  (Hleft : (SolverStochastic.ck_iter ck + 1 < stop)%nat)
  (Hck : forall a, SolverStochastic.ck_accum_grad ck <> Some (Some a)) :
  forall res,
    SolverStochastic.solve sampler wolfe_line_search_adagrad _FMIN self_args
      K gamma l r regargs param_init (Some ck) new_lr w <> Ok res.
Proof.
  pose proof (run_needs_its_first_iteration sampler
                wolfe_line_search_adagrad _FMIN self_args K gamma l r
                regargs param_init (Some ck) new_lr stop w Hstop) as H.
  cbn [SolverStochastic.start] in H. apply H; [exact Hleft|].
  intros [st' w'] Hres.
  apply (step_decomposes _ _ _ _ _ _ _ _ _ _ _ Hmode) in Hres.
  destruct Hres as (size & p & w1 & st1 & w2 & _ & Hp & Hu & _).
  apply prepare_of_a_resumed_run in Hp; [|lia].
  apply update_accumulates in Hu.
  destruct Hu as (f0 & g & solver & w3 & a & a' & blr & pf' & _ & Ha & _).
  rewrite Hp in Ha. cbn [SolverStochastic.accum_grad] in Ha.
  destruct (SolverStochastic.ck_accum_grad ck) as [[a0|]|] eqn:E;
    try discriminate.
  now apply (Hck a0).
Qed.

Lemma resume_needs_the_accumulated_gradient_witness :
  SolverStochastic.solve Demo.sampler Demo.line_search Demo.fmin
    Demo.adagrad_args (Some 1%nat) 0 (Calls.of_loss Loss.loss_l2) Reg.reg_l2
    {| Reg.alpha := None |} NoneObject
    (Some {| SolverStochastic.ck_iter := 0;
             SolverStochastic.ck_w := of_matrix 1 1 [[0]];
             SolverStochastic.ck_b := of_vector [0];
             SolverStochastic.ck_accum_grad := Some None;
             SolverStochastic.ck_base_lr := Some 1 |})
    None {| rank := 0; inbox := Demo.peer_messages |}
  <> Ok (NoneObject, Demo.entry_state, {| rank := 0; inbox := [] |}).
Proof.
  apply (resume_needs_the_accumulated_gradient Demo.sampler Demo.line_search
           Demo.fmin Demo.adagrad_args (Some 1%nat) 0
           (Calls.of_loss Loss.loss_l2) Reg.reg_l2 {| Reg.alpha := None |}
           NoneObject None {| rank := 0; inbox := Demo.peer_messages |}
           2%nat
           {| SolverStochastic.ck_iter := 0;
              SolverStochastic.ck_w := of_matrix 1 1 [[0]];
              SolverStochastic.ck_b := of_vector [0];
              SolverStochastic.ck_accum_grad := Some None;
              SolverStochastic.ck_base_lr := Some 1 |}
           eq_refl eq_refl).
  - cbn. lia.
  - intros a. discriminate.
Defined.

(** A checkpoint restores the run.  When an iteration ends with a due dump
    ([(iter + 1) % dump_every == 0]), the coordinator appends one record
    and the other workers write nothing; resuming from that record enters
    the loop at [iter + 1] with the [param], the accumulated gradient and
    the learning rate the iteration ended with ([new_lr], when given,
    replaces the learning rate), in either mode. *)
Theorem checkpoint_restores_the_run
  (sampler : nat -> nat -> ndarray * SolverMC.labels * option vec)
  (wolfe_line_search_adagrad :
     vec -> (vec -> SolverMC.solver -> M (R * vec * SolverMC.solver)) ->
     SolverMC.solver -> R -> R -> M (R * SolverMC.solver))
  (_FMIN :
     (vec -> SolverMC.solver -> M (R * vec * SolverMC.solver)) -> vec ->
     SolverMC.solver -> M (vec * R * SolverMC.solver))
  (self_args : SolverStochastic.args) (K : option nat)
  (iter_start iter every : nat) (st st' : SolverStochastic.run)
  (w w' : world)
  (Hstep : SolverStochastic.iteration sampler wolfe_line_search_adagrad
             _FMIN self_args K iter_start st iter w = Ok (st', w'))
  (Hevery : SolverStochastic.dump_every self_args = Some every)
  (Hdue : ((iter + 1) mod every = 0)%nat) :
  (rank w' <> 0%nat ->
   SolverStochastic.dumps st' = SolverStochastic.dumps st) /\
  (rank w' = 0%nat ->
   exists ck,
     SolverStochastic.dumps st' = SolverStochastic.dumps st ++ [ck] /\
     forall basic param_init new_lr,
       SolverStochastic.start self_args basic param_init (Some ck) new_lr
       = ((iter + 1)%nat,
          {| SolverStochastic.solver_basic := basic;
             SolverStochastic.param := SolverStochastic.param st';
             SolverStochastic.param_flat := None;
             SolverStochastic.accum_grad := SolverStochastic.accum_grad st';
             SolverStochastic.lr :=
               match new_lr with
               | Some l => Some l
               | None => SolverStochastic.lr st'
               end;
             SolverStochastic.dumps := [] |})).
Proof.
  apply step_leaves_a_pair in Hstep.
  destruct Hstep as (st1 & w1 & dim & k & wb & Hd & Hp & Hdumps).
  destruct (dump_keeps_the_variables _ _ _ _ _ _ Hd)
    as (-> & _ & Hparam & _ & Haccum & Hlr).
  destruct (dump_when_due _ _ _ _ _ _ _ _ _ Hd Hevery Hdue Hp)
    as (accum & base_lr & Ha & Hl & Hrec).
  rewrite Hdumps in Hrec. split.
  - intros Hrank. apply Nat.eqb_neq in Hrank. now rewrite Hrank in Hrec.
  - intros Hrank. rewrite Hrank in Hrec. cbn [Nat.eqb] in Hrec.
    eexists. split; [exact Hrec|]. intros basic param_init new_lr.
    unfold SolverStochastic.start.
    cbn [SolverStochastic.ck_iter SolverStochastic.ck_w SolverStochastic.ck_b
         SolverStochastic.ck_accum_grad SolverStochastic.ck_base_lr].
    rewrite Hparam, Hp, Haccum, Ha, Hlr, Hl.
    destruct accum, new_lr; reflexivity.
Qed.

Lemma checkpoint_restores_the_run_witness :
  let dumping_args := {| SolverStochastic.lbfgs := false;
                    SolverStochastic.base_lr := None;
                    SolverStochastic.eta := Some 1;
                    SolverStochastic.minibatch := Some 1%nat;
                    SolverStochastic.num_iter := Some 2%nat;
                    SolverStochastic.callback := SolverStochastic.NoCallback;
                    SolverStochastic.dump_every := Some 1%nat;
                    SolverStochastic.dump_name := Some "dump.npz"%string |} in
  exists st1 w1,
    SolverStochastic.iteration Demo.sampler Demo.line_search Demo.fmin
      dumping_args (Some 1%nat) 0%nat Demo.entry_state 0%nat
      {| rank := 0; inbox := Demo.peer_messages |} = Ok (st1, w1) /\
    exists ck,
      SolverStochastic.dumps st1
      = SolverStochastic.dumps Demo.entry_state ++ [ck] /\
      fst (SolverStochastic.start dumping_args
             (SolverStochastic.solver_basic st1) NoneObject (Some ck) None)
      = 1%nat.
Proof.
  cbv zeta. do 2 eexists.
  match goal with |- ?G /\ _ => assert (Hstep : G) by evaluate end.
  split; [exact Hstep|].
  destruct (proj2 (checkpoint_restores_the_run Demo.sampler Demo.line_search
                     Demo.fmin {| SolverStochastic.lbfgs := false;
                    SolverStochastic.base_lr := None;
                    SolverStochastic.eta := Some 1;
                    SolverStochastic.minibatch := Some 1%nat;
                    SolverStochastic.num_iter := Some 2%nat;
                    SolverStochastic.callback := SolverStochastic.NoCallback;
                    SolverStochastic.dump_every := Some 1%nat;
                    SolverStochastic.dump_name := Some "dump.npz"%string |}
                     (Some 1%nat) 0%nat 0%nat 1%nat _ _ _ _ Hstep eq_refl
                     eq_refl) eq_refl) as (ck & Hck & Hstart).
  exists ck. split; [exact Hck|]. now rewrite Hstart.
Defined.

(** An Adagrad iteration after the first of its run does not call
    [presolve]: it needs the flat parameter of the iteration before, puts
    the new minibatch into the solver and keeps its [K], [dim], number of
    data and buffers as the first minibatch left them; it takes part in the
    two reductions of one evaluation, keeps the learning rate and the length
    of the flat parameter, and its [param] is the new flat parameter
    unpacked. *)
Theorem later_adagrad_iteration
  (sampler : nat -> nat -> ndarray * SolverMC.labels * option vec)
  (wolfe_line_search_adagrad :
     vec -> (vec -> SolverMC.solver -> M (R * vec * SolverMC.solver)) ->
     SolverMC.solver -> R -> R -> M (R * SolverMC.solver))
  (_FMIN :
     (vec -> SolverMC.solver -> M (R * vec * SolverMC.solver)) -> vec ->
     SolverMC.solver -> M (vec * R * SolverMC.solver))
  (self_args : SolverStochastic.args) (K : option nat)
  (iter_start iter : nat) (st st' : SolverStochastic.run) (w w' : world)
  (Hmode : SolverStochastic.lbfgs self_args = false)
  (Hlater : iter <> iter_start)
  (Hstep : SolverStochastic.iteration sampler wolfe_line_search_adagrad
             _FMIN self_args K iter_start st iter w = Ok (st', w')) :
  exists size pf pf' wb m1 m2,
    SolverStochastic.minibatch self_args = Some size /\
    SolverStochastic.param_flat st = Some pf /\
    SolverStochastic.param_flat st' = Some pf' /\
    length pf' = length pf /\
    inbox w = m1 :: m2 :: inbox w' /\ rank w' = rank w /\
    SolverStochastic.lr st' = SolverStochastic.lr st /\
    (let s := SolverStochastic.solver_basic st in
     let s' := SolverStochastic.solver_basic st' in
     let batch := sampler (iter - iter_start)%nat size in
     SolverMC._X s' = fst (fst batch) /\ SolverMC._Y s' = snd (fst batch) /\
     SolverMC._weight s' = snd batch /\
     SolverMC._K s' = SolverMC._K s /\ SolverMC._dim s' = SolverMC._dim s /\
     SolverMC._num_data s' = SolverMC._num_data s /\
     SolverMC.unflatten_params (SolverMC._K s) (SolverMC._dim s) pf' = Ok wb /\
     SolverStochastic.param st'
     = SolverStochastic.pair_object (SolverMC._dim s) (SolverMC._K s) wb).
Proof.
  apply (step_decomposes _ _ _ _ _ _ _ _ _ _ _ Hmode) in Hstep.
  destruct Hstep as (size & p & w1 & st1 & w2 & Hm & Hp & Hu & Hd).
  apply (prepare_after_the_first _ _ _ _ _ _ _ _ _ _ Hlater) in Hp.
  destruct Hp as (-> & Hpf & _ & Hlr & Hs).
  apply update_step in Hu.
  destruct Hu as (f0 & g & pf' & wb & Hobj & Hlr1 & Hpf1 & Hlen & _ & Hun
                  & Hpar).
  apply obj_sizes in Hobj.
  destruct Hobj as (_ & Hin & Hrank & _ & HK & Hdim & HX & HY & Hw & Hnum).
  destruct (dump_keeps_the_variables _ _ _ _ _ _ Hd)
    as (-> & Hsb & Hparam & Hflat & _ & Hlr2).
  destruct Hin as (m1 & m2 & Hin).
  rewrite Hs in HK, Hdim, HX, HY, Hw, Hnum. cbn in HK, Hdim, HX, HY, Hw, Hnum.
  exists size, (SolverStochastic.p_param_flat p), pf', wb, m1, m2.
  cbv zeta. rewrite Hsb, Hparam, Hflat, Hlr2, <- HK, <- Hdim.
  repeat (split; [first [assumption | congruence]|]).
  exact Hpar.
Qed.

Lemma later_adagrad_iteration_witness :
  let step :=
    SolverStochastic.iteration Demo.sampler Demo.line_search Demo.fmin
      Demo.adagrad_args (Some 1%nat) 0%nat in
  exists st1 w1 st2 w2,
    step Demo.entry_state 0%nat
      {| rank := 0; inbox := Demo.peer_messages |} = Ok (st1, w1) /\
    step st1 1%nat w1 = Ok (st2, w2) /\
    SolverStochastic.lr st2 = SolverStochastic.lr st1 /\
    SolverMC._num_data (SolverStochastic.solver_basic st2)
    = SolverMC._num_data (SolverStochastic.solver_basic st1).
Proof.
  cbv zeta. do 4 eexists. split; [evaluate|].
  match goal with |- ?G /\ _ => assert (Hstep : G) by evaluate end.
  split; [exact Hstep|].
  destruct (later_adagrad_iteration Demo.sampler Demo.line_search Demo.fmin
              Demo.adagrad_args (Some 1%nat) 0%nat 1%nat _ _ _ _ eq_refl
              ltac:(discriminate) Hstep)
    as (size & pf & pf' & wb & m1 & m2 & _ & _ & _ & _ & _ & _ & Hlr & Hs).
  cbv zeta in Hs. split; [exact Hlr | apply Hs].
Defined.

(** ** The one-of-K coding and the loss on class indices *)

Section OneOfK.

Import SolverMC Classifier.

Lemma length_update_at j f (row : vec) :
  length (update_at j f row) = length row.
Proof.
  revert j; induction row as [|x row IH]; intros [|j]; simpl; auto.
Qed.

Lemma nth_update_at j f (row : vec) i :
  (j < length row)%nat ->
  nth i (update_at j f row) 0
  = if (i =? j)%nat then f (nth i row 0) else nth i row 0.
Proof.
  revert j i; induction row as [|x row IH]; intros [|j] [|i]; simpl;
    intros Hj; try lia; auto.
  apply IH. lia.
Qed.

Lemma has_shape_coding n k fill (columns : list (option nat)) :
  length columns = n ->
  has_shape n k (zip_with set_one (repeat (repeat (1 * fill) k) n) columns).
Proof.
  revert columns; induction n as [|n IH]; intros [|c columns] Hl;
    simpl in Hl; try discriminate.
  - split; [reflexivity | constructor].
  - destruct (IH columns) as [Hn HF]; [lia|].
    split; [simpl; now rewrite Hn|].
    constructor; [|exact HF].
    destruct c; simpl; [rewrite length_update_at|]; apply repeat_length.
Qed.

Lemma entry_coding k fill (y : list Z) i j :
  (i < length y)%nat -> (j < k)%nat ->
  entry (zip_with set_one (repeat (repeat (1 * fill) k) (length y))
           (map (column_of (Z.of_nat k)) y)) i j
  = if (nth i y 0 =? Z.of_nat j)%Z then 1 else 1 * fill.
Proof.
  intros Hi Hj. unfold entry.
  rewrite (nth_zip_with _ _ _ _ [] None)
    by (rewrite ?repeat_length, ?length_map; lia).
  rewrite (nth_indep _ [] (repeat (1 * fill) k))
    by (rewrite repeat_length; lia).
  rewrite nth_repeat.
  rewrite (nth_indep _ None (column_of (Z.of_nat k) 0%Z))
    by (rewrite length_map; lia).
  rewrite map_nth. unfold column_of, set_one.
  destruct (Z.leb_spec 0 (nth i y 0%Z)), (Z.ltb_spec (nth i y 0%Z) (Z.of_nat k));
    cbn [andb].
  - rewrite nth_update_at by (rewrite repeat_length; lia).
    rewrite nth_repeat_below by exact Hj.
    destruct (Nat.eqb_spec j (Z.to_nat (nth i y 0%Z))),
      (Z.eqb_spec (nth i y 0%Z) (Z.of_nat j)); try reflexivity; lia.
  - rewrite nth_repeat_below by exact Hj.
    destruct (Z.eqb_spec (nth i y 0%Z) (Z.of_nat j)); [lia | reflexivity].
  - rewrite nth_repeat_below by exact Hj.
    destruct (Z.eqb_spec (nth i y 0%Z) (Z.of_nat j)); [lia | reflexivity].
  - rewrite nth_repeat_below by exact Hj.
    destruct (Z.eqb_spec (nth i y 0%Z) (Z.of_nat j)); [lia | reflexivity].
Qed.

Lemma coding_of_an_index_vector (y : list Z) fill (k : nat) w :
  to_one_of_k_coding (IndexVector y) fill (Some (Z.of_nat k)) w
  = Ok (zip_with set_one (repeat (repeat (1 * fill) k) (length y))
          (map (column_of (Z.of_nat k)) y), w).
Proof.
  unfold to_one_of_k_coding, Mpi.bind, ret, lift, len, dimension.
  cbn [labels_shape length Nat.ltb Nat.leb].
  destruct (Z.ltb_spec (Z.of_nat k) 0); [lia|].
  now rewrite Nat2Z.id.
Qed.

Lemma vdot_zero_row (row : vec) k :
  vdot row (repeat (1 * 0) k) = 0.
Proof.
  revert k; induction row as [|x row IH]; intros [|k]; try reflexivity.
  cbn [repeat]. rewrite vdot_cons, IH. lra.
Qed.

Lemma update_minus_one_hot (row : vec) j :
  (j < length row)%nat ->
  update_at j (fun x => x - 1) row
  = zip_with Rminus row
      (update_at j (fun _ => 1) (repeat (1 * 0) (length row))).
Proof.
  revert j; induction row as [|x row IH]; intros [|j] Hj; simpl in Hj;
    try lia; cbn [length repeat update_at zip_with].
  - f_equal. clear. induction row as [|z row IH]; [reflexivity|].
    cbn [length repeat zip_with]. rewrite <- IH. f_equal. lra.
  - f_equal; [lra|]. apply IH. lia.
Qed.

Lemma nth_as_dot (row : vec) j :
  (j < length row)%nat ->
  nth j row 0
  = vdot row (update_at j (fun _ => 1) (repeat (1 * 0) (length row))).
Proof.
  revert j; induction row as [|x row IH]; intros [|j] Hj; simpl in Hj;
    try lia; cbn [length repeat update_at nth]; rewrite vdot_cons.
  - rewrite vdot_zero_row. lra.
  - rewrite <- IH by lia. lra.
Qed.

(** the two indexed statements of the loss on class indices, on the
    one-of-K coding with [fill = 0] *)
Lemma indexed_rows K (y : list Z) : forall A : mat,
  has_shape (length y) K A ->
  Forall (fun yi => (0 <= yi < Z.of_nat K)%Z) y ->
  let Y1 := zip_with set_one (repeat (repeat (1 * 0) K) (length y))
              (map (column_of (Z.of_nat K)) y) in
  sub1_at A y = Some (ewise Rminus A Y1) /\
  exists picked,
    take_at A y = Some picked /\ vsum picked = vdot (flat A) (flat Y1).
Proof.
  induction y as [|yi y IH]; intros A [Hn HF] Hy; cbv zeta.
  - destruct A; [|discriminate]. split; [reflexivity|].
    exists []. split; reflexivity.
  - destruct A as [|row A]; [discriminate|].
    inversion HF as [|? ? Hrow HA]; subst. inversion Hy as [|? ? Hyi Hys]; subst.
    destruct (IH A) as (Hsub & picked & Htake & Hsum);
      [split; [simpl in Hn; lia | exact HA] | exact Hys |].
    cbv zeta in Hsub, Hsum.
    assert (Hidx : py_index (length row) yi = Some (Z.to_nat yi)).
    { unfold py_index.
      destruct (Z.leb_spec 0 yi), (Z.ltb_spec yi (Z.of_nat (length row)));
        try lia. reflexivity. }
    assert (Hcol : column_of (Z.of_nat (length row)) yi
                   = Some (Z.to_nat yi)).
    { unfold column_of.
      destruct (Z.leb_spec 0 yi), (Z.ltb_spec yi (Z.of_nat (length row)));
        try lia. reflexivity. }
    cbn [sub1_at take_at length repeat map zip_with].
    rewrite Hidx, Hsub, Htake, Hcol. cbn [set_one]. split.
    + unfold ewise. cbn [zip_with]. do 2 f_equal.
      apply update_minus_one_hot. lia.
    + eexists. split; [reflexivity|].
      change (vsum (nth (Z.to_nat yi) row 0 :: picked))
        with (nth (Z.to_nat yi) row 0 + vsum picked).
      unfold flat. cbn [concat]. fold (flat A).
      rewrite vdot_app by (now rewrite length_update_at, repeat_length).
      rewrite Hsum. f_equal. apply nth_as_dot. lia.
Qed.

Lemma has_shape_softmax_into n K (pred : mat) (mx : vec) :
  has_shape n K pred -> length mx = n ->
  has_shape n K (Loss2.softmax_into pred mx).
Proof.
  intros HP Hmx. unfold Loss2.softmax_into.
  assert (He : has_shape n K
                 (emap Mathutil.exp (ewise Rminus pred (col mx pred)))).
  { apply has_shape_emap, has_shape_ewise; auto.
    apply has_shape_col; auto. }
  apply has_shape_ewise; auto. apply has_shape_col; auto.
  rewrite length_rowsum. now destruct He.
Qed.

Lemma py_index_wraps K yi :
  (- Z.of_nat K <= yi < Z.of_nat K)%Z ->
  py_index K (if (yi <? 0)%Z then (yi + Z.of_nat K)%Z else yi)
  = py_index K yi.
Proof.
  intros H. destruct (Z.ltb_spec yi 0); [|reflexivity].
  unfold py_index.
  destruct (Z.leb_spec 0 (yi + Z.of_nat K)),
    (Z.ltb_spec (yi + Z.of_nat K) (Z.of_nat K)); try lia.
  destruct (Z.leb_spec 0 yi); try lia.
  destruct (Z.leb_spec (- Z.of_nat K) yi), (Z.ltb_spec yi 0); try lia.
  reflexivity.
Qed.

Lemma indexing_wraps K (y : list Z) : forall A : mat,
  Forall (fun r => length r = K) A ->
  Forall (fun yi => (- Z.of_nat K <= yi < Z.of_nat K)%Z) y ->
  let wrapped :=
    map (fun yi => if (yi <? 0)%Z then (yi + Z.of_nat K)%Z else yi) y in
  sub1_at A wrapped = sub1_at A y /\ take_at A wrapped = take_at A y.
Proof.
  induction y as [|yi y IH]; intros A HA Hy; cbv zeta.
  - split; reflexivity.
  - destruct A as [|row A]; [split; reflexivity|].
    inversion HA as [|? ? Hrow HA']; subst.
    inversion Hy as [|? ? Hyi Hys]; subst.
    destruct (IH A HA' Hys) as [Hsub Htake]. cbv zeta in Hsub, Htake.
    cbn [map sub1_at take_at].
    now rewrite (py_index_wraps _ _ Hyi), Hsub, Htake.
Qed.

Lemma indexing_fails K (y : list Z) : forall A : mat,
  Forall (fun r => length r = K) A ->
  Exists (fun yi => (yi < - Z.of_nat K \/ Z.of_nat K <= yi)%Z) y ->
  sub1_at A y = None.
Proof.
  induction y as [|yi y IH]; intros A HA Hy; [inversion Hy|].
  destruct A as [|row A]; [reflexivity|].
  inversion HA as [|? ? Hrow HA']; subst. cbn [sub1_at].
  inversion Hy as [? ? Hbad|? ? Hlater]; subst.
  - unfold py_index.
    destruct (Z.leb_spec 0 yi), (Z.ltb_spec yi (Z.of_nat (length row)));
      cbn [andb]; try lia;
      destruct (Z.leb_spec (- Z.of_nat (length row)) yi),
        (Z.ltb_spec yi 0); cbn [andb]; try lia; reflexivity.
  - rewrite (IH A HA' Hlater). now destruct (py_index _ _).
Qed.

Lemma indexing_runs_out (y : list Z) : forall A : mat,
  (length A < length y)%nat -> sub1_at A y = None.
Proof.
  induction y as [|yi y IH]; intros A Hl; simpl in Hl; [lia|].
  destruct A as [|row A]; [reflexivity|]. simpl in Hl. cbn [sub1_at].
  rewrite (IH A) by lia. now destruct (py_index _ _).
Qed.

End OneOfK.

(** [to_one_of_k_coding] of a vector of integer labels with [K] classes
    returns an array of shape [len(Y), K] whose entry [i, j] is 1 when
    [Y[i] = j] and [1 * fill] otherwise, so a label outside [0, K) gives a
    row of [fill] and no error, and the call takes part in no collective; a
    negative [K] is a ValueError.  Without [K] the call takes part in one max
    reduction and codes with one class more than the largest label of all
    workers.  An array of two or more dimensions is a ValueError. *)
Theorem one_of_k_coding_of_labels (y : list Z) (fill : R) (w : world) :
  (forall k : nat,
     exists Yout,
       Classifier.to_one_of_k_coding (SolverMC.IndexVector y) fill
         (Some (Z.of_nat k)) w = Ok (Yout, w) /\
       has_shape (length y) k Yout /\
       forall i j, (i < length y)%nat -> (j < k)%nat ->
         entry Yout i j
         = if (nth i y 0 =? Z.of_nat j)%Z then 1 else 1 * fill) /\
  (forall K, (K < 0)%Z ->
     Classifier.to_one_of_k_coding (SolverMC.IndexVector y) fill (Some K) w
     = Raise ValueError) /\
  (forall others rest,
     y <> [] -> inbox w = PeerIndex others :: rest ->
     exists ymax,
       In ymax y /\ Forall (fun z => (z <= ymax)%Z) y /\
       Classifier.to_one_of_k_coding (SolverMC.IndexVector y) fill None w
       = Classifier.to_one_of_k_coding (SolverMC.IndexVector y) fill
           (Some (Z.max ymax others + 1)%Z)
           {| rank := rank w; inbox := rest |}) /\
  (forall a K, (1 < length (shape a))%nat ->
     Classifier.to_one_of_k_coding (SolverMC.FloatArray a) fill K w
     = Raise ValueError).
Proof.
  split; [|split; [|split]].
  - intros k. eexists. split; [apply coding_of_an_index_vector|]. split.
    + apply has_shape_coding. now rewrite length_map.
    + intros i j Hi Hj. now apply entry_coding.
  - intros K HK.
    unfold Classifier.to_one_of_k_coding, Mpi.bind, ret, lift,
      Classifier.len, SolverMC.dimension.
    cbn [SolverMC.labels_shape length Nat.ltb Nat.leb].
    destruct (Z.ltb_spec K 0); [reflexivity | lia].
  - intros others rest Hy Hw.
    destruct (index_max_is_the_maximum y Hy) as (ymax & Hmax & Hin & Hall).
    exists ymax. split; [exact Hin|]. split; [exact Hall|].
    unfold Classifier.to_one_of_k_coding.
    cbn [SolverMC.labels_shape length Nat.ltb Nat.leb].
    unfold allreduce_max, receive. unfold Mpi.bind, lift, ret.
    rewrite Hmax, Hw. reflexivity.
  - intros a K Ha. unfold Classifier.to_one_of_k_coding.
    cbn [SolverMC.labels_shape].
    destruct (Nat.ltb_spec 1 (length (shape a))); [reflexivity | lia].
Qed.

Lemma one_of_k_coding_of_labels_witness :
  Classifier.to_one_of_k_coding (SolverMC.IndexVector [2; 0; -1; 5]%Z) (-1)
    (Some 3%Z) {| rank := 1; inbox := [] |}
  = Ok ([[1 * -1; 1 * -1; 1]; [1; 1 * -1; 1 * -1];
         [1 * -1; 1 * -1; 1 * -1]; [1 * -1; 1 * -1; 1 * -1]],
        {| rank := 1; inbox := [] |}) /\
  Classifier.to_one_of_k_coding (SolverMC.IndexVector [2; 0; -1; 5]%Z) (-1)
    (Some (-1)%Z) {| rank := 1; inbox := [] |}
  = Raise ValueError.
Proof.
  split; [evaluate|].
  apply (proj1 (proj2 (one_of_k_coding_of_labels [2; 0; -1; 5]%Z (-1)
                         {| rank := 1; inbox := [] |}))).
  lia.
Defined.

(** The multiclass logistic loss on a vector of class indices is the one on
    the 0-1 matrix: for labels in [0, K) and predictions of shape [n, K],
    [Loss2.loss_multiclass_logistic_yvector] returns the value, the gradient
    and the cache that [Loss2.loss_multiclass_logistic] returns on
    [to_one_of_k_coding(Y, fill = 0, K)], and both do return. *)
Theorem yvector_is_the_loss_on_the_coding (n K : nat) (y : list Z)
  (pred gpred : mat) (weight : option vec) (cache : list mat) (w : world)
  (HP : has_shape n K pred) (HG : has_shape n K gpred)
  (Hy : length y = n)
  (Hvalid : Forall (fun yi => (0 <= yi < Z.of_nat K)%Z) y) :
  exists Y1 returned,
    Classifier.to_one_of_k_coding (SolverMC.IndexVector y) 0
      (Some (Z.of_nat K)) w = Ok (Y1, w) /\
    Loss2.loss_multiclass_logistic_yvector y pred weight gpred cache
    = Some returned /\
    Loss2.loss_multiclass_logistic Y1 pred weight gpred cache
    = Some returned.
Proof.
  subst n.
  assert (Hmx : exists mx, rowmax pred = Some mx /\ length mx = length y).
  { destruct K as [|K].
    - destruct y as [|yi y].
      + destruct HP as [Hn _]. destruct pred; [|discriminate].
        exists []. split; reflexivity.
      + inversion Hvalid; subst. lia.
    - apply (rowmax_of_nonempty_rows _ (S K)); [exact HP | lia]. }
  destruct Hmx as (mx & Hmx & Hlen).
  eexists. eexists. split; [apply coding_of_an_index_vector|].
  unfold Loss2.loss_multiclass_logistic_yvector,
    Loss2.loss_multiclass_logistic.
  rewrite scratch_is_pred, Hmx.
  pose proof (has_shape_softmax_into _ _ _ _ HP Hlen) as HS.
  rewrite (assign_same_shape (length y) K) by assumption.
  destruct (indexed_rows K y _ HS Hvalid) as [Hsub _].
  destruct (indexed_rows K y _ (has_shape_emap _ _ Mathutil.log _ HS) Hvalid)
    as (_ & picked & Htake & Hsum).
  cbv zeta in Hsub, Hsum. rewrite Hsub, Htake, Hsum. split; reflexivity.
Qed.

Lemma yvector_is_the_loss_on_the_coding_witness :
  exists Y1 returned,
    Classifier.to_one_of_k_coding (SolverMC.IndexVector [1; 0]%Z) 0
      (Some 2%Z) {| rank := 0; inbox := [] |}
    = Ok (Y1, {| rank := 0; inbox := [] |}) /\
    Loss2.loss_multiclass_logistic_yvector [1; 0]%Z [[0; 0]; [1; 1]] None
      [[5; 5]; [5; 5]] [] = Some returned /\
    Loss2.loss_multiclass_logistic Y1 [[0; 0]; [1; 1]] None
      [[5; 5]; [5; 5]] [] = Some returned.
Proof.
  apply (yvector_is_the_loss_on_the_coding 2 2 [1; 0]%Z [[0; 0]; [1; 1]]
           [[5; 5]; [5; 5]] None [] {| rank := 0; inbox := [] |}).
  - split; [reflexivity | repeat constructor].
  - split; [reflexivity | repeat constructor].
  - reflexivity.
  - repeat constructor; lia.
Defined.

(** The class indices of [Loss2.loss_multiclass_logistic_yvector] are Python
    indices into the [K] columns: a label in [-K, 0) is read from the end
    (the label [y] as the class [y + K]), a label outside [-K, K) fails
    (IndexError), and so do more labels than predictions. *)
Theorem yvector_labels_are_python_indices (n K : nat) (y : list Z)
  (pred gpred : mat) (weight : option vec) (cache : list mat)
  (HP : has_shape n K pred) (HG : has_shape n K gpred) :
  (Forall (fun yi => (- Z.of_nat K <= yi < Z.of_nat K)%Z) y ->
   Loss2.loss_multiclass_logistic_yvector
     (map (fun yi => if (yi <? 0)%Z then (yi + Z.of_nat K)%Z else yi) y)
     pred weight gpred cache
   = Loss2.loss_multiclass_logistic_yvector y pred weight gpred cache) /\
  (Exists (fun yi => (yi < - Z.of_nat K \/ Z.of_nat K <= yi)%Z) y ->
   Loss2.loss_multiclass_logistic_yvector y pred weight gpred cache = None) /\
  ((n < length y)%nat ->
   Loss2.loss_multiclass_logistic_yvector y pred weight gpred cache = None).
Proof.
  unfold Loss2.loss_multiclass_logistic_yvector. rewrite scratch_is_pred.
  destruct (rowmax pred) as [mx|] eqn:Hmx; [|repeat split; reflexivity].
  pose proof (rowmax_length _ _ Hmx) as Hlen.
  assert (Hn : length mx = n) by (destruct HP; congruence).
  pose proof (has_shape_softmax_into _ _ _ _ HP Hn) as HS.
  rewrite (assign_same_shape n K) by assumption.
  split; [|split].
  - intros Hy.
    destruct (indexing_wraps K y _ (proj2 HS) Hy) as [-> _].
    destruct (indexing_wraps K y _
                (proj2 (has_shape_emap _ _ Mathutil.log _ HS)) Hy)
      as [_ ->].
    reflexivity.
  - intros Hy. now rewrite (indexing_fails K y _ (proj2 HS) Hy).
  - intros Hy. rewrite indexing_runs_out; [reflexivity|].
    destruct HS as [-> _]. exact Hy.
Qed.

Lemma yvector_labels_are_python_indices_witness :
  Loss2.loss_multiclass_logistic_yvector [1; 0]%Z [[0; 0]; [1; 1]] None
    [[5; 5]; [5; 5]] []
  = Loss2.loss_multiclass_logistic_yvector [-1; 0]%Z [[0; 0]; [1; 1]] None
      [[5; 5]; [5; 5]] [] /\
  Loss2.loss_multiclass_logistic_yvector [2; 0]%Z [[0; 0]; [1; 1]] None
    [[5; 5]; [5; 5]] [] = None.
Proof.
  assert (HP : has_shape 2 2 [[0; 0]; [1; 1]])
    by (split; [reflexivity | repeat constructor]).
  assert (HG : has_shape 2 2 [[5; 5]; [5; 5]])
    by (split; [reflexivity | repeat constructor]).
  split.
  - apply (proj1 (yvector_labels_are_python_indices 2 2 [-1; 0]%Z _ _ None
                    [] HP HG)).
    repeat constructor; lia.
  - apply (proj1 (proj2 (yvector_labels_are_python_indices 2 2 [2; 0]%Z _ _
                           None [] HP HG))).
    constructor. right. cbn. lia.
Defined.

(** ** The evaluation criteria *)

Section Criteria.

Import SolverMC Evaluator.

Lemma squared_difference_flips n K (Y pred : mat) :
  has_shape n K Y -> has_shape n K pred ->
  emap (fun d => d ^ 2) (ewise Rminus Y pred)
  = emap (fun d => d * d) (ewise Rminus pred Y).
Proof.
  intros HY HP. by_entries n K. lra.
Qed.

Lemma length_update_row i f (A : mat) :
  length (update_row i f A) = length A.
Proof.
  revert i; induction A as [|row A IH]; intros [|i]; simpl; auto.
Qed.

Lemma nth_update_row i f (A : mat) a :
  (i < length A)%nat ->
  nth a (update_row i f A) []
  = if (a =? i)%nat then f (nth a A []) else nth a A [].
Proof.
  revert i a; induction A as [|row A IH]; intros [|i] [|a]; simpl;
    intros Hi; try lia; auto.
  apply IH. lia.
Qed.

Lemma has_shape_update_row n K i f (A : mat) :
  has_shape n K A -> (forall r, length (f r) = length r) ->
  has_shape n K (update_row i f A).
Proof.
  intros [Hn HF] Hf. split; [now rewrite length_update_row|].
  clear Hn. revert i; induction HF as [|row A Hrow HF IH]; intros [|i];
    simpl; constructor; auto. now rewrite Hf.
Qed.

(** the number of pairs [(a, b)] among the pairs *)
Lemma count_all_counts nc : forall (pairs : list (Z * Z)) (table : mat),
  has_shape nc nc table ->
  Forall (fun yp => (0 <= fst yp < Z.of_nat nc)%Z /\
                    (0 <= snd yp < Z.of_nat nc)%Z) pairs ->
  exists table',
    count_all nc table pairs = Ok table' /\ has_shape nc nc table' /\
    forall a b, (a < nc)%nat -> (b < nc)%nat ->
      entry table' a b
      = entry table a b
        + INR (length (filter (fun yp => (fst yp =? Z.of_nat a)%Z
                                         && (snd yp =? Z.of_nat b)%Z)
                         pairs)).
Proof.
  induction pairs as [|[y p] pairs IH]; intros table HT Hp.
  - exists table. split; [reflexivity|]. split; [exact HT|].
    intros a b _ _. cbn. lra.
  - inversion Hp as [|? ? [Hy Hq] Hrest]; subst. cbn [fst snd] in Hy, Hq.
    assert (Hiy : py_index nc y = Some (Z.to_nat y)).
    { unfold py_index.
      destruct (Z.leb_spec 0 y), (Z.ltb_spec y (Z.of_nat nc)); try lia.
      reflexivity. }
    assert (Hip : py_index nc p = Some (Z.to_nat p)).
    { unfold py_index.
      destruct (Z.leb_spec 0 p), (Z.ltb_spec p (Z.of_nat nc)); try lia.
      reflexivity. }
    cbn [count_all]. unfold count_one. cbn [fst snd]. rewrite Hiy, Hip.
    cbn [Py.bind].
    set (table1 := update_row (Z.to_nat y)
                     (update_at (Z.to_nat p) (fun x => x + 1)) table).
    assert (HT1 : has_shape nc nc table1).
    { apply has_shape_update_row; [exact HT|].
      intros r. apply length_update_at. }
    destruct (IH table1 HT1 Hrest) as (table' & Hrun & HT' & Hent).
    exists table'. split; [exact Hrun|]. split; [exact HT'|].
    intros a b Ha Hb. rewrite (Hent a b Ha Hb). cbn [filter fst snd].
    assert (Hone : entry table1 a b
                   = entry table a b
                     + if ((y =? Z.of_nat a)%Z && (p =? Z.of_nat b)%Z)
                       then 1 else 0).
    { unfold entry, table1.
      rewrite nth_update_row by (destruct HT as [-> _]; lia).
      destruct (Nat.eqb_spec a (Z.to_nat y)) as [Hay|Hay].
      - rewrite nth_update_at
          by (rewrite (has_shape_row nc nc table a HT Ha); lia).
        destruct (Z.eqb_spec y (Z.of_nat a)); [|lia]. cbn [andb].
        destruct (Nat.eqb_spec b (Z.to_nat p)),
          (Z.eqb_spec p (Z.of_nat b)); try lia; lra.
      - destruct (Z.eqb_spec y (Z.of_nat a)); [lia|]. cbn [andb]. lra. }
    rewrite Hone.
    destruct ((y =? Z.of_nat a)%Z && (p =? Z.of_nat b)%Z).
    + cbn [length]. rewrite S_INR. lra.
    + lra.
Qed.

Lemma count_all_fails nc : forall (pairs : list (Z * Z)) (table : mat),
  Exists (fun yp => py_index nc (snd yp) = None) pairs ->
  count_all nc table pairs = Raise IndexError.
Proof.
  induction pairs as [|[y p] pairs IH]; intros table Hbad;
    [inversion Hbad|].
  cbn [count_all]. unfold count_one. cbn [fst snd].
  inversion Hbad as [? ? Hnow|? ? Hlater]; subst.
  - cbn [snd] in Hnow. rewrite Hnow. now destruct (py_index nc y).
  - destruct (py_index nc y), (py_index nc p); cbn [Py.bind];
      try reflexivity. now apply IH.
Qed.

Lemma index_max_of_the_top (Y : list Z) top :
  In top Y -> Forall (fun y => (y <= top)%Z) Y -> index_max Y = Ok top.
Proof.
  intros Hin Hall.
  destruct (index_max_is_the_maximum Y) as (m & Hm & Hinm & Hallm).
  { intros ->. contradiction. }
  rewrite Forall_forall in Hall, Hallm.
  pose proof (Hall m Hinm). pose proof (Hallm top Hin).
  rewrite Hm. f_equal. lia.
Qed.

Lemma agreeing_at_most (pairs : list (Z * Z)) :
  (length (filter (fun b : bool => b)
             (map (fun yp => (fst yp =? snd yp)%Z) pairs))
   <= length pairs)%nat.
Proof.
  induction pairs as [|[y p] pairs IH]; [reflexivity|].
  cbn [map filter fst snd]. destruct (y =? p)%Z; cbn [length]; lia.
Qed.

Lemma all_agree (Y pred : list Z) :
  length Y = length pred ->
  (length (filter (fun b : bool => b)
             (map (fun yp => (fst yp =? snd yp)%Z) (combine Y pred)))
   = length Y <-> Y = pred).
Proof.
  revert pred; induction Y as [|y Y IH]; intros [|p pred] Hl; simpl in Hl;
    try discriminate.
  - split; reflexivity.
  - cbn [combine map filter fst snd].
    pose proof (agreeing_at_most (combine Y pred)) as Hle.
    rewrite length_combine in Hle.
    destruct (Z.eqb_spec y p) as [->|Hne]; cbn [length].
    + split; intros H.
      * f_equal. apply (IH pred); lia.
      * injection H as H. f_equal. apply (IH pred); [lia | exact H].
    + split; [lia | congruence].
Qed.

Lemma Forall_combine (P Q : Z -> Prop) (Y pred : list Z) :
  Forall P Y -> Forall Q pred ->
  Forall (fun yp => P (fst yp) /\ Q (snd yp)) (combine Y pred).
Proof.
  intros HY; revert pred; induction HY as [|y Y Hy HY IH];
    intros pred HP; [constructor|].
  destruct HP as [|p pred Hp HP]; constructor; auto.
Qed.

Lemma Exists_combine (Q : Z -> Prop) (Y pred : list Z) :
  Exists Q (firstn (length Y) pred) ->
  Exists (fun yp => Q (snd yp)) (combine Y pred).
Proof.
  revert pred; induction Y as [|y Y IH]; intros [|p pred] H;
    cbn [length firstn combine] in *; try (now inversion H).
  inversion H as [? ? Hnow|? ? Hlater]; subst;
    [now constructor | constructor 2; now apply IH].
Qed.

Lemma entry_zeros nc a b : entry (repeat (repeat 0 nc) nc) a b = 0.
Proof.
  unfold entry. destruct (Nat.lt_ge_cases a nc) as [Ha|Ha].
  - rewrite (nth_indep _ [] (repeat 0 nc)) by (rewrite repeat_length; lia).
    rewrite nth_repeat. destruct (Nat.lt_ge_cases b nc) as [Hb|Hb].
    + now apply nth_repeat_below.
    + apply nth_overflow. rewrite repeat_length. lia.
  - rewrite (nth_overflow (repeat _ _)) by (rewrite repeat_length; lia).
    now destruct b.
Qed.

End Criteria.

(** [Evaluator.mse] of two nonempty arrays of one shape is the unweighted l2
    loss divided by the number of entries; it does not depend on the order
    of its arguments, and on empty arrays it is nan. *)
Theorem mse_is_the_mean_l2_loss (n K : nat) (Y pred : mat)
  (HY : has_shape n K Y) (HP : has_shape n K pred) :
  ((0 < n)%nat -> (0 < K)%nat ->
   Evaluator.mse Y pred
   = Some (fst (Loss.loss_l2 Y pred None) / INR (K * n))) /\
  (n = 0%nat \/ K = 0%nat -> Evaluator.mse Y pred = None) /\
  Evaluator.mse Y pred = Evaluator.mse pred Y.
Proof.
  assert (HD : has_shape n K (emap (fun d => d ^ 2) (ewise Rminus Y pred)))
    by auto with shape.
  pose proof (length_flat n K _ HD) as Hlen.
  split; [|split].
  - intros Hn HK. unfold Evaluator.mse, Evaluator.mean.
    destruct (flat (emap (fun d => d ^ 2) (ewise Rminus Y pred)))
      as [|x v] eqn:E; [simpl in Hlen; nia|].
    cbv beta iota. rewrite Hlen, <- E. do 2 f_equal.
    unfold Loss.loss_l2. cbn [fst].
    rewrite vdot_self, <- flat_emap.
    now rewrite (squared_difference_flips n K Y pred).
  - intros H0. unfold Evaluator.mse, Evaluator.mean.
    destruct (flat (emap (fun d => d ^ 2) (ewise Rminus Y pred)))
      as [|x v]; [reflexivity|]. simpl in Hlen. nia.
  - unfold Evaluator.mse. do 2 f_equal. by_entries n K. lra.
Qed.

Lemma mse_is_the_mean_l2_loss_witness :
  Evaluator.mse [[1; -1]] [[0; 1]]
  = Some (fst (Loss.loss_l2 [[1; -1]] [[0; 1]] None) / INR (2 * 1)).
Proof.
  assert (HY : has_shape 1 2 [[1; -1]])
    by (split; [reflexivity | repeat constructor]).
  assert (HP : has_shape 1 2 [[0; 1]])
    by (split; [reflexivity | repeat constructor]).
  apply (proj1 (mse_is_the_mean_l2_loss 1 2 _ _ HY HP)); lia.
Defined.

(** [Evaluator.accuracy] of two label vectors of one length takes part in
    two sum reductions, of the number of agreeing labels and of the number
    of labels.  When the other workers report [c] correct among [m], with
    [0 <= c <= m], the accuracy lies in [0, 1]; when the other workers
    report no errors it is 1 exactly when [pred] equals [Y].  With no data on
    any worker the division is a ZeroDivisionError. *)
Theorem accuracy_of_label_vectors (Y pred : list Z) (c m : R)
  (rest : list message) (w : world)
  (Hlen : length Y = length pred)
  (Hw : inbox w = PeerNumber c :: PeerNumber m :: rest)
  (Hc : 0 <= c <= m) :
  (0 < INR (length Y) + m ->
   exists a,
     Evaluator.accuracy (Evaluator.Labels Y) (Evaluator.Labels pred) w
     = Ok (a, {| rank := rank w; inbox := rest |}) /\
     0 <= a <= 1 /\ (c = m -> (a = 1 <-> Y = pred))) /\
  (INR (length Y) + m = 0 ->
   Evaluator.accuracy (Evaluator.Labels Y) (Evaluator.Labels pred) w
   = Raise ZeroDivisionError).
Proof.
  pose proof (agreeing_at_most (combine Y pred)) as Hle.
  rewrite length_combine, <- Hlen, Nat.min_id in Hle.
  pose proof (all_agree Y pred Hlen) as Hall.
  set (agree := length (filter (fun b : bool => b)
                          (map (fun yp => (fst yp =? snd yp)%Z)
                             (combine Y pred)))) in *.
  assert (Hrun :
    Evaluator.accuracy (Evaluator.Labels Y) (Evaluator.Labels pred) w
    = if Req_dec_T (INR (length Y) + m) 0 then Raise ZeroDivisionError
      else Ok ((INR agree + c) / (INR (length Y) + m),
               {| rank := rank w; inbox := rest |})).
  { unfold Evaluator.accuracy, Evaluator.agreeing, allreduce, receive.
    unfold Mpi.bind, lift, ret. cbn [Evaluator.discrete].
    rewrite (proj2 (Nat.eqb_eq _ _) Hlen), Hw. cbn [inbox rank].
    fold agree. destruct (Req_dec_T _ _); reflexivity. }
  rewrite Hrun. apply le_INR in Hle. pose proof (pos_INR agree) as Hpos.
  split.
  - intros Hn. destruct (Req_dec_T _ _) as [H0|_]; [lra|].
    eexists. split; [reflexivity|]. split; [split|].
    + apply Rmult_le_pos; [lra|]. left. now apply Rinv_0_lt_compat.
    + apply (Rmult_le_reg_r (INR (length Y) + m)); [exact Hn|].
      unfold Rdiv. rewrite Rmult_assoc, Rinv_l by lra. lra.
    + intros ->. rewrite <- Hall. split; intros H.
      * apply INR_eq.
        apply (f_equal (fun x => x * (INR (length Y) + m))) in H.
        unfold Rdiv in H. rewrite Rmult_assoc, Rinv_l in H by lra. lra.
      * rewrite H. unfold Rdiv. apply Rinv_r. lra.
  - intros H0. destruct (Req_dec_T _ _); [reflexivity | contradiction].
Qed.

Lemma accuracy_of_label_vectors_witness :
  exists a,
    Evaluator.accuracy (Evaluator.Labels [0; 1; 1]%Z)
      (Evaluator.Labels [0; 1; 0]%Z)
      {| rank := 0; inbox := [PeerNumber 1; PeerNumber 1] |}
    = Ok (a, {| rank := 0; inbox := [] |}) /\
    0 <= a <= 1 /\ (1 = 1 -> (a = 1 <-> [0; 1; 1]%Z = [0; 1; 0]%Z)).
Proof.
  apply (proj1 (accuracy_of_label_vectors [0; 1; 1]%Z [0; 1; 0]%Z 1 1 []
                  {| rank := 0; inbox := [PeerNumber 1; PeerNumber 1] |}
                  eq_refl eq_refl ltac:(lra))).
  cbn. lra.
Defined.

(** [Evaluator.confusion_table] of two label vectors, the labels
    nonnegative and the predictions among [0 .. Y.max()], is a square table
    with one row and column per class up to the largest label, and its
    entry [a, b] is the number of pairs of [zip(Y, pred)] with label [a]
    and prediction [b].  A prediction above the largest label is an
    IndexError. *)
Theorem confusion_table_counts (Y pred : list Z) (top : Z)
  (Htop : In top Y) (Hmax : Forall (fun y => (y <= top)%Z) Y)
  (HY : Forall (fun y => (0 <= y)%Z) Y) :
  let num_classes := Z.to_nat (top + 1) in
  (Forall (fun p => (0 <= p <= top)%Z) pred ->
   exists table,
     Evaluator.confusion_table (Evaluator.Labels Y) (Evaluator.Labels pred)
     = Ok table /\
     has_shape num_classes num_classes table /\
     forall a b, (a < num_classes)%nat -> (b < num_classes)%nat ->
       entry table a b
       = INR (length (filter (fun yp => (fst yp =? Z.of_nat a)%Z
                                        && (snd yp =? Z.of_nat b)%Z)
                        (combine Y pred)))) /\
  (Exists (fun p => (top < p)%Z) (firstn (length Y) pred) ->
   Evaluator.confusion_table (Evaluator.Labels Y) (Evaluator.Labels pred)
   = Raise IndexError).
Proof.
  cbv zeta.
  assert (H0 : (0 <= top)%Z)
    by (rewrite Forall_forall in HY; now apply HY).
  assert (Hrun :
    Evaluator.confusion_table (Evaluator.Labels Y) (Evaluator.Labels pred)
    = Evaluator.count_all (Z.to_nat (top + 1))
        (repeat (repeat 0 (Z.to_nat (top + 1))) (Z.to_nat (top + 1)))
        (combine Y pred)).
  { unfold Evaluator.confusion_table. cbn [Evaluator.discrete Py.bind].
    rewrite (index_max_of_the_top Y top Htop Hmax). cbn [Py.bind].
    unfold SolverMC.dimension.
    destruct (Z.ltb_spec (top + 1) 0); [lia | reflexivity]. }
  rewrite Hrun. split.
  - intros HP.
    destruct (count_all_counts (Z.to_nat (top + 1)) (combine Y pred)
                (repeat (repeat 0 (Z.to_nat (top + 1)))
                   (Z.to_nat (top + 1))))
      as (table & Ht & Hs & Hent).
    + split; [apply repeat_length|].
      apply Forall_forall. intros r Hr. apply repeat_spec in Hr. subst r.
      apply repeat_length.
    + pose proof (Forall_combine _ _ Y pred
                    (Forall_and HY Hmax) HP) as Hpairs.
      eapply Forall_impl; [|exact Hpairs]. cbv beta. intros [y p]. cbn. lia.
    + exists table. split; [exact Ht|]. split; [exact Hs|].
      intros a b Ha Hb. rewrite (Hent a b Ha Hb), entry_zeros. lra.
  - intros Hbad. apply count_all_fails.
    apply Exists_combine in Hbad.
    eapply Exists_impl; [|exact Hbad]. cbv beta. intros [y p]. cbn.
    intros Hp. unfold py_index.
    destruct (Z.leb_spec 0 p), (Z.ltb_spec p (Z.of_nat (Z.to_nat (top + 1))));
      cbn [andb]; try lia;
      destruct (Z.leb_spec (- Z.of_nat (Z.to_nat (top + 1))) p),
        (Z.ltb_spec p 0); cbn [andb]; try lia; reflexivity.
Qed.

Lemma confusion_table_counts_witness :
  Evaluator.confusion_table (Evaluator.Labels [0; 1; 1]%Z)
    (Evaluator.Labels [0; 2; 1]%Z)
  = Raise IndexError.
Proof.
  apply (proj2 (confusion_table_counts [0; 1; 1]%Z [0; 2; 1]%Z 1%Z
                  ltac:(cbn; lia) ltac:(repeat constructor; lia)
                  ltac:(repeat constructor; lia))).
  cbn. constructor 2. constructor. lia.
Defined.

(** ** The objective with a loss of [Loss2] *)

Section CachedLoss.

Import SolverMC.

Variables (s : solver) (wb : vec) (n K : nat) (a : ndarray)
  (Ym buffer : mat).
Variable L : mat -> mat -> option vec -> R * mat.
Variable L2 : mat -> mat -> option vec -> mat -> list mat ->
              R * mat * list mat.
Hypothesis Hn : nth 0 (shape (_X s)) 0%nat = n.
Hypothesis HK : _K s = K.
Hypothesis HY : _Y s = FloatArray a.
Hypothesis Ha : matrix_of a = Ok Ym.
Hypothesis HYm : has_shape n K Ym.
Hypothesis HG : has_shape n K buffer.
Hypothesis Hsame : forall pred cache,
  has_shape n K pred ->
  Spec.returned (L2 Ym pred (_weight s) buffer cache)
  = L Ym pred (_weight s).

Let s5 := Spec.with_loss (Calls.of_loss2 L2) (Some buffer) s.
Let s3 := Spec.with_loss (Calls.of_loss L) (_gpred s) s.

Lemma data_terms_agree :
  match data_term s5 wb, data_term s3 wb with
  | Ok e5, Ok e3 =>
      ev_w e5 = ev_w e3 /\ ev_flocal e5 = ev_flocal e3 /\
      ev_glocal e5 = ev_glocal e3
  | Raise e, Raise e' => e = e'
  | _, _ => False
  end.
Proof.
  unfold data_term, s5, s3, Spec.with_loss, Calls.of_loss2, Calls.of_loss.
  cbn [_K _dim _X _Y _pred _weight _gpred gpredcache loss _gpredcache
       _glocal _num_data argcount Nat.eqb].
  destruct (reshape (_dim s) (_K s) (firstn (_K s * _dim s) wb)) as [wm|];
    cbn [Py.bind]; [|reflexivity].
  destruct (matrix_of (_X s)) as [X|]; cbn [Py.bind]; [|reflexivity].
  destruct (array_of (_pred s)) as [pred0|]; cbn [Py.bind]; [|reflexivity].
  destruct (dot_into _ _ _ X wm pred0) as [pred1|] eqn:Ed; cbn [Py.bind];
    [|reflexivity].
  destruct (add_to_rows pred1 _) as [pred|] eqn:Ea; cbn [Py.bind];
    [|reflexivity].
  apply dot_into_shape in Ed. rewrite Hn, HK in Ed.
  pose proof (add_to_rows_shape _ _ _ _ _ Ed Ea) as HP.
  rewrite HY, Ha. cbn [Py.bind array_of].
  pose proof (Hsame pred (_gpredcache s) HP) as Hret.
  destruct (L2 Ym pred (_weight s) buffer (_gpredcache s))
    as [[f g] c]. unfold Spec.returned in Hret. cbn [fst] in Hret.
  rewrite <- Hret. cbn [Py.bind].
  destruct (array_of (_glocal s)) as [gl|]; cbn [Py.bind]; [|reflexivity].
  destruct (reshape _ _ (firstn _ gl)) as [out|]; cbn [Py.bind];
    [|reflexivity].
  destruct (dot_into _ _ _ _ g out) as [gw|]; cbn [Py.bind]; [|reflexivity].
  destruct (inplace _ _ _) as [gb|]; cbn [Py.bind]; [|reflexivity].
  cbn. repeat split.
Qed.

Lemma local_terms_agree root :
  match local_terms root s5 wb, local_terms root s3 wb with
  | Ok (f5, g5, _), Ok (f3, g3, _) => f5 = f3 /\ g5 = g3
  | Raise e, Raise e' => e = e'
  | _, _ => False
  end.
Proof.
  unfold local_terms. pose proof data_terms_agree as H.
  destruct (data_term s5 wb) as [e5|], (data_term s3 wb) as [e3|];
    cbn [Py.bind]; try contradiction; [|exact H].
  destruct H as (Hw & Hf & Hg). destruct root.
  - unfold add_regularization, s5, s3, Spec.with_loss.
    cbn [_K _dim reg _regargs _gamma]. rewrite Hw, Hf, Hg.
    destruct (reg s (ev_w e3) (_regargs s)) as [freg greg].
    destruct (inplace _ _ _); cbn [Py.bind]; [split|]; reflexivity.
  - cbn [Py.bind]. split; assumption.
Qed.

Lemma objectives_agree w :
  Spec.outcome (obj wb s5 w) = Spec.outcome (obj wb s3 w).
Proof.
  unfold obj, allreduce, Allreduce, receive, barrier.
  unfold Mpi.bind, is_root, lift, ret, raise.
  pose proof (local_terms_agree (rank w =? 0)%nat) as H.
  destruct (local_terms _ s5 wb) as [[[f5 g5] e5]|],
    (local_terms _ s3 wb) as [[[f3 g3] e3]|]; try contradiction;
    [|now rewrite H].
  destruct H as [-> ->].
  replace (_g s5) with (_g s) by reflexivity.
  replace (_g s3) with (_g s) by reflexivity.
  destruct (inbox w) as [|m1 rest]; [reflexivity|].
  destruct m1; try reflexivity.
  destruct (array_of (_g s)) as [gbuf|]; [|reflexivity].
  cbn [inbox rank].
  destruct rest as [|m2 rest]; [reflexivity|].
  destruct m2; try reflexivity.
  destruct (_ && _); reflexivity.
Qed.

End CachedLoss.

(** A solver built with the l2, hinge or squared hinge loss of [Loss2]
    evaluates the objective that the solver with the loss of [Loss]
    evaluates: on a shard of [n] examples with a label matrix of shape
    [n, K], an optional weight per example and the gradient buffer [_gpred]
    of shape [n, K] that [presolve] provides, [SolverMC.obj] returns the same
    value and gradient, or fails with the same error, and leaves the same
    messages. *)
Theorem cached_losses_give_the_same_objective (s : SolverMC.solver)
  (wb : vec) (w : world) (n K : nat) (a : ndarray) (Ym buffer : mat)
  (L : mat -> mat -> option vec -> R * mat)
  (L2 : mat -> mat -> option vec -> mat -> list mat -> R * mat * list mat)
  (Hpair : In (L, L2)
             [(Loss.loss_l2, Loss2.loss_l2);
              (Loss.loss_hinge, Loss2.loss_hinge);
              (Loss.loss_squared_hinge, Loss2.loss_squared_hinge)])
  (Hn : nth 0 (shape (SolverMC._X s)) 0%nat = n)
  (HK : SolverMC._K s = K)
  (HY : SolverMC._Y s = SolverMC.FloatArray a)
  (Ha : matrix_of a = Ok Ym) (HYm : has_shape n K Ym)
  (HG : has_shape n K buffer)
  (HW : Spec.weight_ok n (SolverMC._weight s)) :
  Spec.outcome
    (SolverMC.obj wb
       (Spec.with_loss (Calls.of_loss2 L2) (Some buffer) s) w)
  = Spec.outcome
      (SolverMC.obj wb
         (Spec.with_loss (Calls.of_loss L) (SolverMC._gpred s) s) w).
Proof.
  apply (objectives_agree s wb n K a Ym buffer L L2 Hn HK HY Ha).
  intros pred cache HP.
  destruct Hpair as [[= <- <-]|[[= <- <-]|[[= <- <-]|[]]]].
  - now apply (loss2_l2_returns n K).
  - now apply (loss2_hinge_returns n K).
  - now apply (loss2_squared_hinge_returns n K).
Qed.

Lemma cached_losses_give_the_same_objective_witness :
  Spec.outcome
    (SolverMC.obj [1; 0]
       (Spec.with_loss (Calls.of_loss2 Loss2.loss_hinge) (Some [[7]])
          (Demo.worker (1 / 2)))
       {| rank := 0; inbox := [PeerNumber 0; PeerBuffer [0; 0]] |})
  = Spec.outcome
      (SolverMC.obj [1; 0]
         (Spec.with_loss (Calls.of_loss Loss.loss_hinge) None
            (Demo.worker (1 / 2)))
         {| rank := 0; inbox := [PeerNumber 0; PeerBuffer [0; 0]] |}).
Proof.
  apply (cached_losses_give_the_same_objective (Demo.worker (1 / 2)) [1; 0]
           {| rank := 0; inbox := [PeerNumber 0; PeerBuffer [0; 0]] |}
           1 1 {| shape := [1; 1]%nat; data := [1] |} [[1]] [[7]]
           Loss.loss_hinge Loss2.loss_hinge).
  - right. left. reflexivity.
  - reflexivity.
  - reflexivity.
  - reflexivity.
  - reflexivity.
  - split; [reflexivity | repeat constructor].
  - split; [reflexivity | repeat constructor].
  - exact I.
Defined.

(** ** The gradients are the derivatives of the values *)

Section Derivatives.

Lemma derivative_by_square_bound (f : R -> R) (p l c : R) :
  0 <= c ->
  (forall h, Rabs (f (p + h) - f p - l * h) <= c * (h * h)) ->
  derivable_pt_lim f p l.
Proof.
  intros Hc Hb eps Heps.
  assert (Hd : 0 < eps / (c + 1)) by (apply Rdiv_lt_0_compat; lra).
  exists (mkposreal _ Hd). intros h Hh Hlt. cbn [pos] in Hlt.
  replace ((f (p + h) - f p) / h - l) with ((f (p + h) - f p - l * h) / h)
    by (field; exact Hh).
  unfold Rdiv. rewrite Rabs_mult, Rabs_inv.
  apply (Rmult_lt_reg_r (Rabs h)); [now apply Rabs_pos_lt|].
  rewrite Rmult_assoc, Rinv_l by (now apply Rabs_no_R0). rewrite Rmult_1_r.
  eapply Rle_lt_trans; [apply Hb|].
  assert (Hh2 : h * h = Rabs h * Rabs h).
  { unfold Rabs. destruct (Rcase_abs h); lra. }
  rewrite Hh2. pose proof (Rabs_pos_lt h Hh) as Hpos.
  assert (c * Rabs h < eps).
  { apply (Rmult_lt_reg_r (/ (c + 1))); [apply Rinv_0_lt_compat; lra|].
    eapply Rle_lt_trans; [|exact Hlt].
    replace (c * Rabs h * / (c + 1)) with (Rabs h * (c * / (c + 1))) by ring.
    rewrite <- (Rmult_1_r (Rabs h)) at 2.
    apply Rmult_le_compat_l; [lra|].
    apply (Rmult_le_reg_r (c + 1)); [lra|].
    rewrite Rmult_assoc, Rinv_l by lra. lra. }
  nra.
Qed.

Lemma derive_l2 y p :
  derivable_pt_lim (fun q => (q - y) ^ 2) p (2 * (p - y)).
Proof.
  apply (derivative_by_square_bound _ _ _ 1); [lra|]. intros h.
  replace ((p + h - y) ^ 2 - (p - y) ^ 2 - 2 * (p - y) * h) with (h * h)
    by ring.
  rewrite Rabs_pos_eq by nra. lra.
Qed.

Lemma derive_squared_hinge y p :
  derivable_pt_lim (fun q => Rmax 0 (1 - y * q) ^ 2) p
    (-2 * y * Rmax 0 (1 - y * p)).
Proof.
  apply (derivative_by_square_bound _ _ _ (y * y)); [nra|]. intros h.
  cbn [pow]. unfold Rmax. apply Rabs_le.
  destruct (Rle_dec 0 (1 - y * (p + h))), (Rle_dec 0 (1 - y * p)); nra.
Qed.

Lemma derive_hinge y p :
  1 - y * p <> 0 ->
  derivable_pt_lim (fun q => Rmax 0 (1 - y * q)) p
    (- y * (if Rlt_dec 0 (Rmax 0 (1 - y * p)) then 1 else 0)).
Proof.
  intros Hkink eps Heps.
  assert (Hd : 0 < Rabs (1 - y * p) / (Rabs y + 1)).
  { apply Rdiv_lt_0_compat; [now apply Rabs_pos_lt|].
    pose proof (Rabs_pos y). lra. }
  exists (mkposreal _ Hd). intros h Hh Hlt. cbn [pos] in Hlt.
  assert (Hyh : Rabs (y * h) < Rabs (1 - y * p)).
  { rewrite Rabs_mult. pose proof (Rabs_pos y) as Hy.
    pose proof (Rabs_pos_lt h Hh) as Hph.
    apply (Rmult_lt_compat_r (Rabs y + 1)) in Hlt; [|lra].
    unfold Rdiv in Hlt. rewrite Rmult_assoc, Rinv_l, Rmult_1_r in Hlt by lra.
    nra. }
  assert (Hzero : Rmax 0 (1 - y * (p + h)) - Rmax 0 (1 - y * p)
                  = (- y * (if Rlt_dec 0 (Rmax 0 (1 - y * p)) then 1 else 0))
                    * h).
  { revert Hyh. unfold Rmax, Rabs.
    destruct (Rcase_abs (y * h)), (Rcase_abs (1 - y * p)),
      (Rle_dec 0 (1 - y * (p + h))), (Rle_dec 0 (1 - y * p));
      destruct (Rlt_dec 0 _); intros; lra. }
  rewrite Hzero. unfold Rdiv. rewrite Rmult_assoc, Rinv_r by exact Hh.
  rewrite Rmult_1_r, Rminus_diag, Rabs_R0. exact Heps.
Qed.

Lemma derive_bnll y p :
  derivable_pt_lim (fun q => ln (1 + exp (- y * q))) p
    (- y * exp (- y * p) / (1 + exp (- y * p))).
Proof.
  assert (H1 : derivable_pt_lim (fun q => - y * q) p (- y)).
  { apply (derivative_by_square_bound _ _ _ 0); [lra|]. intros h.
    replace (- y * (p + h) - - y * p - - y * h) with 0 by ring.
    rewrite Rabs_R0. lra. }
  pose proof (derivable_pt_lim_comp _ _ _ _ _ H1
                (derivable_pt_lim_exp (- y * p))) as H2.
  pose proof (derivable_pt_lim_plus _ _ _ _ _
                (derivable_pt_lim_const 1 p) H2) as H3.
  assert (Hpos : 0 < 1 + exp (- y * p)) by (pose proof (exp_pos (- y * p)); lra).
  pose proof (derivable_pt_lim_comp _ _ _ _ _ H3
                (derivable_pt_lim_ln _ Hpos)) as H4.
  unfold comp, plus_fct, fct_cte, mult_real_fct, id in *.
  replace (- y * exp (- y * p) / (1 + exp (- y * p)))
    with (/ (1 + exp (- y * p)) * (0 + exp (- y * p) * - y))
    by (field; lra).
  exact H4.
Qed.

Lemma derive_scaled (f : R -> R) (c p l : R) :
  derivable_pt_lim f p l -> derivable_pt_lim (fun q => c * f q) p (c * l).
Proof. intros H. exact (derivable_pt_lim_scal f c p l H). Qed.

Lemma weighted_rows (w : vec) (A : mat) :
  length w = length A ->
  vdot (rowsum A) w = msum (ewise Rmult (col w A) A).
Proof.
  unfold msum, ewise, col, rowsum.
  revert w; induction A as [|r A IH]; intros [|x w] Hl; simpl in Hl;
    try discriminate; [reflexivity|].
  cbn [map zip_with]. rewrite vdot_cons, IH by lia.
  change (vsum (?h :: ?t)) with (h + vsum t). f_equal.
  clear. induction r as [|z r IHr]; cbn [map zip_with].
  - unfold vsum. simpl. lra.
  - change (vsum (?h :: ?t)) with (h + vsum t). rewrite <- IHr. lra.
Qed.

Lemma squares_of_entries (A : mat) :
  vdot (flat A) (flat A) = msum (emap (fun x => x * x) A).
Proof. now rewrite vdot_self, <- flat_emap, msum_as_vsum. Qed.

Lemma inner1d_squares (A : mat) :
  inner1d A A = rowsum (emap (fun x => x * x) A).
Proof.
  unfold inner1d, rowsum, emap. induction A as [|r A IH]; [reflexivity|].
  cbn [zip_with map]. now rewrite IH, vdot_self.
Qed.

End Derivatives.

(** The l2, hinge and squared hinge loss return the sum over all entries of
    the term of the entry, times the weight of its row (1 without weights),
    and a gradient whose entry [i, j] is the derivative of that term with
    respect to the prediction [pred[i, j]]; for the hinge loss away from the
    kink [Y*pred = 1], where the term has no derivative. *)
Theorem gradients_are_derivatives (n K : nat) (Y pred : mat)
  (weight : option vec)
  (HY : has_shape n K Y) (HP : has_shape n K pred)
  (HW : Spec.weight_ok n weight) :
  let wt i := match weight with None => 1 | Some w => nth i w 0 end in
  let y i j := entry Y i j in
  let p i j := entry pred i j in
  (fst (Loss.loss_l2 Y pred weight)
   = Spec.sum_entries n K (fun i j => wt i * (p i j - y i j) ^ 2) /\
   forall i j, (i < n)%nat -> (j < K)%nat ->
     derivable_pt_lim (fun q => wt i * (q - y i j) ^ 2) (p i j)
       (entry (snd (Loss.loss_l2 Y pred weight)) i j)) /\
  (fst (Loss.loss_squared_hinge Y pred weight)
   = Spec.sum_entries n K
       (fun i j => wt i * Rmax 0 (1 - y i j * p i j) ^ 2) /\
   forall i j, (i < n)%nat -> (j < K)%nat ->
     derivable_pt_lim (fun q => wt i * Rmax 0 (1 - y i j * q) ^ 2) (p i j)
       (entry (snd (Loss.loss_squared_hinge Y pred weight)) i j)) /\
  (fst (Loss.loss_hinge Y pred weight)
   = Spec.sum_entries n K (fun i j => wt i * Rmax 0 (1 - y i j * p i j)) /\
   forall i j, (i < n)%nat -> (j < K)%nat -> y i j * p i j <> 1 ->
     derivable_pt_lim (fun q => wt i * Rmax 0 (1 - y i j * q)) (p i j)
       (entry (snd (Loss.loss_hinge Y pred weight)) i j)).
Proof.
  cbv zeta.
  pose proof (has_shape_margin n K Y pred HY HP) as HM.
  assert (HD : has_shape n K (ewise Rminus pred Y)) by auto with shape.
  unfold Loss.loss_l2, Loss.loss_squared_hinge, Loss.loss_hinge.
  set (m := emap (Rmax 0) (emap (Rminus 1) (ewise Rmult Y pred))) in *.
  assert (Hm : forall i j, (i < n)%nat -> (j < K)%nat ->
            entry m i j = Rmax 0 (1 - entry Y i j * entry pred i j)).
  { intros i j Hi Hj. unfold m. entries n K. reflexivity. }
  destruct weight as [w|]; cbn [fst snd]; cbn in HW.
  - assert (Hlm : length w = length m) by (destruct HM; congruence).
    assert (Hld : length w = length (ewise Rminus pred Y))
      by (destruct HD; congruence).
    split; [|split]; split.
    + replace (emap (fun d => d ^ 2) (ewise Rminus pred Y))
        with (emap (fun d => d * d) (ewise Rminus pred Y))
        by (apply emap_ext; intros x; ring).
      rewrite weighted_rows by (unfold emap; now rewrite length_map).
      rewrite (msum_sum_entries n K) by auto 10 with shape.
      apply sum_upto_ext. intros i Hi. apply sum_upto_ext. intros j Hj.
      entries n K. ring.
    + intros i j Hi Hj. entries n K.
      replace (2 * (entry pred i j - entry Y i j) * nth i w 0)
        with (nth i w 0 * (2 * (entry pred i j - entry Y i j))) by ring.
      apply derive_scaled, derive_l2.
    + rewrite weighted_square_sum, inner1d_squares by exact Hlm.
      rewrite weighted_rows by (unfold emap; now rewrite length_map).
      rewrite (msum_sum_entries n K) by auto 10 with shape.
      apply sum_upto_ext. intros i Hi. apply sum_upto_ext. intros j Hj.
      entries n K. rewrite Hm by assumption. ring.
    + intros i j Hi Hj. entries n K. rewrite Hm by assumption.
      replace (-2 * entry Y i j
               * (nth i w 0 * Rmax 0 (1 - entry Y i j * entry pred i j)))
        with (nth i w 0
              * (-2 * entry Y i j
                 * Rmax 0 (1 - entry Y i j * entry pred i j))) by ring.
      apply derive_scaled, derive_squared_hinge.
    + rewrite (vsum_vecmat n) by eauto using has_shape_ncols.
      rewrite vdot_comm, weighted_rows by exact Hlm.
      rewrite (msum_sum_entries n K) by auto 10 with shape.
      apply sum_upto_ext. intros i Hi. apply sum_upto_ext. intros j Hj.
      entries n K. now rewrite Hm by assumption.
    + intros i j Hi Hj Hkink. entries n K. rewrite Hm by assumption.
      replace (- entry Y i j * nth i w 0
               * gt0 (Rmax 0 (1 - entry Y i j * entry pred i j)))
        with (nth i w 0
              * (- entry Y i j
                 * gt0 (Rmax 0 (1 - entry Y i j * entry pred i j))))
        by ring.
      apply derive_scaled, derive_hinge. lra.
  - split; [|split]; split.
    + rewrite squares_of_entries.
      rewrite (msum_sum_entries n K) by auto 10 with shape.
      apply sum_upto_ext. intros i Hi. apply sum_upto_ext. intros j Hj.
      entries n K. ring.
    + intros i j Hi Hj. entries n K.
      replace (2 * (entry pred i j - entry Y i j))
        with (1 * (2 * (entry pred i j - entry Y i j))) by ring.
      apply derive_scaled, derive_l2.
    + rewrite squares_of_entries.
      rewrite (msum_sum_entries n K) by auto 10 with shape.
      apply sum_upto_ext. intros i Hi. apply sum_upto_ext. intros j Hj.
      entries n K. rewrite Hm by assumption. ring.
    + intros i j Hi Hj. entries n K. rewrite Hm by assumption.
      replace (-2 * entry Y i j * Rmax 0 (1 - entry Y i j * entry pred i j))
        with (1 * (-2 * entry Y i j
                   * Rmax 0 (1 - entry Y i j * entry pred i j))) by ring.
      apply derive_scaled, derive_squared_hinge.
    + rewrite (msum_sum_entries n K) by exact HM.
      apply sum_upto_ext. intros i Hi. apply sum_upto_ext. intros j Hj.
      rewrite Hm by assumption. ring.
    + intros i j Hi Hj Hkink. entries n K. rewrite Hm by assumption.
      replace (- entry Y i j
               * gt0 (Rmax 0 (1 - entry Y i j * entry pred i j)))
        with (1 * (- entry Y i j
                   * gt0 (Rmax 0 (1 - entry Y i j * entry pred i j))))
        by ring.
      apply derive_scaled, derive_hinge. lra.
Qed.

Lemma gradients_are_derivatives_witness :
  derivable_pt_lim
    (fun q => nth 0 [3] 0 * Rmax 0 (1 - entry [[1; -1]] 0 1 * q) ^ 2)
    (entry [[0; 2]] 0 1)
    (entry (snd (Loss.loss_squared_hinge [[1; -1]] [[0; 2]] (Some [3]))) 0 1).
Proof.
  assert (HY : has_shape 1 2 [[1; -1]])
    by (split; [reflexivity | repeat constructor]).
  assert (HP : has_shape 1 2 [[0; 2]])
    by (split; [reflexivity | repeat constructor]).
  apply (proj2 (proj1 (proj2 (gradients_are_derivatives 1 2 [[1; -1]]
                                [[0; 2]] (Some [3]) HY HP eq_refl)))
           0%nat 1%nat); lia.
Defined.

(** ** The BNLL loss *)

Section Bnll.

Lemma sum_upto_nonneg n g :
  (forall i, (i < n)%nat -> 0 <= g i) -> 0 <= Spec.sum_upto n g.
Proof.
  induction n as [|n IH]; intros H; cbn [Spec.sum_upto]; [lra|].
  pose proof (H n (Nat.lt_succ_diag_r n)).
  assert (0 <= Spec.sum_upto n g) by (apply IH; intros; apply H; lia). lra.
Qed.

Lemma log1p_exp_positive x : 0 < ln (1 + exp x).
Proof.
  rewrite <- ln_1. apply ln_increasing; [lra|]. pose proof (exp_pos x). lra.
Qed.

Lemma all_some_map {A B} (f : A -> option B) (g : A -> B) (l : list A) :
  (forall x, In x l -> f x = Some (g x)) ->
  all_some (map f l) = Some (map g l).
Proof.
  induction l as [|x l IH]; intros H; [reflexivity|].
  cbn [map all_some]. rewrite (H x (or_introl eq_refl)), IH; [reflexivity|].
  intros z Hz. apply H. now right.
Qed.

Lemma broadcast_same_length f (a b : vec) :
  length a = length b -> Loss.broadcast f a b = Some (zip_with f a b).
Proof.
  intros H. unfold Loss.broadcast. now rewrite (proj2 (Nat.eqb_eq _ _) H).
Qed.

Lemma with_matrix_same_shape n K f (A B : mat) :
  has_shape n K A -> has_shape n K B ->
  Loss.with_matrix f A B = Some (ewise f A B).
Proof.
  unfold Loss.with_matrix, ewise, has_shape.
  revert n B; induction A as [|a A IH]; intros n [|b B] [Hn HA] [Hm HB];
    simpl in Hn, Hm; subst; try discriminate; [reflexivity|].
  inversion HA; inversion HB; subst. cbn [zip_with all_some].
  rewrite broadcast_same_length by congruence.
  rewrite (IH (length A) B); [reflexivity | split; auto | split; auto; lia].
Qed.

Lemma with_vector_same_width n K f (A : mat) (w : vec) :
  has_shape n K A -> length w = K ->
  Loss.with_vector f A w = Some (map (fun row => zip_with f row w) A).
Proof.
  intros [_ HF] Hw. unfold Loss.with_vector. apply all_some_map.
  intros row Hrow. rewrite Forall_forall in HF.
  apply broadcast_same_length. rewrite (HF row Hrow). now symmetry.
Qed.

Lemma has_shape_rows_with n K f (A : mat) (w : vec) :
  has_shape n K A -> length w = K ->
  has_shape n K (map (fun row => zip_with f row w) A).
Proof.
  intros [Hn HF] Hw. split; [now rewrite length_map|].
  rewrite Forall_map. eapply Forall_impl; [|exact HF]. cbv beta.
  intros row Hrow. rewrite zip_with_length; congruence.
Qed.

Lemma entry_rows_with n K f (A : mat) (w : vec) i j :
  has_shape n K A -> length w = K -> (i < n)%nat -> (j < K)%nat ->
  entry (map (fun row => zip_with f row w) A) i j
  = f (entry A i j) (nth j w 0).
Proof.
  intros HA Hw Hi Hj. unfold entry.
  pose proof (has_shape_row n K A i HA Hi) as Hr. destruct HA as [Hn _].
  rewrite (nth_indep _ [] (zip_with f [] w)) by (rewrite length_map; lia).
  rewrite (map_nth (fun row => zip_with f row w)).
  apply nth_zip_with; lia.
Qed.

Lemma with_vector_fails n K f (A : mat) (w : vec) :
  has_shape n K A -> length w = n ->
  (1 < n)%nat -> (1 < K)%nat -> n <> K ->
  Loss.with_vector f A w = None.
Proof.
  intros [Hn HF] Hw H1 HK Hne. unfold Loss.with_vector.
  destruct A as [|row A]; [simpl in Hn; lia|].
  inversion HF as [|? ? Hrow _]; subst. cbn [map all_some].
  unfold Loss.broadcast.
  destruct (Nat.eqb_spec (length row) (length w)) as [E|_]; [lia|].
  destruct row as [|x [|x' row]]; simpl in HK; try lia.
  destruct w as [|z [|z' w]]; simpl in Hw, H1; try lia. reflexivity.
Qed.

End Bnll.

(** Without weights [Loss.loss_bnll] returns the sum over all entries of
    [log(1 + exp(-Y*pred))], which is not negative, and a gradient of the
    shape of [pred] whose entry [i, j] is the derivative of the term of the
    entry with respect to [pred[i, j]] and is at most [|Y[i, j]|] in absolute
    value. *)
Theorem loss_bnll_without_weights (n K : nat) (Y pred : mat)
  (HY : has_shape n K Y) (HP : has_shape n K pred) :
  exists f g,
    Loss.loss_bnll Y pred None = Some (f, g) /\ has_shape n K g /\
    f = Spec.sum_entries n K
          (fun i j => ln (1 + exp (- entry Y i j * entry pred i j))) /\
    0 <= f /\
    forall i j, (i < n)%nat -> (j < K)%nat ->
      derivable_pt_lim (fun q => ln (1 + exp (- entry Y i j * q)))
        (entry pred i j) (entry g i j) /\
      Rabs (entry g i j) <= Rabs (entry Y i j).
Proof.
  unfold Loss.loss_bnll. do 2 eexists. split; [reflexivity|].
  set (e := emap Mathutil.exp (ewise Rmult (emap Ropp Y) pred)).
  assert (He : has_shape n K e) by (unfold e; auto 10 with shape).
  assert (Hent : forall i j, (i < n)%nat -> (j < K)%nat ->
            entry e i j = exp (- entry Y i j * entry pred i j)).
  { intros i j Hi Hj. unfold e. entries n K. reflexivity. }
  assert (Hf : msum (emap Mathutil.log (emap (Rplus 1) e))
               = Spec.sum_entries n K
                   (fun i j =>
                      ln (1 + exp (- entry Y i j * entry pred i j)))).
  { rewrite (msum_sum_entries n K) by auto 10 with shape.
    apply sum_upto_ext. intros i Hi. apply sum_upto_ext. intros j Hj.
    entries n K. now rewrite Hent by assumption. }
  split; [auto 10 with shape|]. split; [exact Hf|]. split.
  - rewrite Hf. apply sum_upto_nonneg. intros i Hi.
    apply sum_upto_nonneg. intros j Hj. left. apply log1p_exp_positive.
  - intros i j Hi Hj. entries n K. rewrite Hent by assumption. split.
    + apply derive_bnll.
    + pose proof (exp_pos (- entry Y i j * entry pred i j)) as Hpos.
      unfold Rdiv. rewrite !Rabs_mult, Rabs_Ropp, Rabs_inv.
      rewrite (Rabs_pos_eq (exp _)), (Rabs_pos_eq (1 + exp _)) by lra.
      rewrite Rmult_assoc. rewrite <- (Rmult_1_r (Rabs (entry Y i j))) at 2.
      apply Rmult_le_compat_l; [apply Rabs_pos|].
      apply (Rmult_le_reg_r (1 + exp (- entry Y i j * entry pred i j)));
        [lra|].
      rewrite Rmult_assoc, Rinv_l by lra. lra.
Qed.

(** With weights [Loss.loss_bnll] multiplies [-Y], of shape [n, K], by the
    weight vector of length [n] as it is, so numpy aligns the weights with
    the columns: for [n] and [K] above 1 and different the call is a
    ValueError, and for a square [Y] it returns the value weighted by the
    example, [sum_i weight[i] * sum_j log(1 + exp(-Y*pred))], and a gradient
    whose entry [i, j] is the unweighted one times [weight[j]]. *)
Theorem loss_bnll_with_weights (n K : nat) (Y pred : mat) (w : vec)
  (HY : has_shape n K Y) (HP : has_shape n K pred) (HW : length w = n) :
  ((1 < n)%nat -> (1 < K)%nat -> n <> K ->
   Loss.loss_bnll Y pred (Some w) = None) /\
  (n = K ->
   exists f g,
     Loss.loss_bnll Y pred (Some w) = Some (f, g) /\ has_shape n K g /\
     f = Spec.sum_entries n K
           (fun i j =>
              nth i w 0 * ln (1 + exp (- entry Y i j * entry pred i j))) /\
     forall i j, (i < n)%nat -> (j < K)%nat ->
       entry g i j
       = nth j w 0
         * (- entry Y i j * exp (- entry Y i j * entry pred i j)
            / (1 + exp (- entry Y i j * entry pred i j)))).
Proof.
  unfold Loss.loss_bnll.
  set (e := emap Mathutil.exp (ewise Rmult (emap Ropp Y) pred)).
  assert (He : has_shape n K e) by (unfold e; auto 10 with shape).
  assert (Hent : forall i j, (i < n)%nat -> (j < K)%nat ->
            entry e i j = exp (- entry Y i j * entry pred i j)).
  { intros i j Hi Hj. unfold e. entries n K. reflexivity. }
  set (logs := emap Mathutil.log (emap (Rplus 1) e)).
  assert (HL : has_shape n K logs) by (unfold logs; auto 10 with shape).
  assert (Hlen : (length w =? length logs)%nat = true)
    by (apply Nat.eqb_eq; destruct HL; congruence).
  rewrite Hlen. split.
  - intros H1 HK Hne.
    now rewrite (with_vector_fails n K Rmult (emap Ropp Y) w)
      by auto with shape.
  - intros Hsq.
    assert (HwK : length w = K) by congruence.
    rewrite (with_vector_same_width n K) by auto with shape.
    pose proof (has_shape_rows_with n K Rmult (emap Ropp Y) w
                  ltac:(auto with shape) HwK) as H1.
    rewrite (with_matrix_same_shape n K) by assumption.
    rewrite (with_matrix_same_shape n K) by auto 10 with shape.
    do 2 eexists. split; [reflexivity|].
    split; [auto 10 with shape|]. split.
    + rewrite (vsum_vecmat n) by eauto using has_shape_ncols.
      rewrite vdot_comm, weighted_rows by (destruct HL; congruence).
      rewrite (msum_sum_entries n K) by auto 10 with shape.
      apply sum_upto_ext. intros i Hi. apply sum_upto_ext. intros j Hj.
      entries n K. unfold logs. entries n K.
      now rewrite Hent by assumption.
    + intros i j Hi Hj. entries n K.
      rewrite (entry_rows_with n K) by auto with shape.
      entries n K. rewrite Hent by assumption.
      pose proof (exp_pos (- entry Y i j * entry pred i j)).
      unfold Rdiv. ring.
Qed.

Lemma loss_bnll_with_weights_witness :
  Loss.loss_bnll [[1; -1; 1]; [1; 1; -1]] [[0; 0; 0]; [0; 0; 0]]
    (Some [1; 2])
  = None.
Proof.
  apply (proj1 (loss_bnll_with_weights 2 3 [[1; -1; 1]; [1; 1; -1]]
                  [[0; 0; 0]; [0; 0; 0]] [1; 2]
                  ltac:(split; [reflexivity | repeat constructor])
                  ltac:(split; [reflexivity | repeat constructor])
                  eq_refl)); lia.
Defined.

Lemma loss_bnll_without_weights_witness :
  exists f g,
    Loss.loss_bnll [[1; -1]] [[0; 2]] None = Some (f, g) /\
    has_shape 1 2 g /\ 0 <= f.
Proof.
  destruct (loss_bnll_without_weights 1 2 [[1; -1]] [[0; 2]]
              ltac:(split; [reflexivity | repeat constructor])
              ltac:(split; [reflexivity | repeat constructor]))
    as (f & g & Hrun & Hs & _ & Hf & _).
  exists f, g. split; [exact Hrun | split; [exact Hs | exact Hf]].
Defined.

(** ** The gradient of the elastic net *)

Section ElasticNet.

Lemma derive_square p : derivable_pt_lim (fun q => q ^ 2) p (2 * p).
Proof.
  apply (derivative_by_square_bound _ _ _ 1); [lra|]. intros h.
  replace ((p + h) ^ 2 - p ^ 2 - 2 * p * h) with (h * h) by ring.
  rewrite Rabs_pos_eq by nra. lra.
Qed.

Lemma derive_abs p : p <> 0 -> derivable_pt_lim Rabs p (Reg.sign p).
Proof.
  intros Hp. unfold Reg.sign.
  destruct (Rlt_dec p 0); [now apply Rabs_derive_2|].
  destruct (Rlt_dec 0 p); [now apply Rabs_derive_1 | lra].
Qed.

Lemma derive_elastic a p :
  p <> 0 ->
  derivable_pt_lim (fun q => Rabs q * a + q ^ 2 * (1 - a)) p
    (Reg.sign p * a + 2 * p * (1 - a)).
Proof.
  intros Hp.
  pose proof (derive_scaled _ a _ _ (derive_abs p Hp)) as H1.
  pose proof (derive_scaled _ (1 - a) _ _ (derive_square p)) as H2.
  pose proof (derivable_pt_lim_plus _ _ _ _ _ H1 H2) as H.
  unfold plus_fct in H.
  replace (Reg.sign p * a + 2 * p * (1 - a))
    with (a * Reg.sign p + (1 - a) * (2 * p)) by ring.
  intros eps Heps. destruct (H eps Heps) as [delta Hd]. exists delta.
  intros h Hh Hlt. specialize (Hd h Hh Hlt).
  replace (Rabs (p + h) * a + (p + h) ^ 2 * (1 - a)
           - (Rabs p * a + p ^ 2 * (1 - a)))
    with (a * Rabs (p + h) + (1 - a) * (p + h) ^ 2
          - (a * Rabs p + (1 - a) * p ^ 2)) by ring.
  exact Hd.
Qed.

End ElasticNet.

(** [Reg.reg_elastic] with the balancing weight [alpha] returns the sum over
    the entries of [W] of [|w| * alpha + w^2 * (1 - alpha)] and a gradient
    whose entry is the derivative of that term where [w] is not 0; where [w]
    is 0 the entry is [0.5 * alpha], which for [alpha] in [0, 1] is a
    subgradient of the term. *)
Theorem reg_elastic_gradient (n K : nat) (W : mat) (a : R)
  (HW : has_shape n K W) :
  let term x := Rabs x * a + x ^ 2 * (1 - a) in
  let g := snd (Reg.reg_elastic W {| Reg.alpha := Some a |}) in
  fst (Reg.reg_elastic W {| Reg.alpha := Some a |})
  = Spec.sum_entries n K (fun i j => term (entry W i j)) /\
  has_shape n K g /\
  forall i j, (i < n)%nat -> (j < K)%nat ->
    (entry W i j <> 0 ->
     derivable_pt_lim term (entry W i j) (entry g i j)) /\
    (entry W i j = 0 ->
     entry g i j = 0.5 * a /\
     (0 <= a <= 1 -> forall v, term 0 + entry g i j * (v - 0) <= term v)).
Proof.
  cbv zeta. unfold Reg.reg_elastic, Reg.reg_l1, Reg.reg_l2.
  cbn [Reg.alpha fst snd]. split; [|split].
  - rewrite squares_of_entries, !(msum_sum_entries n K) by auto with shape.
    unfold Spec.sum_entries.
    assert (Hlin : forall m (g h : nat -> R) c d,
              Spec.sum_upto m g * c + Spec.sum_upto m h * d
              = Spec.sum_upto m (fun i => g i * c + h i * d)).
    { induction m as [|m IH]; intros g h c d; cbn [Spec.sum_upto];
        [lra|]. rewrite <- IH. lra. }
    rewrite Hlin. apply sum_upto_ext. intros i Hi.
    rewrite Hlin. apply sum_upto_ext. intros j Hj.
    entries n K. ring.
  - auto 10 with shape.
  - intros i j Hi Hj. entries n K. split.
    + intros Hne.
      assert (Hs : (if Req_dec_T (Reg.sign (entry W i j)) 0 then 0.5
                    else Reg.sign (entry W i j))
                   = Reg.sign (entry W i j)).
      { destruct (Req_dec_T _ _) as [E|]; [|reflexivity].
        revert E. unfold Reg.sign.
        destruct (Rlt_dec (entry W i j) 0), (Rlt_dec 0 (entry W i j));
          intros; lra. }
      rewrite Hs.
      now apply derive_elastic.
    + intros H0. rewrite H0.
      assert (Hs : (if Req_dec_T (Reg.sign 0) 0 then 0.5 else Reg.sign 0)
                   = 0.5).
      { unfold Reg.sign.
        destruct (Rlt_dec 0 0); [lra|].
        destruct (Req_dec_T 0 0); [reflexivity | lra]. }
      rewrite Hs. split; [lra|]. intros Ha v.
      rewrite Rabs_R0. unfold Rabs. destruct (Rcase_abs v); nra.
Qed.

Lemma reg_elastic_gradient_witness :
  derivable_pt_lim (fun x => Rabs x * (1 / 4) + x ^ 2 * (1 - 1 / 4))
    (entry [[3; 0]] 0 0)
    (entry (snd (Reg.reg_elastic [[3; 0]] {| Reg.alpha := Some (1 / 4) |}))
       0 0).
Proof.
  assert (HW : has_shape 1 2 [[3; 0]])
    by (split; [reflexivity | repeat constructor]).
  apply (proj1 (proj2 (proj2 (reg_elastic_gradient 1 2 [[3; 0]] (1 / 4) HW))
                  0%nat 0%nat ltac:(lia) ltac:(lia))).
  cbn. lra.
Defined.

(** ** Adagrad: what every iteration does *)

Section AdagradRun.

Import SolverMC SolverStochastic.

Variable sampler : nat -> nat -> ndarray * labels * option vec.
Variable wolfe_line_search_adagrad :
  vec -> (vec -> solver -> M (R * vec * solver)) -> solver -> R -> R ->
  M (R * solver).
Variable _FMIN :
  (vec -> solver -> M (R * vec * solver)) -> vec -> solver ->
  M (vec * R * solver).
Variable self_args : args.
Variable K : option nat.

Hypothesis adagrad_mode : lbfgs self_args = false.
Hypothesis search_keeps :
  Spec.keeps_the_gradient_buffer wolfe_line_search_adagrad.

Let step := iteration sampler wolfe_line_search_adagrad _FMIN self_args K.
Let loop := iterate sampler wolfe_line_search_adagrad _FMIN self_args K.
Let eta0 : R := match eta self_args with Some e => e | None => 0 end.
Let initial : R := eta0 ^ 2 + float64_eps.

(** the first iteration of a run from iteration 0, up to the evaluation *)
Lemma prepare_from_zero st batch w p w' :
  adagrad_prepare wolfe_line_search_adagrad self_args K 0%nat st 0%nat
    batch w = Ok (p, w') ->
  exists s w1 base_lr gbuf,
    presolve (solver_basic st) (fst (fst batch)) (snd (fst batch))
      (snd batch) (param st) K w = Ok (p_param_flat p, s, w1) /\
    ((lr st = Some base_lr /\ ~ base_lr < 0 /\
      p_solver p = s /\ w' = w1) \/
     ((lr st = None \/ exists l, lr st = Some l /\ l < 0) /\
      wolfe_line_search_adagrad (p_param_flat p) obj s
        (Rabs (match lr st with Some l => l | None => 1 end)) eta0 w1
      = Ok (base_lr, p_solver p, w'))) /\
    p_lr p = Some base_lr /\
    p_accum_grad p = Array (repeat initial (length (p_param_flat p))) /\
    _g (p_solver p) = Some gbuf /\ length gbuf = length (p_param_flat p).
Proof.
  intros H. pose proof (prepare_initializes _ _ _ _ _ _ _ _ H) as Hacc.
  fold eta0 in Hacc. fold initial in Hacc.
  unfold adagrad_prepare in H. destruct batch as [[X Y] wt].
  cbn [Nat.eqb fst snd] in *. fold eta0 in H.
  mstep_ok H. mstep_ok H.
  destruct (presolve_sizes _ _ _ _ _ _ _ _ _ _ E)
    as (n & rest & pred & glocal & gbuf & _ & _ & _ & _ & _ & _ & _ & _
        & Hg & Hlen & _).
  destruct (lr st) as [rate|] eqn:El.
  - destruct (Rlt_dec rate 0) as [Hneg|Hpos].
    + mstep_ok H. mstep_ok H. unfold ret in H. injection H as <- <-.
      cbn [p_param_flat p_solver p_lr p_accum_grad] in *.
      match goal with
      | Es : wolfe_line_search_adagrad _ _ _ _ _ _ = Ok (?found, _, _) |- _ =>
          destruct (search_keeps _ _ _ _ _ _ _ _ _ Es Hg)
            as (gbuf' & Hg' & Hl');
          do 2 eexists; exists found, gbuf'; split; [reflexivity|];
          split; [right; split; [right; eauto | exact Es]|]
      end.
      split; [reflexivity|]. split; [exact Hacc|].
      split; [exact Hg' | congruence].
    + unfold ret in H. injection H as <- <-.
      cbn [p_param_flat p_solver p_lr p_accum_grad] in *.
      do 2 eexists. exists rate, gbuf. split; [reflexivity|].
      split; [left; repeat split; assumption|].
      split; [reflexivity|]. split; [exact Hacc|].
      split; [exact Hg | exact Hlen].
  - mstep_ok H. mstep_ok H. unfold ret in H. injection H as <- <-.
    cbn [p_param_flat p_solver p_lr p_accum_grad] in *.
    match goal with
    | Es : wolfe_line_search_adagrad _ _ _ _ _ _ = Ok (?found, _, _) |- _ =>
        destruct (search_keeps _ _ _ _ _ _ _ _ _ Es Hg)
          as (gbuf' & Hg' & Hl');
        do 2 eexists; exists found, gbuf'; split; [reflexivity|];
        split; [right; split; [left; reflexivity | exact Es]|]
    end.
    split; [reflexivity|]. split; [exact Hacc|].
    split; [exact Hg' | congruence].
Qed.

(** one evaluation and update on arrays of one length *)
Lemma update_exact st p w st' w' a gbuf :
  adagrad_update st p w = Ok (st', w') ->
  p_accum_grad p = Array a ->
  _g (p_solver p) = Some gbuf ->
  length a = length (p_param_flat p) ->
  length gbuf = length (p_param_flat p) ->
  exists f0 g base_lr,
    obj (p_param_flat p) (p_solver p) w = Ok (f0, g, solver_basic st', w') /\
    length g = length (p_param_flat p) /\
    p_lr p = Some base_lr /\ lr st' = Some base_lr /\
    accum_grad st' = Array (zip_with Rplus a (zip_with Rmult g g)) /\
    param_flat st'
    = Some (zip_with Rminus (p_param_flat p)
              (map (fun x => x * base_lr)
                 (zip_with Rdiv g
                    (map sqrt (zip_with Rplus a (zip_with Rmult g g)))))) /\
    Spec.in_step (length (p_param_flat p)) st'.
Proof.
  intros H Ha Hg Hla Hlg.
  destruct (update_accumulates _ _ _ _ _ H)
    as (f0 & g & solver & w1 & a0 & a' & base_lr & pf' & Hobj & Ha0 & Ha'
        & Hlr & Hpf & _ & Hsum & Hstep).
  destruct (update_step _ _ _ _ _ H)
    as (f1 & g1 & pf1 & wb & Hobj1 & Hlr1 & _).
  rewrite Hobj in Hobj1. injection Hobj1 as <- <- -> ->.
  rewrite Ha in Ha0. injection Ha0 as <-.
  destruct (obj_sizes _ _ _ _ _ _ _ Hobj)
    as (_ & _ & _ & (gl & gb & gl' & pred' & _ & Hgb & _ & Hlen & Hg' & _)
        & _).
  rewrite Hg in Hgb. injection Hgb as <-.
  assert (Hga : length g = length a) by congruence.
  specialize (Hsum Hga). specialize (Hstep Hga (eq_sym Hla)). subst a' pf'.
  assert (Hla' : length (zip_with Rplus a (zip_with Rmult g g)) = length a).
  { apply zip_with_length. rewrite zip_with_length; congruence. }
  exists f0, g, base_lr.
  split; [exact Hobj|]. split; [congruence|]. split; [exact Hlr|].
  split; [congruence|]. split; [exact Ha'|]. split; [exact Hpf|].
  eexists _, _, g, base_lr.
  split; [exact Hpf|]. split; [exact Ha'|]. split; [exact Hg'|].
  split; [congruence|]. split; [|split; congruence].
  apply zip_with_length.
  rewrite length_map, zip_with_length; rewrite ?length_map; congruence.
Qed.

Lemma in_step_after_dump len st iter w st' w' :
  dump self_args st iter w = Ok (st', w') ->
  Spec.in_step len st -> Spec.in_step len st'.
Proof.
  intros Hd (pf & a & gbuf & rate & Hpf & Ha & Hg & Hlr & Hl).
  destruct (dump_keeps_the_variables _ _ _ _ _ _ Hd)
    as (_ & Hsb & _ & Hflat & Hacc & Hrate).
  exists pf, a, gbuf, rate. rewrite Hsb, Hflat, Hacc, Hrate.
  repeat split; try assumption; apply Hl.
Qed.

(** the first iteration of a run from iteration 0 *)
Lemma first_step_exact st w st' w' :
  step 0%nat st 0%nat w = Ok (st', w') ->
  exists size pf s w1 base_lr s2 w2 f0 g,
    minibatch self_args = Some size /\
    presolve (solver_basic st) (fst (fst (sampler 0%nat size)))
      (snd (fst (sampler 0%nat size))) (snd (sampler 0%nat size))
      (param st) K w = Ok (pf, s, w1) /\
    ((lr st = Some base_lr /\ ~ base_lr < 0 /\ s2 = s /\ w2 = w1) \/
     ((lr st = None \/ exists rate, lr st = Some rate /\ rate < 0) /\
      wolfe_line_search_adagrad pf obj s
        (Rabs (match lr st with Some rate => rate | None => 1 end)) eta0 w1
      = Ok (base_lr, s2, w2))) /\
    obj pf s2 w2 = Ok (f0, g, solver_basic st', w') /\
    length g = length pf /\
    accum_grad st'
    = Array (zip_with Rplus (repeat initial (length pf))
               (zip_with Rmult g g)) /\
    param_flat st'
    = Some (zip_with Rminus pf
              (map (fun x => x * base_lr)
                 (zip_with Rdiv g
                    (map sqrt
                       (zip_with Rplus (repeat initial (length pf))
                          (zip_with Rmult g g)))))) /\
    lr st' = Some base_lr /\
    Spec.in_step (length pf) st'.
Proof.
  intros H. apply (step_decomposes _ _ _ _ _ _ _ _ _ _ _ adagrad_mode) in H.
  destruct H as (size & p & w1 & st1 & w2 & Hm & Hp & Hu & Hd).
  cbn [Nat.sub] in Hp.
  destruct (prepare_from_zero _ _ _ _ _ Hp)
    as (s & w0 & base_lr & gbuf & Hpre & Hsearch & Hlr & Hacc & Hg & Hlen).
  destruct (update_exact _ _ _ _ _ _ _ Hu Hacc Hg
              ltac:(apply repeat_length) Hlen)
    as (f0 & g & rate & Hobj & Hlg & Hlr' & Hlr1 & Ha1 & Hpf1 & Hin).
  rewrite Hlr in Hlr'. injection Hlr' as <-.
  destruct (dump_keeps_the_variables _ _ _ _ _ _ Hd)
    as (-> & Hsb & _ & Hflat & Hacc' & Hrate).
  exists size, (p_param_flat p), s, w0, base_lr, (p_solver p), w1, f0, g.
  rewrite Hsb, Hflat, Hacc', Hrate.
  split; [exact Hm|]. split; [exact Hpre|].
  split.
  { destruct Hsearch as [(H1 & H2 & H3 & H4)|[H1 H2]];
      [left; repeat split; auto | right; split; assumption]. }
  split; [exact Hobj|]. split; [exact Hlg|]. split; [exact Ha1|].
  split; [exact Hpf1|]. split; [exact Hlr1|].
  exact (in_step_after_dump _ _ _ _ _ _ Hd Hin).
Qed.

(** an iteration after the first of its run *)
Lemma later_step_exact iter_start iter len st w st' w' :
  iter <> iter_start ->
  Spec.in_step len st ->
  step iter_start st iter w = Ok (st', w') ->
  exists size pf a base_lr f0 g,
    minibatch self_args = Some size /\
    param_flat st = Some pf /\ accum_grad st = Array a /\
    lr st = Some base_lr /\ length pf = len /\ length a = len /\
    obj pf
      (with_data (solver_basic st)
         (fst (fst (sampler (iter - iter_start)%nat size)))
         (snd (fst (sampler (iter - iter_start)%nat size)))
         (snd (sampler (iter - iter_start)%nat size))) w
    = Ok (f0, g, solver_basic st', w') /\
    length g = len /\
    accum_grad st' = Array (zip_with Rplus a (zip_with Rmult g g)) /\
    param_flat st'
    = Some (zip_with Rminus pf
              (map (fun x => x * base_lr)
                 (zip_with Rdiv g
                    (map sqrt (zip_with Rplus a (zip_with Rmult g g)))))) /\
    lr st' = Some base_lr /\
    Spec.in_step len st'.
Proof.
  intros Hne (pf & a & gbuf & rate & Hpf & Ha & Hg & Hlr & Hl1 & Hl2 & Hl3) H.
  apply (step_decomposes _ _ _ _ _ _ _ _ _ _ _ adagrad_mode) in H.
  destruct H as (size & p & w1 & st1 & w2 & Hm & Hp & Hu & Hd).
  apply (prepare_after_the_first _ _ _ _ _ _ _ _ _ _ Hne) in Hp.
  destruct Hp as (-> & Hpf' & Hacc & Hlrp & Hs).
  rewrite Hpf in Hpf'. injection Hpf' as Hpf'.
  rewrite Ha in Hacc.
  assert (Hgp : _g (p_solver p) = Some gbuf) by (rewrite Hs; exact Hg).
  destruct (update_exact _ _ _ _ _ _ _ Hu Hacc Hgp
              ltac:(congruence) ltac:(congruence))
    as (f0 & g & base_lr & Hobj & Hlg & Hlr' & Hlr1 & Ha1 & Hpf1 & Hin).
  rewrite Hlrp, Hlr in Hlr'. injection Hlr' as <-.
  destruct (dump_keeps_the_variables _ _ _ _ _ _ Hd)
    as (-> & Hsb & _ & Hflat & Hacc' & Hrate).
  exists size, pf, a, rate, f0, g.
  rewrite Hsb, Hflat, Hacc', Hrate. rewrite <- Hpf', Hs in *.
  split; [exact Hm|]. split; [exact Hpf|]. split; [exact Ha|].
  split; [exact Hlr|]. split; [exact Hl1|]. split; [exact Hl2|].
  split; [exact Hobj|]. split; [congruence|]. split; [exact Ha1|].
  split; [exact Hpf1|]. split; [exact Hlr1|].
  rewrite <- Hl1. exact (in_step_after_dump _ _ _ _ _ _ Hd Hin).
Qed.

Lemma loop_keeps_in_step len k : forall i st w st' w',
  Spec.in_step len st ->
  loop 0%nat st (seq (S i) k) w = Ok (st', w') ->
  Spec.in_step len st'.
Proof.
  induction k as [|k IH]; intros i st w st' w' Hin H.
  - injection H as <- <-. exact Hin.
  - cbn [seq] in H. unfold loop in H. cbn [iterate] in H.
    mstep_ok H. fold step in E. fold loop in H.
    destruct (later_step_exact 0%nat (S i) len _ _ _ _
                ltac:(discriminate) Hin E)
      as (size & pf & a & rate & f0 & g & Hrest).
    apply (IH (S i) _ _ _ _ (proj2 (proj2 (proj2 (proj2 (proj2 (proj2 (proj2
             (proj2 (proj2 (proj2 (proj2 Hrest))))))))))) H).
Qed.

(** after any number of iterations of a run from iteration 0 the arrays
    have the length of the flat parameter that [presolve] returned *)
Lemma loop_from_zero n st0 w st_n w_n :
  loop 0%nat st0 (seq 0 (S n)) w = Ok (st_n, w_n) ->
  exists size pf0 s w1,
    minibatch self_args = Some size /\
    presolve (solver_basic st0) (fst (fst (sampler 0%nat size)))
      (snd (fst (sampler 0%nat size))) (snd (sampler 0%nat size))
      (param st0) K w = Ok (pf0, s, w1) /\
    Spec.in_step (length pf0) st_n.
Proof.
  intros H. cbn [seq] in H. unfold loop in H. cbn [iterate] in H.
  mstep_ok H. fold step in E. fold loop in H.
  destruct (first_step_exact _ _ _ _ E)
    as (size & pf & s & w1 & base_lr & s2 & w2 & f0 & g & Hm & Hpre & _ & _
        & _ & _ & _ & _ & Hin).
  exists size, pf, s, w1. split; [exact Hm|]. split; [exact Hpre|].
  exact (loop_keeps_in_step _ n 0%nat _ _ _ _ Hin H).
Qed.

End AdagradRun.


